(** * web2md: the Web-to-Markdown converter, embedded and verified

    A shallow embedding of [src/WebToMarkdownConverter.ts] together with the
    parts of its collaborators (the Turndown rule engine and the GFM plug-in)
    that the converter drives.

    - Strings are JavaScript strings: finite sequences of UTF-16 code units,
      modelled as [list N].
    - Regular expressions are interpreted by a backtracking matcher that
      follows the ECMAScript matching rules (priority of alternatives,
      greedy and lazy quantifiers, the empty-iteration check). *)

From Stdlib Require Import String Ascii.
From Stdlib Require Import List NArith Bool Arith Lia.
Import ListNotations.

Set Warnings "-register-all".



(* ================================================================== *)
(** * JavaScript strings *)
(* ================================================================== *)

Module JS.

(** A string is a list of UTF-16 code units. *)
Definition jsstring := list N.

(** ASCII literals. *)
Definition js (s : string) : jsstring :=
  map N_of_ascii (list_ascii_of_string s).
Arguments js s%_string.

Definition LF : N := 10.
Definition CR : N := 13.
Definition TAB : N := 9.
Definition SP : N := 32.
Definition nl : jsstring := [LF].

Definition in_range (lo hi c : N) : bool := (lo <=? c)%N && (c <=? hi)%N.
Definition one_of (cs : list N) (c : N) : bool := existsb (N.eqb c) cs.

(** ECMAScript LineTerminator: LF, CR, LS, PS. *)
Definition isLineTerminator (c : N) : bool :=
  one_of [10; 13; 8232; 8233]%N c.

(** ECMAScript WhiteSpace or LineTerminator: what [\s] and [trim] use. *)
Definition isSpace (c : N) : bool :=
  one_of [9; 10; 11; 12; 13; 32; 160; 5760; 8232; 8233; 8239; 8287; 12288; 65279]%N c
  || in_range 8192 8202 c.

Definition isDigit (c : N) : bool := in_range 48 57 c.
Definition isUpper (c : N) : bool := in_range 65 90 c.
Definition isLower (c : N) : bool := in_range 97 122 c.
(** [\w] *)
Definition isWord (c : N) : bool :=
  isDigit c || isUpper c || isLower c || (c =? 95)%N.

(** Case folding of a pattern character under the [i] flag (without [u]):
    only ASCII letters have an ASCII case partner. *)
Definition upcase (c : N) : N := if isLower c then (c - 32)%N else c.

Fixpoint string_eqb (a b : jsstring) : bool :=
  match a, b with
  | [], [] => true
  | x :: a', y :: b' => (x =? y)%N && string_eqb a' b'
  | _, _ => false
  end.

(** [s.startsWith(p)] *)
Fixpoint startsWith (p s : jsstring) : bool :=
  match p, s with
  | [], _ => true
  | x :: p', y :: s' => (x =? y)%N && startsWith p' s'
  | _ :: _, [] => false
  end.

(** [s.includes(p)] *)
Fixpoint includes (p s : jsstring) : bool :=
  startsWith p s ||
  match s with
  | [] => false
  | _ :: s' => includes p s'
  end.

(** [s.trim()]: strip white space and line terminators at both ends. *)
Fixpoint trimStart (s : jsstring) : jsstring :=
  match s with
  | c :: s' => if isSpace c then trimStart s' else s
  | [] => []
  end.

Definition trimEnd (s : jsstring) : jsstring := rev (trimStart (rev s)).

Definition trim (s : jsstring) : jsstring := trimEnd (trimStart s).

(** JavaScript truthiness of a string. *)
Definition truthy (s : jsstring) : bool :=
  match s with [] => false | _ => true end.

(** [a || b] on strings that may be [null]/[undefined]. *)
Definition or_else (a : option jsstring) (b : jsstring) : jsstring :=
  match a with
  | Some (c :: s) => c :: s
  | _ => b
  end.

(** [Array.prototype.join] *)
Fixpoint join (sep : jsstring) (parts : list jsstring) : jsstring :=
  match parts with
  | [] => []
  | [p] => p
  | p :: rest => p ++ sep ++ join sep rest
  end.

Fixpoint repeat_str (s : jsstring) (n : nat) : jsstring :=
  match n with
  | 0 => []
  | S n' => s ++ repeat_str s n'
  end.

End JS.
Export JS.

(* ================================================================== *)
(** * Regular expressions *)
(* ================================================================== *)

Module Regex.

(** The fragment of ECMAScript patterns that the converter and the rule
    engine use. *)
Inductive regex : Type :=
| Eps                                   (* empty pattern *)
| Chr (p : N -> bool)                   (* one code unit in a class *)
| Seq (r1 r2 : regex)
| Alt (r1 r2 : regex)
| Rep (greedy : bool) (min : nat) (max : option nat) (r : regex)
| Grp (i : nat) (r : regex)             (* capturing group number i *)
| Bol (multiline : bool)                (* ^ *)
| Eol (multiline : bool)                (* $ *)
| WordB                                 (* \b *)
| Look (positive : bool) (r : regex).   (* (?=r) and (?!r) *)

(** A position in the subject: the code unit just before it, what is left,
    and the captures made so far. *)
Record mstate := MState {
  prev : option N;
  rest : jsstring;
  caps : list (nat * jsstring)
}.

Definition K := mstate -> option mstate.

Definition accept : K := fun st => Some st.

Definition orelse (a b : option mstate) : option mstate :=
  match a with Some x => Some x | None => b end.

Definition consumed (st st' : mstate) : jsstring :=
  firstn (length (rest st) - length (rest st')) (rest st).

Definition word_before (st : mstate) : bool :=
  match prev st with Some c => isWord c | None => false end.
Definition word_after (st : mstate) : bool :=
  match rest st with c :: _ => isWord c | [] => false end.

(** The quantifier loop (ECMAScript RepeatMatcher): an iteration that is
    not required and consumes nothing fails. [fuel] bounds the number of
    iterations by [min + |rest| + 1], which they never exceed. *)
Fixpoint rep (ma : K -> K) (greedy : bool) (fuel min : nat) (max : option nat)
    (k : K) (st : mstate) : option mstate :=
  match fuel with
  | 0 => None
  | S fuel' =>
      match max with
      | Some 0 => k st
      | _ =>
          let iter :=
            ma (fun st' =>
                  if (min =? 0) && (length (rest st') =? length (rest st))
                  then None
                  else rep ma greedy fuel' (pred min) (option_map pred max) k st')
               st in
          if 0 <? min then iter
          else if greedy then orelse iter (k st)
          else orelse (k st) iter
      end
  end.

Fixpoint m (r : regex) (k : K) (st : mstate) {struct r} : option mstate :=
  match r with
  | Eps => k st
  | Chr p =>
      match rest st with
      | c :: tl => if p c then k (MState (Some c) tl (caps st)) else None
      | [] => None
      end
  | Seq r1 r2 => m r1 (m r2 k) st
  | Alt r1 r2 => orelse (m r1 k st) (m r2 k st)
  | Rep g mn mx r' => rep (m r') g (mn + length (rest st) + 1) mn mx k st
  | Grp i r' =>
      m r' (fun st' =>
              k (MState (prev st') (rest st') ((i, consumed st st') :: caps st')))
        st
  | Bol ml =>
      match prev st with
      | None => k st
      | Some c => if ml && isLineTerminator c then k st else None
      end
  | Eol ml =>
      match rest st with
      | [] => k st
      | c :: _ => if ml && isLineTerminator c then k st else None
      end
  | WordB => if xorb (word_before st) (word_after st) then k st else None
  | Look pos r' =>
      match m r' accept st with
      | Some st' => if pos then k (MState (prev st) (rest st) (caps st')) else None
      | None => if pos then None else k st
      end
  end.

(** The outcome of one match attempt at a position. *)
Record rmatch := RMatch {
  matched : jsstring;
  groups : list (nat * jsstring)
}.

(** The text of capture group [i] ([undefined] read as the empty string). *)
Fixpoint group (i : nat) (gs : list (nat * jsstring)) : jsstring :=
  match gs with
  | [] => []
  | (j, s) :: gs' => if i =? j then s else group i gs'
  end.

Definition exec_at (r : regex) (pv : option N) (s : jsstring) : option rmatch :=
  let st := MState pv s [] in
  match m r accept st with
  | Some st' => Some (RMatch (consumed st st') (caps st'))
  | None => None
  end.

(** [s.replace(r, f)]: scan left to right; at each position try a match;
    on success emit the replacement and resume after the match (one code
    unit further when the match is empty). [skip] counts the code units of
    the current match still to be passed over. Without the [g] flag only
    the first match is replaced. *)
Fixpoint replace_go (r : regex) (f : rmatch -> jsstring) (global : bool)
    (pv : option N) (skip : nat) (active : bool) (s : jsstring) : jsstring :=
  match skip with
  | S n =>
      match s with
      | [] => []
      | c :: tl => replace_go r f global (Some c) n active tl
      end
  | 0 =>
      match (if active then exec_at r pv s else None) with
      | Some mt =>
          f mt ++
          match s with
          | [] => []
          | c :: tl =>
              match length (matched mt) with
              | 0 => c :: replace_go r f global (Some c) 0 global tl
              | S n => replace_go r f global (Some c) n global tl
              end
          end
      | None =>
          match s with
          | [] => []
          | c :: tl => c :: replace_go r f global (Some c) 0 active tl
          end
      end
  end.

Definition replace_all (r : regex) (f : rmatch -> jsstring) (s : jsstring) : jsstring :=
  replace_go r f true None 0 true s.

Definition replace_first (r : regex) (f : rmatch -> jsstring) (s : jsstring) : jsstring :=
  replace_go r f false None 0 true s.

(** [s.match(r)] without the [g] flag: the leftmost match. *)
Fixpoint search_go (r : regex) (pv : option N) (s : jsstring) : option rmatch :=
  match exec_at r pv s with
  | Some mt => Some mt
  | None =>
      match s with
      | [] => None
      | c :: tl => search_go r (Some c) tl
      end
  end.

Definition search (r : regex) (s : jsstring) : option rmatch := search_go r None s.

(** [r.test(s)] *)
Definition test (r : regex) (s : jsstring) : bool :=
  match search r s with Some _ => true | None => false end.

(** Pattern shorthands. *)
Definition chr (c : N) : regex := Chr (N.eqb c).
Definition chr_i (c : N) : regex := Chr (fun x => (upcase x =? upcase c)%N).
Definition star (r : regex) : regex := Rep true 0 None r.
Definition plus (r : regex) : regex := Rep true 1 None r.
Definition lazy_star (r : regex) : regex := Rep false 0 None r.
Definition lazy_plus (r : regex) : regex := Rep false 1 None r.
Definition any : regex := Chr (fun _ => true).            (* [\s\S] *)
Definition ws : regex := Chr isSpace.                     (* \s *)
Definition non_ws : regex := Chr (fun c => negb (isSpace c)). (* \S *)
Definition none_of (cs : list N) : regex := Chr (fun c => negb (one_of cs c)).

Fixpoint seqs (rs : list regex) : regex :=
  match rs with
  | [] => Eps
  | [r] => r
  | r :: rs' => Seq r (seqs rs')
  end.

(** A literal string, optionally case-insensitive. *)
Definition lit (ci : bool) (s : jsstring) : regex :=
  seqs (map (fun c => if ci then chr_i c else chr c) s).

End Regex.
Export Regex.

(* ================================================================== *)
(** * tidyMarkdown *)
(* ================================================================== *)

(** [/\[\s*([^\]\n]+?)\s*\]\s*\(\s*([^)]+)\s*\)/g] *)
Definition link_re : regex :=
  seqs [ chr 91; star ws;
         Grp 1 (lazy_plus (none_of [93; 10]%N));
         star ws; chr 93; star ws; chr 40; star ws;
         Grp 2 (plus (none_of [41]%N));
         star ws; chr 41 ].

(** [/\s+/g] *)
Definition spaces_re : regex := plus ws.

(** [/\n{3,}/g] *)
Definition blank_lines_re : regex := Rep true 3 None (chr LF).

(** [/^[ \t]+/gm] *)
Definition indent_re : regex :=
  Seq (Bol true) (plus (Chr (one_of [SP; TAB]))).

Definition fix_link (mt : rmatch) : jsstring :=
  let text := trim (replace_all spaces_re (fun _ => [SP]) (group 1 (groups mt))) in
  let url := trim (replace_all spaces_re (fun _ => []) (group 2 (groups mt))) in
  js "[" ++ text ++ js "](" ++ url ++ js ")".

Definition tidyMarkdown (markdown : jsstring) : jsstring :=
  (* Handle complex broken links with text and optional images *)
  let normalizedMarkdown := replace_all link_re fix_link markdown in
  (* Replace multiple empty lines with double line breaks *)
  let normalizedMarkdown := replace_all blank_lines_re (fun _ => [LF; LF]) normalizedMarkdown in
  (* Remove leading spaces from each line *)
  let normalizedMarkdown := replace_all indent_re (fun _ => []) normalizedMarkdown in
  trim normalizedMarkdown.


(* ================================================================== *)
(** * Results of fallible operations *)
(* ================================================================== *)

Module Outcome.

(** What a [throw] carries: an [Error] instance (of any subclass) with its
    message, or a value that is not an [Error]. *)
Inductive Thrown : Type :=
| ErrorObj (name message : jsstring)
| NonError (value : jsstring).

Inductive Result (A : Type) : Type :=
| Ok (a : A)
| Throw (e : Thrown).
Arguments Ok {A} a.
Arguments Throw {A} e.

Definition bind {A B} (r : Result A) (f : A -> Result B) : Result B :=
  match r with
  | Ok a => f a
  | Throw e => Throw e
  end.

Definition TypeError (msg : jsstring) : Thrown := ErrorObj (js "TypeError") msg.
Definition ReferenceError (msg : jsstring) : Thrown := ErrorObj (js "ReferenceError") msg.

Definition instanceofError (e : Thrown) : bool :=
  match e with ErrorObj _ _ => true | NonError _ => false end.

End Outcome.
Export Outcome.

Declare Scope result_scope.
Delimit Scope result_scope with result.
Notation "x <- c1 ;; c2" := (bind c1 (fun x => c2))
  (at level 61, c1 at next level, right associativity) : result_scope.
Open Scope result_scope.

(* ================================================================== *)
(** * The document object model *)
(* ================================================================== *)

Module Dom.

Definition Attrs := list (jsstring * jsstring).

(** What a piece of HTML text denotes: a tree of elements and text. This is
    what the parser reads from markup and what [innerHTML] writes back. *)
Inductive Markup : Type :=
| MText (data : jsstring)
| MElem (name : jsstring) (attributes : Attrs) (childNodes : list Markup).

(** A node of a live document. Elements are objects: [id] stands for the
    identity of the object, and [rows] for an own property named
    ["rows"] defined on it (absent on a freshly parsed element). *)
Inductive Node : Type :=
| Text (data : jsstring)
| Element (id : nat) (localName : jsstring) (attributes : Attrs)
          (rows : option (list nat)) (childNodes : list Node).

Record Document := {
  documentElement : option Node;
  hostname : jsstring            (* document.location.hostname *)
}.

(** ** Building a document: every element is a fresh object *)

Fixpoint label (w : nat) (t : Markup) : Node * nat :=
  match t with
  | MText d => (Text d, w)
  | MElem n a kids =>
      let '(kids', w') :=
        (fix go (w : nat) (l : list Markup) : list Node * nat :=
           match l with
           | [] => ([], w)
           | k :: l' =>
               let '(k', w1) := label w k in
               let '(l'', w2) := go w1 l' in
               (k' :: l'', w2)
           end) (S w) kids in
      (Element w n a None kids', w')
  end.

(** ** Reading *)

Fixpoint getAttr (name : jsstring) (a : Attrs) : option jsstring :=
  match a with
  | [] => None
  | (k, v) :: a' => if string_eqb k name then Some v else getAttr name a'
  end.

Definition getAttribute (name : jsstring) (n : Node) : option jsstring :=
  match n with
  | Element _ _ a _ _ => getAttr name a
  | Text _ => None
  end.

Definition node_id (n : Node) : option nat :=
  match n with Element i _ _ _ _ => Some i | Text _ => None end.

Definition children (n : Node) : list Node :=
  match n with Element _ _ _ _ kids => kids | Text _ => [] end.

Definition tag_is (t : jsstring) (n : Node) : bool :=
  match n with Element _ l _ _ _ => string_eqb l t | Text _ => false end.

Fixpoint textContent (n : Node) : jsstring :=
  match n with
  | Text d => d
  | Element _ _ _ _ kids => flat_map textContent kids
  end.

(** The inclusive element descendants of a node, in tree order. *)
Fixpoint elements (n : Node) : list Node :=
  match n with
  | Text _ => []
  | Element _ _ _ _ kids => n :: flat_map elements kids
  end.

Fixpoint ids (n : Node) : list nat :=
  match n with
  | Text _ => []
  | Element i _ _ _ kids => i :: flat_map ids kids
  end.

Definition has_id (x : nat) (n : Node) : bool :=
  match n with Element i _ _ _ _ => i =? x | Text _ => false end.

(** The element with identity [x] inside [n]. *)
Definition subtree (x : nat) (n : Node) : option Node :=
  find (has_id x) (elements n).

(** [e.contains(x)] for an element [e] that is not [x] itself. *)
Definition below (x : nat) (e : Node) : bool :=
  existsb (Nat.eqb x) (flat_map ids (children e)).

Definition ids_of (l : list Node) : list nat :=
  flat_map (fun n => match node_id n with Some i => [i] | None => [] end) l.

(** The [parentElement] chain of the element [x] inside [n]: the elements
    that have [x] below them, nearest first. *)
Definition ancestors (x : nat) (n : Node) : list nat :=
  rev (ids_of (filter (below x) (elements n))).

(** ** Selectors *)

Inductive Simple : Type :=
| STag (t : jsstring)               (* article *)
| SId (i : jsstring)                (* #main *)
| SClass (c : jsstring)             (* .content *)
| SAttr (a : jsstring)              (* [datetime] *)
| SAttrEq (a v : jsstring).         (* [role="main"] *)

(** A compound selector: all its parts hold of one element. *)
Definition Compound := list Simple.
(** A selector list: comma-separated alternatives. *)
Definition Selector := list Compound.

(** The white-space separated tokens of a [class] attribute. *)
Fixpoint tokens_go (cur : jsstring) (s : jsstring) : list jsstring :=
  match s with
  | [] => match cur with [] => [] | _ => [rev cur] end
  | c :: s' =>
      if one_of [9; 10; 12; 13; 32]%N c
      then match cur with
           | [] => tokens_go [] s'
           | _ => rev cur :: tokens_go [] s'
           end
      else tokens_go (c :: cur) s'
  end.
Definition tokens (s : jsstring) : list jsstring := tokens_go [] s.

Definition matches_simple (n : Node) (s : Simple) : bool :=
  match s with
  | STag t => tag_is t n
  | SId i =>
      match getAttribute (js "id") n with
      | Some v => string_eqb v i
      | None => false
      end
  | SClass c =>
      match getAttribute (js "class") n with
      | Some v => existsb (string_eqb c) (tokens v)
      | None => false
      end
  | SAttr a =>
      match getAttribute a n with Some _ => true | None => false end
  | SAttrEq a v =>
      match getAttribute a n with
      | Some v' => string_eqb v' v
      | None => false
      end
  end.

Definition matches (sel : Selector) (n : Node) : bool :=
  existsb (forallb (matches_simple n)) sel.

(** [element.querySelectorAll(sel)]: the matching proper descendants. *)
Definition querySelectorAll_in (sel : Selector) (n : Node) : list Node :=
  filter (matches sel) (flat_map elements (children n)).

(** [document.querySelectorAll(sel)] *)
Definition querySelectorAll (sel : Selector) (d : Document) : list Node :=
  match documentElement d with
  | Some r => filter (matches sel) (elements r)
  | None => []
  end.

(** [document.querySelector(sel)] *)
Definition querySelector (sel : Selector) (d : Document) : option Node :=
  hd_error (querySelectorAll sel d).

(** [document.body]: the first body or frameset child of the html element. *)
Definition body (d : Document) : option Node :=
  match documentElement d with
  | Some r =>
      if tag_is (js "html") r
      then find (fun k => tag_is (js "body") k || tag_is (js "frameset") k) (children r)
      else None
  | None => None
  end.

(** ** Mutation *)

(** The tree without the element [x] (and what is below it). *)
Fixpoint prune (x : nat) (n : Node) : option Node :=
  match n with
  | Text _ => Some n
  | Element i l a r kids =>
      if i =? x then None
      else Some (Element i l a r
                   (flat_map (fun k => match prune x k with
                                       | Some k' => [k']
                                       | None => []
                                       end) kids))
  end.

(** [el.remove()] as seen from the document: an element that is no longer
    in the document leaves it unchanged. *)
Definition remove (x : nat) (d : Document) : Document :=
  {| documentElement :=
       match documentElement d with
       | Some r => prune x r
       | None => None
       end;
     hostname := hostname d |}.

(** [Object.defineProperty(el, 'rows', { value: v, enumerable: true })] *)
Fixpoint defineRows (x : nat) (v : list nat) (n : Node) : Node :=
  match n with
  | Text _ => n
  | Element i l a r kids =>
      Element i l a (if i =? x then Some v else r) (map (defineRows x v) kids)
  end.

(** [c.contains(e)] for two elements, read in the current document. *)
Definition contains (d : Document) (c e : nat) : bool :=
  match documentElement d with
  | Some r =>
      match subtree c r with
      | Some sub => existsb (Nat.eqb e) (ids sub)
      | None => false
      end
  | None => false
  end.

(** The element [x] of the current document. *)
Definition element_of (d : Document) (x : nat) : option Node :=
  match documentElement d with
  | Some r => subtree x r
  | None => None
  end.

(** [el.innerHTML]: the markup of the children; identities and own
    properties of the objects are not part of it. *)
Fixpoint outer (n : Node) : Markup :=
  match n with
  | Text d => MText d
  | Element _ l a _ kids => MElem l a (map outer kids)
  end.

Definition innerHTML (n : Node) : list Markup := map outer (children n).

(** A [Set] of elements, in insertion order. *)
Definition set_has (s : list nat) (x : nat) : bool := existsb (Nat.eqb x) s.
Definition set_add (s : list nat) (x : nat) : list nat :=
  if set_has s x then s else s ++ [x].

End Dom.
Export Dom.

(* ================================================================== *)
(** * The rule engine (Turndown) *)
(* ================================================================== *)

Module Turndown.

(** ** Nodes as the engine sees them

    A rule receives a node of the tree the engine parsed from its input:
    the markup of the node together with its place in that tree (its
    siblings and its ancestors). Element names are in lower case; the
    engine's comparisons with upper-case [nodeName]s are written on them. *)

Record Frame := {
  fr_name : jsstring;
  fr_attrs : Attrs;
  fr_left : list Markup;
  fr_right : list Markup
}.

Record TNode := {
  self : Markup;
  left : list Markup;        (* previous siblings, in document order *)
  right : list Markup;       (* next siblings *)
  above : list Frame         (* ancestors, nearest first *)
}.

Definition nodeName (x : Markup) : jsstring :=
  match x with MElem n _ _ => n | MText _ => js "#text" end.

Definition is_element (x : Markup) : bool :=
  match x with MElem _ _ _ => true | MText _ => false end.

Definition attrs_of (x : Markup) : Attrs :=
  match x with MElem _ a _ => a | MText _ => [] end.

Definition kids_of (x : Markup) : list Markup :=
  match x with MElem _ _ k => k | MText _ => [] end.

Definition name_is (t : jsstring) (x : Markup) : bool :=
  is_element x && string_eqb (nodeName x) t.

Definition attribute (a : jsstring) (n : TNode) : option jsstring :=
  getAttr a (attrs_of (self n)).

Definition frame_of (n : TNode) : Frame :=
  {| fr_name := nodeName (self n); fr_attrs := attrs_of (self n);
     fr_left := left n; fr_right := right n |}.

(** [node.parentNode]; [None] stands for the root element that the engine
    wraps around its input. *)
Definition parentNode (n : TNode) : option TNode :=
  match above n with
  | [] => None
  | f :: up =>
      Some {| self := MElem (fr_name f) (fr_attrs f) (left n ++ self n :: right n);
              left := fr_left f; right := fr_right f; above := up |}
  end.

Definition parent_is (t : jsstring) (n : TNode) : bool :=
  match above n with
  | f :: _ => string_eqb (fr_name f) t
  | [] => false
  end.

Definition previousSibling (n : TNode) : option Markup := last (map Some (left n)) None.
Definition nextSibling (n : TNode) : option Markup := hd_error (right n).
Definition firstChild (n : TNode) : option Markup := hd_error (kids_of (self n)).

(** The child at position [i], with its place. *)
Definition child_at (n : TNode) (i : nat) (k : Markup) : TNode :=
  {| self := k; left := firstn i (kids_of (self n));
     right := skipn (S i) (kids_of (self n));
     above := frame_of n :: above n |}.

Fixpoint mtext (x : Markup) : jsstring :=
  match x with
  | MText d => d
  | MElem _ _ kids => flat_map mtext kids
  end.

(** Inclusive element descendants, in tree order. *)
Fixpoint melements (x : Markup) : list Markup :=
  match x with
  | MText _ => []
  | MElem _ _ kids => x :: flat_map melements kids
  end.

Definition descendants (x : Markup) : list Markup := flat_map melements (kids_of x).

(** ** Element classes *)

Definition blockElements : list jsstring :=
  map js ["address"; "article"; "aside"; "audio"; "blockquote"; "body"; "canvas";
          "center"; "dd"; "dir"; "div"; "dl"; "dt"; "fieldset"; "figcaption";
          "figure"; "footer"; "form"; "frameset"; "h1"; "h2"; "h3"; "h4"; "h5";
          "h6"; "header"; "hgroup"; "hr"; "html"; "isindex"; "li"; "main"; "menu";
          "nav"; "noframes"; "noscript"; "ol"; "output"; "p"; "pre"; "section";
          "table"; "tbody"; "td"; "tfoot"; "th"; "thead"; "tr"; "ul"]%string.

Definition voidElements : list jsstring :=
  map js ["area"; "base"; "br"; "col"; "command"; "embed"; "hr"; "img"; "input";
          "keygen"; "link"; "meta"; "param"; "source"; "track"; "wbr"]%string.

Definition meaningfulWhenBlankElements : list jsstring :=
  map js ["a"; "table"; "thead"; "tbody"; "tfoot"; "th"; "td"; "iframe"; "script";
          "audio"; "video"]%string.

Definition is_ (names : list jsstring) (x : Markup) : bool :=
  is_element x && existsb (string_eqb (nodeName x)) names.

Definition has_ (names : list jsstring) (x : Markup) : bool :=
  existsb (is_ names) (descendants x).

Definition isBlock := is_ blockElements.
Definition isVoid := is_ voidElements.

Definition isBlank (x : Markup) : bool :=
  negb (isVoid x) &&
  negb (is_ meaningfulWhenBlankElements x) &&
  forallb isSpace (mtext x) &&
  negb (has_ voidElements x) &&
  negb (has_ meaningfulWhenBlankElements x).

(** [node.isCode]: the node or one of its ancestors is a [code] element. *)
Definition isCode (n : TNode) : bool :=
  name_is (js "code") (self n) ||
  existsb (fun f => string_eqb (fr_name f) (js "code")) (above n).

(** ** White space at the edges of inline elements *)

Definition ascii_ws : regex := Chr (one_of [32; 9; 13; 10]%N).

(** The pattern of [edgeWhitespace]: from the start, group 1 = (group 2:
    ASCII white space, greedy)(group 3: white space, greedy); optionally a
    stretch that starts and ends with a non-space; group 4 = (group 5:
    white space, lazy)(group 6: ASCII white space, greedy); to the end. *)
Definition edge_re : regex :=
  seqs [ Bol false;
         Grp 1 (Seq (Grp 2 (star ascii_ws)) (Grp 3 (star ws)));
         Rep true 0 (Some 1) (seqs [Look true non_ws; star any; non_ws]);
         Grp 4 (Seq (Grp 5 (lazy_star ws)) (Grp 6 (star ascii_ws)));
         Eol false ].

Definition ends_with_space (s : jsstring) : bool :=
  match rev s with c :: _ => (c =? SP)%N | [] => false end.
Definition starts_with_space (s : jsstring) : bool :=
  match s with c :: _ => (c =? SP)%N | [] => false end.

Definition isFlankedByWhitespace (side_left : bool) (n : TNode) : bool :=
  let sibling := if side_left then previousSibling n else nextSibling n in
  let probe := if side_left then ends_with_space else starts_with_space in
  match sibling with
  | None => false
  | Some (MText d) => probe d
  | Some (MElem nm a k) =>
      if string_eqb nm (js "code") then false   (* preformattedCode is set *)
      else if negb (isBlock (MElem nm a k)) then probe (mtext (MElem nm a k))
      else false
  end.

Definition flankingWhitespace (n : TNode) : jsstring * jsstring :=
  if isBlock (self n) || isCode n then ([], [])
  else
    match search edge_re (mtext (self n)) with
    | None => ([], [])
    | Some mt =>
        let g i := group i (groups mt) in
        let leading :=
          if truthy (g 2) && isFlankedByWhitespace true n then g 3 else g 1 in
        let trailing :=
          if truthy (g 6) && isFlankedByWhitespace false n then g 5 else g 4 in
        (leading, trailing)
    end.

(** ** Escaping of text *)

Definition bs : jsstring := [92%N].

(** The thirteen substitutions of [TurndownService.prototype.escape], in
    order; every pattern carries the [g] flag and none the [m] flag. *)
Definition escapes : list (regex * (rmatch -> jsstring)) :=
  [ (chr 92, fun _ => bs ++ bs);
    (chr 42, fun _ => bs ++ js "*");
    (Seq (Bol false) (chr 45), fun _ => bs ++ js "-");
    (seqs [Bol false; chr 43; chr SP], fun _ => bs ++ js "+ ");
    (Seq (Bol false) (Grp 1 (plus (chr 61))),
       fun mt => bs ++ group 1 (groups mt));
    (seqs [Bol false; Grp 1 (Rep true 1 (Some 6) (chr 35)); chr SP],
       fun mt => bs ++ group 1 (groups mt) ++ js " ");
    (chr 96, fun _ => bs ++ js "`");
    (Seq (Bol false) (lit false (js "~~~")), fun _ => bs ++ js "~~~");
    (chr 91, fun _ => bs ++ js "[");
    (chr 93, fun _ => bs ++ js "]");
    (Seq (Bol false) (chr 62), fun _ => bs ++ js ">");
    (chr 95, fun _ => bs ++ js "_");
    (seqs [Bol false; Grp 1 (plus (Chr isDigit)); chr 46; chr SP],
       fun mt => group 1 (groups mt) ++ bs ++ js ". ") ].

Definition escape (s : jsstring) : jsstring :=
  fold_left (fun acc e => replace_all (fst e) (snd e) acc) escapes s.

(** ** Joining the pieces of output *)

Fixpoint trimLeadingNewlines (s : jsstring) : jsstring :=
  match s with
  | c :: s' => if (c =? LF)%N then trimLeadingNewlines s' else s
  | [] => []
  end.

Definition trimTrailingNewlines (s : jsstring) : jsstring :=
  rev (trimLeadingNewlines (rev s)).

(** [join(output, replacement)]: at most two line breaks between them. *)
Definition join2 (output replacement : jsstring) : jsstring :=
  let s1 := trimTrailingNewlines output in
  let s2 := trimLeadingNewlines replacement in
  let nls := Nat.max (length output - length s1) (length replacement - length s2) in
  s1 ++ firstn nls [LF; LF] ++ s2.

(** ** Serialisation of a kept element ([node.outerHTML]) *)

Definition serial_void : list jsstring :=
  map js ["area"; "base"; "basefont"; "bgsound"; "br"; "col"; "embed"; "frame";
          "hr"; "img"; "input"; "keygen"; "link"; "meta"; "param"; "source";
          "track"; "wbr"]%string.

Definition raw_text_parents : list jsstring :=
  map js ["style"; "script"; "xmp"; "iframe"; "noembed"; "noframes"; "plaintext"]%string.

Definition escape_html (in_attr : bool) (s : jsstring) : jsstring :=
  flat_map (fun c =>
              if (c =? 38)%N then js "&amp;"
              else if (c =? 160)%N then js "&nbsp;"
              else if in_attr && (c =? 34)%N then js "&quot;"
              else if negb in_attr && (c =? 60)%N then js "&lt;"
              else if negb in_attr && (c =? 62)%N then js "&gt;"
              else [c]) s.

Fixpoint serialize (raw : bool) (x : Markup) : jsstring :=
  match x with
  | MText d => if raw then d else escape_html false d
  | MElem n a kids =>
      js "<" ++ n ++
      flat_map (fun kv => js " " ++ fst kv ++ js "=" ++ [34%N] ++
                          escape_html true (snd kv) ++ [34%N]) a ++
      js ">" ++
      (if existsb (string_eqb n) serial_void then []
       else flat_map (serialize (existsb (string_eqb n) raw_text_parents)) kids ++
            js "</" ++ n ++ js ">")
  end.

Definition outerHTML (x : Markup) : jsstring := serialize false x.

(** ** Rules *)

Inductive Filter : Type :=
| FTag (t : jsstring)
| FTags (ts : list jsstring)
| FFun (f : TNode -> Result bool).

(** A rule; [key] is the name it was registered under (the engine itself
    keeps rules by position only). *)
Record Rule := {
  key : jsstring;
  filter : Filter;
  replacement : jsstring -> TNode -> Result jsstring;
  append : option jsstring
}.

Record Rules := {
  array : list Rule;
  _keep : list Rule;
  _remove : list Rule
}.

Definition wrap_block (n : TNode) (s : jsstring) : jsstring :=
  if isBlock (self n) then [LF; LF] ++ s ++ [LF; LF] else s.

Definition blankRule : Rule :=
  {| key := js "blank"; filter := FFun (fun _ => Ok true);
     replacement := fun _ n => Ok (if isBlock (self n) then [LF; LF] else []);
     append := None |}.

Definition keepReplacement (content : jsstring) (n : TNode) : Result jsstring :=
  Ok (wrap_block n (outerHTML (self n))).

Definition defaultRule : Rule :=
  {| key := js "default"; filter := FFun (fun _ => Ok true);
     replacement := fun content n => Ok (wrap_block n content);
     append := None |}.

Definition removeRule (f : Filter) : Rule :=
  {| key := js "remove"; filter := f; replacement := fun _ _ => Ok []; append := None |}.

Definition keepRule (f : Filter) : Rule :=
  {| key := js "keep"; filter := f; replacement := keepReplacement; append := None |}.

(** [Rules.prototype.add]: the newest rule goes to the front. *)
Definition add (r : Rule) (rs : Rules) : Rules :=
  {| array := r :: array rs; _keep := _keep rs; _remove := _remove rs |}.

(** [Rules.prototype.keep] *)
Definition keep (f : Filter) (rs : Rules) : Rules :=
  {| array := array rs; _keep := keepRule f :: _keep rs; _remove := _remove rs |}.

Definition filterValue (r : Rule) (n : TNode) : Result bool :=
  match filter r with
  | FTag t => Ok (string_eqb t (nodeName (self n)))
  | FTags ts => Ok (existsb (string_eqb (nodeName (self n))) ts)
  | FFun f => f n
  end.

Fixpoint findRule (rs : list Rule) (n : TNode) : Result (option Rule) :=
  match rs with
  | [] => Ok None
  | r :: rs' =>
      b <- filterValue r n ;;
      if b then Ok (Some r) else findRule rs' n
  end.

(** [Rules.prototype.forNode] *)
Definition forNode (rs : Rules) (n : TNode) : Result Rule :=
  if isBlank (self n) then Ok blankRule
  else
    a <- findRule (array rs) n ;;
    match a with
    | Some r => Ok r
    | None =>
        k <- findRule (_keep rs) n ;;
        match k with
        | Some r => Ok r
        | None =>
            d <- findRule (_remove rs) n ;;
            match d with
            | Some r => Ok r
            | None => Ok defaultRule
            end
        end
    end.

(** ** The traversal *)

(** [replacementForNode] for the node [x] with the given place; text nodes
    are escaped unless they stand inside code. The inner loop is [process]
    over the children of [x]. *)
Fixpoint replacementFor (rs : Rules) (up : list Frame) (l r : list Markup)
    (x : Markup) {struct x} : Result jsstring :=
  let n := {| self := x; left := l; right := r; above := up |} in
  match x with
  | MText d => Ok (if isCode n then d else escape d)
  | MElem _ _ kids =>
      rule <- forNode rs n ;;
      content <-
        (fix process (done todo : list Markup) (output : jsstring) : Result jsstring :=
           match todo with
           | [] => Ok output
           | k :: todo' =>
               piece <- replacementFor rs (frame_of n :: up) done todo' k ;;
               process (done ++ [k]) todo' (join2 output piece)
           end) [] kids [] ;;
      let ws := flankingWhitespace n in
      let content :=
        if truthy (fst ws) || truthy (snd ws) then trim content else content in
      out <- replacement rule content n ;;
      Ok (fst ws ++ out ++ snd ws)
  end.

(** [process] over the children of the root. *)
Fixpoint process_root (rs : Rules) (done todo : list Markup) (output : jsstring)
    : Result jsstring :=
  match todo with
  | [] => Ok output
  | k :: todo' =>
      piece <- replacementFor rs [] done todo' k ;;
      process_root rs (done ++ [k]) todo' (join2 output piece)
  end.

(** [postProcess]: the rules' appendices, then the final trimming
    [/^[\t\r\n]+/] and [/[\t\r\n\s]+$/]. *)
Definition postProcess (rs : Rules) (output : jsstring) : jsstring :=
  let output :=
    fold_left (fun out r => match append r with
                            | Some a => join2 out a
                            | None => out
                            end) (array rs) output in
  let output := replace_first (Seq (Bol false) (plus (Chr (one_of [9; 13; 10]%N))))
                              (fun _ => []) output in
  replace_first (Seq (plus ws) (Eol false)) (fun _ => []) output.

(** [TurndownService.prototype.turndown] on the markup [input]; [root]
    is the engine's construction of its root node (parsing and collapsing
    of white space). *)
Definition turndown (root : list Markup -> list Markup) (rs : Rules)
    (input : list Markup) : Result jsstring :=
  match input with
  | [] => Ok []
  | _ =>
      output <- process_root rs [] (root input) [] ;;
      Ok (postProcess rs output)
  end.

End Turndown.
Export Turndown.

(* ================================================================== *)
(** * Built-in rules of the engine and the GFM plug-in *)
(* ================================================================== *)

Module CommonMark.

Definition rule (k : string) (f : Filter)
    (rep : jsstring -> TNode -> Result jsstring) : Rule :=
  {| key := js k; filter := f; replacement := rep; append := None |}.

(** The engine's own [cleanAttribute]: runs of line breaks followed by
    white space become one line break. *)
Definition cleanAttribute (a : option jsstring) : jsstring :=
  match a with
  | Some (c :: s) =>
      replace_all (plus (Seq (plus (chr LF)) (star ws))) (fun _ => [LF]) (c :: s)
  | _ => []
  end.

Definition paragraph : Rule :=
  rule "paragraph" (FTag (js "p"))
       (fun content _ => Ok ([LF; LF] ++ content ++ [LF; LF])).

Definition lineBreak : Rule :=
  rule "lineBreak" (FTag (js "br")) (fun _ _ => Ok (js "  " ++ [LF])).

(** Headings, with the default [headingStyle: 'setext']. *)
Definition heading : Rule :=
  rule "heading" (FTags (map js ["h1"; "h2"; "h3"; "h4"; "h5"; "h6"]%string))
       (fun content n =>
          let hLevel :=
            match nodeName (self n) with
            | [_; d] => N.to_nat (d - 48)
            | _ => 0
            end in
          if hLevel <? 3 then
            let underline :=
              repeat_str (if hLevel =? 1 then js "=" else js "-") (length content) in
            Ok ([LF; LF] ++ content ++ [LF] ++ underline ++ [LF; LF])
          else
            Ok ([LF; LF] ++ repeat_str (js "#") hLevel ++ js " " ++ content ++ [LF; LF])).

Definition blockquote : Rule :=
  rule "blockquote" (FTag (js "blockquote"))
       (fun content _ =>
          let content :=
            replace_all (Alt (Seq (Bol false) (plus (chr LF)))
                             (Seq (plus (chr LF)) (Eol false)))
                        (fun _ => []) content in
          let content := replace_all (Bol true) (fun _ => js "> ") content in
          Ok ([LF; LF] ++ content ++ [LF; LF])).

Definition listRule : Rule :=
  rule "list" (FTags [js "ul"; js "ol"])
       (fun content n =>
          if parent_is (js "li") n && negb (existsb is_element (right n))
          then Ok ([LF] ++ content)
          else Ok ([LF; LF] ++ content ++ [LF; LF])).

Definition horizontalRule : Rule :=
  rule "horizontalRule" (FTag (js "hr"))
       (fun _ _ => Ok ([LF; LF] ++ js "* * *" ++ [LF; LF])).

Definition emphasis : Rule :=
  rule "emphasis" (FTags [js "em"; js "i"])
       (fun content _ =>
          if truthy (trim content) then Ok (js "_" ++ content ++ js "_") else Ok []).

Definition strong : Rule :=
  rule "strong" (FTags [js "strong"; js "b"])
       (fun content _ =>
          if truthy (trim content) then Ok (js "**" ++ content ++ js "**") else Ok []).

Definition image : Rule :=
  rule "image" (FTag (js "img"))
       (fun _ n =>
          let alt := cleanAttribute (attribute (js "alt") n) in
          let src := or_else (attribute (js "src") n) [] in
          let title := cleanAttribute (attribute (js "title") n) in
          let titlePart :=
            if truthy title then js " " ++ [34%N] ++ title ++ [34%N] else [] in
          if truthy src
          then Ok (js "![" ++ alt ++ js "](" ++ src ++ titlePart ++ js ")")
          else Ok []).

(** The built-in rules that the statements of this development exercise,
    in the order of the engine's table. (The engine's table also holds
    rules for list items, code and links; no statement below depends on
    them, and the general theorems hold for every built-in table.) *)
Definition commonmarkRules : list Rule :=
  [paragraph; lineBreak; heading; blockquote; listRule; horizontalRule;
   emphasis; strong; image].

End CommonMark.

Module Gfm.
Import CommonMark.

(** The first inclusive descendant named [t], with its place. *)
Fixpoint find_named (t : jsstring) (up : list Frame) (l r : list Markup)
    (x : Markup) {struct x} : option TNode :=
  let n := {| self := x; left := l; right := r; above := up |} in
  match x with
  | MText _ => None
  | MElem nm _ kids =>
      if string_eqb nm t then Some n
      else (fix scan (done todo : list Markup) : option TNode :=
              match todo with
              | [] => None
              | k :: todo' =>
                  match find_named t (frame_of n :: up) done todo' k with
                  | Some found => Some found
                  | None => scan (done ++ [k]) todo'
                  end
              end) [] kids
  end.

(** [table.rows[0]]: the first [tr] below the table. *)
Fixpoint first_row_from (n : TNode) (done todo : list Markup) : option TNode :=
  match todo with
  | [] => None
  | k :: todo' =>
      match find_named (js "tr") (frame_of n :: above n) done todo' k with
      | Some found => Some found
      | None => first_row_from n (done ++ [k]) todo'
      end
  end.

Definition rows0 (n : TNode) : option TNode :=
  first_row_from n [] (kids_of (self n)).

Definition isFirstTbody (element : TNode) : bool :=
  name_is (js "tbody") (self element) &&
  match previousSibling element with
  | None => true
  | Some p => name_is (js "thead") p && forallb isSpace (mtext p)
  end.

Definition isHeadingRow (tr : TNode) : bool :=
  parent_is (js "thead") tr ||
  (match left tr with [] => true | _ => false end &&
   (parent_is (js "table") tr ||
    match parentNode tr with
    | Some p => isFirstTbody p
    | None => false
    end) &&
   forallb (name_is (js "th")) (kids_of (self tr))).

Definition undefined_parentNode : Thrown :=
  TypeError (js "Cannot read properties of undefined (reading 'parentNode')").

(** [isHeadingRow(node.rows[0])] *)
Definition firstRowIsHeading (n : TNode) : Result bool :=
  match rows0 n with
  | Some tr => Ok (isHeadingRow tr)
  | None => Throw undefined_parentNode
  end.

Definition cell (content : jsstring) (n : TNode) : jsstring :=
  (match left n with [] => js "| " | _ => js " " end) ++ content ++ js " |".

Definition tableCell : Rule :=
  rule "tableCell" (FTags [js "th"; js "td"]) (fun content n => Ok (cell content n)).

Definition lower (s : jsstring) : jsstring :=
  map (fun c => if isUpper c then (c + 32)%N else c) s.

Definition border_of (k : Markup) : jsstring :=
  let align := lower (or_else (getAttr (js "align") (attrs_of k)) []) in
  if string_eqb align (js "left") then js ":--"
  else if string_eqb align (js "right") then js "--:"
  else if string_eqb align (js "center") then js ":-:"
  else js "---".

(** The cells of the separator line below a heading row; a text node among
    the children has no [getAttribute]. *)
Fixpoint borderCells (n : TNode) (i : nat) (todo : list Markup) : Result jsstring :=
  match todo with
  | [] => Ok []
  | k :: todo' =>
      if is_element k then
        rest <- borderCells n (S i) todo' ;;
        Ok (cell (border_of k) (child_at n i k) ++ rest)
      else Throw (TypeError (js "node.childNodes[i].getAttribute is not a function"))
  end.

Definition tableRow : Rule :=
  rule "tableRow" (FTag (js "tr"))
       (fun content n =>
          border <- (if isHeadingRow n then borderCells n 0 (kids_of (self n))
                     else Ok []) ;;
          Ok ([LF] ++ content ++ (if truthy border then [LF] ++ border else []))).

(** Only tables with a heading row are converted. *)
Definition table : Rule :=
  rule "table"
       (FFun (fun n => if name_is (js "table") (self n)
                       then firstRowIsHeading n else Ok false))
       (fun content _ =>
          let content := replace_first (lit false [LF; LF]) (fun _ => [LF]) content in
          Ok ([LF; LF] ++ content ++ [LF; LF])).

Definition tableSection : Rule :=
  rule "tableSection" (FTags [js "thead"; js "tbody"; js "tfoot"])
       (fun content _ => Ok content).

(** Tables without a heading row are kept as markup. *)
Definition keepHeadless : Filter :=
  FFun (fun n => if name_is (js "table") (self n)
                 then b <- firstRowIsHeading n ;; Ok (negb b)
                 else Ok false).

Definition tables (rs : Rules) : Rules :=
  add tableSection (add table (add tableRow (add tableCell (keep keepHeadless rs)))).

Definition strikethroughRule : Rule :=
  rule "strikethrough" (FTags [js "del"; js "s"; js "strike"])
       (fun content _ => Ok (js "~" ++ content ++ js "~")).

Definition strikethrough (rs : Rules) : Rules := add strikethroughRule rs.

Definition taskListItemsRule : Rule :=
  rule "taskListItems"
       (FFun (fun n =>
                Ok (name_is (js "input") (self n) &&
                    string_eqb (lower (or_else (attribute (js "type") n) []))
                               (js "checkbox") &&
                    parent_is (js "li") n)))
       (fun _ n =>
          Ok ((match attribute (js "checked") n with
               | Some _ => js "[x]"
               | None => js "[ ]"
               end) ++ js " ")).

Definition taskListItems (rs : Rules) : Rules := add taskListItemsRule rs.

(** [/highlight-(?:text|source)-([a-z0-9]+)/] *)
Definition highlight_re : regex :=
  seqs [ lit false (js "highlight-");
         Alt (lit false (js "text")) (lit false (js "source"));
         chr 45;
         Grp 1 (plus (Chr (fun c => isLower c || isDigit c))) ].

Definition highlightedCodeBlockRule : Rule :=
  rule "highlightedCodeBlock"
       (FFun (fun n =>
                Ok (name_is (js "div") (self n) &&
                    test highlight_re (or_else (attribute (js "class") n) []) &&
                    match firstChild n with
                    | Some k => name_is (js "pre") k
                    | None => false
                    end)))
       (fun _ n =>
          let className := or_else (attribute (js "class") n) [] in
          let language :=
            match search highlight_re className with
            | Some mt => group 1 (groups mt)
            | None => []
            end in
          let code := match firstChild n with Some k => mtext k | None => [] end in
          Ok ([LF; LF] ++ js "```" ++ language ++ [LF] ++ code ++ [LF] ++
              js "```" ++ [LF; LF])).

Definition highlightedCodeBlock (rs : Rules) : Rules := add highlightedCodeBlockRule rs.

(** [gfm]: the four plug-ins in the plug-in's order. *)
Definition gfm (rs : Rules) : Rules :=
  taskListItems (tables (strikethrough (highlightedCodeBlock rs))).

End Gfm.

(* ================================================================== *)
(** * The converter (src/WebToMarkdownConverter.ts) *)
(* ================================================================== *)

Module Converter.
Import CommonMark Gfm.

Inductive RetainImages : Type := RetainNone | RetainAlt | RetainAltP | RetainAll.

(** [noGfm?: boolean | 'table'] *)
Inductive NoGfm : Type := NoGfmBool (b : bool) | NoGfmTable.

(** [WebToMarkdownOptions]; every field is optional. [customRules] lists
    the entries of the object in the order of [Object.entries]. *)
Record WebToMarkdownOptions := {
  retainImages : option RetainImages;
  noGfm : option NoGfm;
  imgDataUrlToObjectUrl : option bool;
  customRules : option (list (jsstring * Rule));
  customKeep : option Filter
}.

Inductive FetchOutcome : Type :=
| Resolved (data : jsstring)
| Rejected (e : Thrown).

(** The collaborators of the converter: the HTML and URL parsers of the
    DOM library, [Date], the MD5 digest, the global [HTMLElement] if the
    host defines one, the engine's built-in rule table and its
    construction of the root node, and the HTTP client. *)
Record Env := {
  parseHTML : jsstring -> Markup;
  parseURL : jsstring -> option jsstring;    (* the host name of an absolute URL *)
  dateToISO : jsstring -> option jsstring;   (* [new Date(s).toISOString()], valid dates *)
  md5hex : jsstring -> jsstring;
  srcProperty : option jsstring -> jsstring; (* [img.src] from the attribute *)
  HTMLElement : option (Markup -> bool);
  builtin : list Rule;
  rootNode : list Markup -> list Markup;
  axios_get : jsstring -> FetchOutcome
}.

(** ** Truthiness of option values *)

Definition opt {A} (options : option WebToMarkdownOptions)
    (f : WebToMarkdownOptions -> option A) : option A :=
  match options with Some o => f o | None => None end.

Definition noGfm_truthy (v : option NoGfm) : bool :=
  match v with
  | Some (NoGfmBool b) => b
  | Some NoGfmTable => true
  | None => false
  end.

Definition noGfm_is_table (v : option NoGfm) : bool :=
  match v with Some NoGfmTable => true | _ => false end.

Definition flag_truthy (v : option bool) : bool :=
  match v with Some b => b | None => false end.

Definition filter_truthy (f : Filter) : bool :=
  match f with FTag [] => false | _ => true end.

(** ** configureTurndownService *)

Definition cleanAttribute (attr : option jsstring) : jsstring :=
  match attr with
  | Some (c :: s) => replace_all spaces_re (fun _ => [SP]) (trim (c :: s))
  | _ => []
  end.

Definition removeIrrelevant : Rule :=
  rule "remove-irrelevant"
       (FTags (map js ["meta"; "style"; "script"; "noscript"; "link"; "textarea";
                       "select"]%string))
       (fun _ _ => Ok []).

Definition truncateSvg : Rule :=
  rule "truncate-svg" (FTag (js "svg")) (fun _ _ => Ok []).

Definition titleAsH1 : Rule :=
  rule "title-as-h1" (FTags [js "title"])
       (fun innerText _ => Ok (innerText ++ [LF] ++ js "===============" ++ [LF])).

Definition HTMLElement_undefined : Thrown :=
  ReferenceError (js "HTMLElement is not defined").

Definition dataUrlFilter (env : Env) (n : TNode) : Result bool :=
  match HTMLElement env with
  | None => Throw HTMLElement_undefined
  | Some instanceOf =>
      if negb (instanceOf (self n)) then Ok false
      else Ok (name_is (js "img") (self n) &&
               match attribute (js "src") n with
               | Some src => startsWith (js "data:") src
               | None => false
               end)
  end.

Definition dataUrlReplacement (env : Env) (content : jsstring) (n : TNode)
    : Result jsstring :=
  let src := srcProperty env (attribute (js "src") n) in
  let alt := cleanAttribute (Some (or_else (attribute (js "alt") n) [])) in
  let hash := md5hex env src in
  Ok (js "![" ++ alt ++ js "](blob:" ++ hash ++ js ")").

Definition dataUrlRule (env : Env) : Rule :=
  {| key := js "data-url-to-pseudo-object-url";
     filter := FFun (dataUrlFilter env);
     replacement := dataUrlReplacement env;
     append := None |}.

Definition improvedParagraph : Rule :=
  rule "improved-paragraph" (FTag (js "p"))
       (fun innerText _ =>
          let trimmed := trim innerText in
          if negb (truthy trimmed) then Ok []
          else Ok (replace_all blank_lines_re (fun _ => [LF; LF]) trimmed ++ [LF; LF])).

(** [turndownService.addRule(k, v)] *)
Definition addRule (k : jsstring) (v : Rule) (rs : Rules) : Rules :=
  add {| key := k; filter := filter v; replacement := replacement v;
         append := append v |} rs.

Definition addCustomRules (l : list (jsstring * Rule)) (rs : Rules) : Rules :=
  fold_left (fun rs kv => addRule (fst kv) (snd kv) rs) l rs.

Definition configureTurndownService (env : Env)
    (options : option WebToMarkdownOptions) (rs : Rules) : Rules :=
  let rs :=
    match opt options customKeep with
    | Some f => if filter_truthy f then keep f rs else rs
    | None => rs
    end in
  (* Add base rules *)
  let rs := add removeIrrelevant rs in
  let rs := add truncateSvg rs in
  let rs := add titleAsH1 rs in
  (* Handle data URLs for images if needed *)
  let rs :=
    if flag_truthy (opt options imgDataUrlToObjectUrl)
    then add (dataUrlRule env) rs else rs in
  (* Add custom rules if provided *)
  let rs :=
    match opt options customRules with
    | Some l => addCustomRules l rs
    | None => rs
    end in
  (* Improved paragraph handling *)
  let rs := add improvedParagraph rs in
  (* Add GFM support unless disabled *)
  if negb (noGfm_truthy (opt options noGfm)) then
    if noGfm_is_table (opt options noGfm)
    then taskListItems (strikethrough rs)
    else gfm rs
  else rs.

(** The constructor: a fresh engine with its built-in rules, configured. *)
Definition newConverter (env : Env) (options : option WebToMarkdownOptions) : Rules :=
  configureTurndownService env options
    {| array := builtin env; _keep := []; _remove := [] |}.

(** ** cleanHTML *)

(** An element with its content, flags [gi]: the opening ["<tag"] at a
    word boundary, then text without ["<"], then any number of ["<"]s that
    do not start the closing tag, each followed by text without ["<"],
    and the closing tag. *)
Definition element_re (tag : string) : regex :=
  seqs [ lit true (js "<" ++ js tag); WordB; star (none_of [60]%N);
         star (seqs [ Look false (lit true (js "</" ++ js tag ++ js ">"));
                       chr 60; star (none_of [60]%N) ]);
         lit true (js "</" ++ js tag ++ js ">") ].

(** An HTML comment, closed at the first ["-->"]. *)
Definition comment_re : regex :=
  seqs [ lit false (js "<!--"); lazy_star any; lit false (js "-->") ].

Definition cleanHTML (html : jsstring) : jsstring :=
  let html := replace_all (element_re "script") (fun _ => []) html in
  let html := replace_all (element_re "style") (fun _ => []) html in
  let html := replace_all comment_re (fun _ => []) html in
  trim html.

(** ** Selector lists *)

Definition tagSel (t : string) : Selector := [[STag (js t)]].
Definition idSel (i : string) : Selector := [[SId (js i)]].
Definition classSel (c : string) : Selector := [[SClass (js c)]].
Definition roleSel (r : string) : Selector := [[SAttrEq (js "role") (js r)]].

Definition contentSelectors : list Selector :=
  [ tagSel "article"; roleSel "main"; tagSel "main"; idSel "main-content";
    classSel "main-content"; idSel "content"; classSel "content"; idSel "main";
    classSel "main"; classSel "post-content"; classSel "article-content" ].

Definition selectorsToRemove : list Selector :=
  [ tagSel "nav"; tagSel "header"; tagSel "footer"; idSel "header"; idSel "footer";
    classSel "header"; classSel "footer"; classSel "navigation"; classSel "nav";
    classSel "sidebar"; classSel "menu"; classSel "comments";
    classSel "advertisement"; classSel "ads"; classSel "social-share";
    classSel "related-posts"; roleSel "navigation"; roleSel "complementary";
    roleSel "banner"; roleSel "contentinfo" ].

Definition wikipediaChrome : Selector :=
  [ [SClass (js "navbox")]; [SClass (js "vertical-navbox")]; [SClass (js "sidebar")];
    [SClass (js "mw-editsection")]; [SClass (js "mw-empty-elt")] ].

Definition timeSelectors : list Selector :=
  [ [[STag (js "meta"); SAttrEq (js "property") (js "article:published_time")]];
    [[STag (js "meta"); SAttrEq (js "property") (js "og:published_time")]];
    [[STag (js "meta"); SAttrEq (js "name") (js "published_time")]];
    [[STag (js "meta"); SAttrEq (js "name") (js "date")]];
    [[STag (js "meta"); SAttrEq (js "name") (js "article:published_time")]];
    [[STag (js "meta"); SAttrEq (js "itemprop") (js "datePublished")]];
    [[STag (js "time"); SAttr (js "datetime")]];
    [[STag (js "time"); SAttr (js "pubdate")]];
    [[SAttrEq (js "itemprop") (js "datePublished")]];
    classSel "published-date"; classSel "post-date"; classSel "article-date" ].

Definition isWikipedia (d : Document) : bool :=
  includes (js "wikipedia.org") (hostname d).

(** ** extractMainContent *)

(** Removes, one by one, the elements of a static list. *)
Definition removeEach (els : list nat) (d : Document) : Document :=
  fold_left (fun d el => remove el d) els d.

Definition firstMatch (d : Document) : option nat :=
  hd_error (flat_map (fun sel => match querySelector sel d with
                                 | Some el => ids_of [el]
                                 | None => []
                                 end) contentSelectors).

(** The document after the call and the identity of the chosen element
    ([None] when [document.body] is [null]). *)
Definition extractMainContent (d : Document) : Document * option nat :=
  let wiki :=
    if isWikipedia d then querySelector (idSel "mw-content-text") d else None in
  match wiki with
  | Some content =>
      (removeEach (ids_of (querySelectorAll_in wikipediaChrome content)) d,
       node_id content)
  | None =>
      match firstMatch d with
      | Some el => (d, Some el)
      | None => (d, match body d with Some b => node_id b | None => None end)
      end
  end.

(** ** cleanupDocument *)

(** The set of elements to preserve: every match of a content selector
    and all its parent elements. *)
Definition contentElements (d : Document) : list nat :=
  fold_left
    (fun set sel =>
       fold_left
         (fun set el =>
            fold_left set_add
              (match documentElement d with
               | Some r => ancestors el r
               | None => []
               end)
              (set_add set el))
         (ids_of (querySelectorAll sel d)) set)
    contentSelectors [].

Definition cleanupDocument (d : Document) : Document :=
  let contentElements := contentElements d in
  fold_left
    (fun d sel =>
       fold_left
         (fun d el =>
            if negb (set_has contentElements el) &&
               negb (existsb (fun content => contains d content el) contentElements)
            then remove el d
            else d)
         (ids_of (querySelectorAll sel d)) d)
    selectorsToRemove d.

(** ** extractPublishedTime *)

(** [/\d{1,2}\s+\w+\s+\d{4}/] *)
Definition revision_re : regex :=
  seqs [ Rep true 1 (Some 2) (Chr isDigit); plus ws; plus (Chr isWord); plus ws;
         Rep true 4 (Some 4) (Chr isDigit) ].

Definition first_truthy (l : list (option jsstring)) : option jsstring :=
  hd_error (flat_map (fun o => match o with
                               | Some (c :: s) => [c :: s]
                               | _ => []
                               end) l).

Definition timeOf (element : Node) : option jsstring :=
  first_truthy [ getAttribute (js "content") element;
                 getAttribute (js "datetime") element;
                 getAttribute (js "pubdate") element;
                 Some (textContent element) ].

Definition extractPublishedTime (env : Env) (d : Document) : option jsstring :=
  let wiki :=
    if isWikipedia d then
      match querySelector (idSel "footer-info-lastmod") d with
      | Some el =>
          match search revision_re (textContent el) with
          | Some mt =>
              if truthy (matched mt) then dateToISO env (matched mt) else None
          | None => None
          end
      | None => None
      end
    else None in
  match wiki with
  | Some iso => Some iso
  | None =>
      hd_error
        (flat_map
           (fun sel =>
              match querySelector sel d with
              | Some element =>
                  match timeOf element with
                  | Some time =>
                      match dateToISO env time with
                      | Some iso => [iso]
                      | None => []
                      end
                  | None => []
                  end
              | None => []
              end)
           timeSelectors)
  end.

(** ** htmlToMarkdown *)

(** The table loop: every table below the main content gets an own
    property [rows] listing its [tr] descendants. *)
Definition defineRowsIn (x : nat) (v : list nat) (d : Document) : Document :=
  {| documentElement := option_map (defineRows x v) (documentElement d);
     hostname := hostname d |}.

Definition attachRows (d : Document) (main : nat) : Document :=
  match element_of d main with
  | Some m =>
      fold_left
        (fun d table =>
           match element_of d table with
           | Some t => defineRowsIn table (ids_of (querySelectorAll_in (tagSel "tr") t)) d
           | None => d
           end)
        (ids_of (querySelectorAll_in (tagSel "table") m)) d
  | None => d
  end.

Definition titleOf (d : Document) : jsstring :=
  or_else (option_map textContent (querySelector (tagSel "title") d)) (js "Untitled").

(** The metadata header. *)
Definition header (title : jsstring) (url publishedTime : option jsstring) : jsstring :=
  join nl
    (List.filter truthy
       [ js "Title: " ++ title;
         match url with
         | Some (c :: u) => nl ++ js "URL Source: " ++ c :: u
         | _ => []
         end;
         match publishedTime with
         | Some (c :: t) => nl ++ js "Published Time: " ++ c :: t
         | _ => []
         end;
         nl ++ js "Markdown Content:" ]).

Definition null_querySelectorAll : Thrown :=
  TypeError (js "Cannot read properties of null (reading 'querySelectorAll')").

(** The body of [htmlToMarkdown] once the document is parsed. *)
Definition convertDocument (env : Env) (turndownService : Rules)
    (document : Document) (url : option jsstring) : Result jsstring :=
  let title := titleOf document in
  let publishedTime := extractPublishedTime env document in
  (* Clean up the document *)
  let document := cleanupDocument document in
  (* Extract main content *)
  let '(document, mainContent) := extractMainContent document in
  match mainContent with
  | None => Throw null_querySelectorAll
  | Some main =>
      (* Handle tables for turndown-gfm plugin *)
      let document := attachRows document main in
      match element_of document main with
      | None => Throw null_querySelectorAll
      | Some mainContent =>
          markdown <- turndown (rootNode env) turndownService (innerHTML mainContent) ;;
          Ok (header title url publishedTime ++ nl ++ markdown)
      end
  end.

(** [new JSDOM(html, { url })]: the elements of the new document are fresh
    objects, numbered from the allocation counter [w]. *)
Definition JSDOM (env : Env) (html : jsstring) (url : option jsstring) (w : nat)
    : Result Document * nat :=
  let location :=
    match url with
    | Some u =>
        match parseURL env u with
        | Some host => Ok host
        | None => Throw (TypeError (js "Invalid URL: " ++ u))
        end
    | None => Ok []                      (* about:blank *)
    end in
  match location with
  | Throw e => (Throw e, w)
  | Ok host =>
      let '(root, w') := label w (parseHTML env html) in
      (Ok {| documentElement := Some root; hostname := host |}, w')
  end.

Definition htmlToMarkdown (env : Env) (turndownService : Rules)
    (html : jsstring) (url : option jsstring) (w : nat) : Result jsstring * nat :=
  let cleanedHtml := cleanHTML html in
  let '(dom, w') := JSDOM env cleanedHtml url w in
  (document <- dom ;; convertDocument env turndownService document url, w').

(** ** urlToMarkdown *)

Definition urlToMarkdown (env : Env) (turndownService : Rules)
    (url : jsstring) (w : nat) : Result jsstring * nat :=
  let rethrow (error : Thrown) : Result jsstring :=
    match error with
    | ErrorObj _ message => Throw (ErrorObj (js "Error") (js "Failed to fetch URL: " ++ message))
    | NonError _ => Throw error
    end in
  match axios_get env url with
  | Rejected error => (rethrow error, w)
  | Resolved data =>
      match htmlToMarkdown env turndownService data (Some url) w with
      | (Ok markdown, w') => (Ok markdown, w')
      | (Throw error, w') => (rethrow error, w')
      end
  end.

End Converter.
Export Converter.

(* ================================================================== *)
(** * A concrete environment for the examples *)
(* ================================================================== *)

Module Examples.
Import CommonMark.

Definition el (t : string) (kids : list Markup) : Markup := MElem (js t) [] kids.
Definition txt (s : string) : Markup := MText (js s).

(** The tree the HTML parser builds around the given head and body. *)
Definition page (head body : list Markup) : Markup :=
  el "html" [el "head" head; el "body" body].

Definition title_html : jsstring :=
  js "<title>My Page</title><article><h1>Hi</h1><p>Hello world</p></article>".
Definition chrome_html : jsstring :=
  js "<nav>Menu</nav><article>Real content</article><footer>Legal</footer>".
Definition plain_chrome_html : jsstring :=
  js "<nav>Menu</nav><div>Real content</div><footer>Legal</footer>".
Definition td_table_html : jsstring :=
  js "<table><tr><td>a</td></tr></table>".
Definition th_table_html : jsstring :=
  js "<table><tr><th>a</th></tr></table>".
Definition image_html : jsstring :=
  js "<article><img src='a.png' alt='x'></article>".
Definition del_html : jsstring :=
  js "<article><del>gone</del></article>".
Definition paragraph_html : jsstring :=
  js "<article><p>Hello</p></article>".
Definition empty_table_html : jsstring :=
  js "<table></table>".

(** What the parser returns on the markup of the examples. *)
Definition parse_table : list (jsstring * Markup) :=
  [ (title_html,
     page [el "title" [txt "My Page"]]
          [el "article" [el "h1" [txt "Hi"]; el "p" [txt "Hello world"]]]);
    (chrome_html,
     page [] [el "nav" [txt "Menu"]; el "article" [txt "Real content"];
              el "footer" [txt "Legal"]]);
    (plain_chrome_html,
     page [] [el "nav" [txt "Menu"]; el "div" [txt "Real content"];
              el "footer" [txt "Legal"]]);
    (td_table_html,
     page [] [el "table" [el "tbody" [el "tr" [el "td" [txt "a"]]]]]);
    (th_table_html,
     page [] [el "table" [el "tbody" [el "tr" [el "th" [txt "a"]]]]]);
    (image_html,
     page [] [el "article" [MElem (js "img") [(js "src", js "a.png"); (js "alt", js "x")] []]]);
    (del_html, page [] [el "article" [el "del" [txt "gone"]]]);
    (paragraph_html, page [] [el "article" [el "p" [txt "Hello"]]]);
    (empty_table_html, page [] [el "table" []]) ].

Fixpoint lookup {A} (k : jsstring) (l : list (jsstring * A)) : option A :=
  match l with
  | [] => None
  | (k', v) :: l' => if string_eqb k k' then Some v else lookup k l'
  end.

Definition failing_url : jsstring := js "http://down.test/".
Definition odd_url : jsstring := js "http://odd.test/".
Definition good_url : jsstring := js "http://up.test/".

(** An environment as under Node.js: no global [HTMLElement]; the parser
    is given on the markup of the examples, whose text has no white space
    for the engine to collapse; no example carries a date or a data URL.
    The HTTP client fails with an [Error] on one address and with a
    thrown string on another. *)
Definition exampleEnv : Env := {|
  parseHTML := fun html =>
    match lookup html parse_table with
    | Some tree => tree
    | None => page [] []
    end;
  parseURL := fun u =>
    if string_eqb u failing_url then Some (js "down.test")
    else if string_eqb u odd_url then Some (js "odd.test")
    else if string_eqb u good_url then Some (js "up.test")
    else None;
  dateToISO := fun _ => None;
  md5hex := fun _ => [];
  srcProperty := fun a => or_else a [];
  HTMLElement := None;
  builtin := commonmarkRules;
  rootNode := fun nodes => nodes;
  axios_get := fun u =>
    if string_eqb u failing_url
    then Rejected (ErrorObj (js "AxiosError") (js "Network Error"))
    else if string_eqb u odd_url then Rejected (NonError (js "boom"))
    else Resolved title_html
|}.

Definition options (ri : option RetainImages) (g : option NoGfm)
    (rules : option (list (jsstring * Rule))) : option WebToMarkdownOptions :=
  Some {| retainImages := ri; noGfm := g; imgDataUrlToObjectUrl := None;
          customRules := rules; customKeep := None |}.

(** [new WebToMarkdownConverter(o).htmlToMarkdown(html)] in a fresh process. *)
Definition convert (o : option WebToMarkdownOptions) (html : jsstring) : Result jsstring :=
  fst (htmlToMarkdown exampleEnv (newConverter exampleEnv o) html None 0).

Definition head_only : jsstring :=
  js "Title: Untitled" ++ [LF; LF] ++ js "Markdown Content:" ++ [LF].

End Examples.

(* ================================================================== *)
(** * Vocabulary of the statements *)
(* ================================================================== *)

Module Vocabulary.
Import CommonMark Gfm Examples.

(** A whitespace-only line between two line breaks. *)
Definition blank_line_input : jsstring :=
  js "a" ++ nl ++ js " " ++ nl ++ js " " ++ nl ++ js "b".

(** A link whose text is only recognised once an inner link has been
    repaired. *)
Definition nested_link_input : jsstring :=
  js "[p  q [" ++ nl ++ js " t ](u)".

Definition wrapped (message : jsstring) : Thrown :=
  ErrorObj (js "Error") (js "Failed to fetch URL: " ++ message).

(** The optional header lines. *)
Definition field (label : string) (value : option jsstring) : jsstring :=
  match value with
  | Some (c :: v) => [LF; LF] ++ js label ++ c :: v
  | _ => []
  end.

(** A caller's rule as [addRule] stores it. *)
Definition keyed (kv : jsstring * Rule) : Rule :=
  {| key := fst kv; filter := filter (snd kv); replacement := replacement (snd kv);
     append := append (snd kv) |}.

(** The rules registered before the caller's rules, newest first. *)
Definition earlyRules (env : Env) (d : option bool) : list Rule :=
  (if flag_truthy d then [dataUrlRule env] else []) ++
  [titleAsH1; truncateSvg; removeIrrelevant].

Definition gfmRules : list Rule :=
  [taskListItemsRule; tableSection; table; tableRow; tableCell; strikethroughRule;
   highlightedCodeBlockRule].

(** The rules registered after the caller's rules, newest first. *)
Definition lateRules (g : option NoGfm) : list Rule :=
  (if noGfm_truthy g then [] else gfmRules) ++ [improvedParagraph].

Definition optionsOf ri g d rules k : option WebToMarkdownOptions :=
  Some {| retainImages := ri; noGfm := g; imgDataUrlToObjectUrl := d;
          customRules := rules; customKeep := k |}.



Definition top (x : Markup) : TNode :=
  {| self := x; left := []; right := []; above := [] |}.


Definition doc_ids (d : Document) : list nat :=
  match documentElement d with Some r => ids r | None => [] end.

Definition doc_elements (d : Document) : list Node :=
  match documentElement d with Some r => elements r | None => [] end.





Definition document_of (html : jsstring) : Document :=
  {| documentElement := Some (fst (label 0 (parseHTML exampleEnv html)));
     hostname := [] |}.


Definition chrome_document : Document := document_of chrome_html.

(** The image of [<article><img src='a.png' alt='x'></article>] as the
    engine sees it. *)
Definition plain_image : TNode :=
  top (MElem (js "img") [(js "src", js "a.png"); (js "alt", js "x")] []).

(** The rules consulted before the data-URL rule: the late rules and the
    caller's rules, newest first. *)
Definition beforeDataUrl (g : option NoGfm) (rules : option (list (jsstring * Rule)))
    : list Rule :=
  lateRules g ++ rev (map keyed (match rules with Some l => l | None => [] end)).


End Vocabulary.
Export Vocabulary.

(* ================================================================== *)
(** * The command line (src/cli.ts) *)
(* ================================================================== *)

Module Cli.

(** What [main] does to the outside world, in order: lines written with
    [console.error] and [console.log], a file written with [writeFile],
    and [process.exit]. *)
Inductive Event : Type :=
| ConsoleError (line : jsstring)
| ConsoleLog (line : jsstring)
| WriteFile (path content : jsstring)
| Exit (code : nat).

(** The file system as the command line sees it: [resolve(process.cwd(), f)]
    and [writeFile], which may fail with an error. *)
Record Host := {
  resolve : jsstring -> jsstring;
  writeFile : jsstring -> jsstring -> option Thrown
}.

(** The three variables of the argument loop; [None] is [undefined]. *)
Record Vars := {
  input : option jsstring;
  type : option jsstring;
  outputFile : option jsstring
}.

Definition defined_truthy (v : option jsstring) : bool :=
  match v with Some (_ :: _) => true | _ => false end.

(** The argument loop. A flag takes the next argument as its value,
    whatever it is; at the end of the list the value is [undefined]. *)
Fixpoint parseArgs (args : list jsstring) (v : Vars) : Vars :=
  match args with
  | [] => v
  | a :: rest =>
      if string_eqb a (js "-toFile") then
        match rest with
        | value :: rest' =>
            parseArgs rest' {| input := input v; type := type v; outputFile := Some value |}
        | [] => {| input := input v; type := type v; outputFile := None |}
        end
      else if string_eqb a (js "-type") then
        match rest with
        | value :: rest' =>
            parseArgs rest' {| input := input v; type := Some value;
                               outputFile := outputFile v |}
        | [] => {| input := input v; type := None; outputFile := outputFile v |}
        end
      else if negb (defined_truthy (input v)) then
        parseArgs rest {| input := Some a; type := type v; outputFile := outputFile v |}
      else parseArgs rest v
  end.

Definition usage : list jsstring :=
  [ js "Usage: web-to-markdown <input> [-type url|html] [-toFile output.md]";
    js "Examples:";
    js "  web-to-markdown https://example.com";
    js "  web-to-markdown " ++ [34%N] ++ js "<h1>Hello</h1>" ++ [34%N] ++ js " -type html";
    js "  web-to-markdown https://example.com -toFile output.md" ].

(** The [catch] block: the message of an [Error], or the string form of
    any other value (a thrown string is its own string form). *)
Definition report (error : Thrown) : list Event :=
  [ ConsoleError (js "Error: " ++
                  match error with
                  | ErrorObj _ message => message
                  | NonError value => value
                  end);
    Exit 1 ].

Definition initial : Vars :=
  {| input := None; type := Some (js "url"); outputFile := None |}.

Definition is_url (t : option jsstring) : bool :=
  match t with Some s => string_eqb s (js "url") | None => false end.

(** [main], on [process.argv], in a fresh process. *)
Definition main (env : Env) (host : Host) (argv : list jsstring) : list Event :=
  let args := skipn 2 argv in
  let v := parseArgs args initial in
  match input v with
  | Some (c :: i) =>
      let converter := newConverter env None in
      let result :=
        if is_url (type v)
        then fst (urlToMarkdown env converter (c :: i) 0)
        else fst (htmlToMarkdown env converter (c :: i) None 0) in
      match result with
      | Ok markdown =>
          match outputFile v with
          | Some (o :: f) =>
              let fullPath := resolve host (o :: f) in
              match writeFile host fullPath markdown with
              | None =>
                  [ WriteFile fullPath markdown;
                    ConsoleLog (js "Output saved to: " ++ fullPath) ]
              | Some error => report error
              end
          | _ => [ConsoleLog markdown]
          end
      | Throw error => report error
      end
  | _ => map ConsoleError usage ++ [Exit 1]
  end.

End Cli.

Module Samples.
Import CommonMark Gfm Examples.



(** An environment whose HTTP client delivers a page with an empty table. *)
Definition emptyTableEnv : Env := {|
  parseHTML := parseHTML exampleEnv;
  parseURL := parseURL exampleEnv;
  dateToISO := dateToISO exampleEnv;
  md5hex := md5hex exampleEnv;
  srcProperty := srcProperty exampleEnv;
  HTMLElement := HTMLElement exampleEnv;
  builtin := builtin exampleEnv;
  rootNode := rootNode exampleEnv;
  axios_get := fun _ => Resolved empty_table_html
|}.






(** The options with GFM switched off and nothing else set. *)
Definition plainOptions : option WebToMarkdownOptions :=
  optionsOf None (Some (NoGfmBool true)) None None None.

Definition fetched_output : jsstring :=
  js "Title: My Page" ++ [LF; LF] ++ js "URL Source: http://up.test/" ++ [LF; LF] ++
  js "Markdown Content:" ++ [LF] ++ js "Hi" ++ [LF] ++ js "==" ++ [LF; LF] ++
  js "Hello world".

End Samples.

Module CliVocabulary.
Import Cli Examples.

(** A command line as its author means it: positional arguments and flags
    with their values. *)
Inductive Arg : Type :=
| Positional (s : jsstring)
| ToFile (value : jsstring)
| TypeOf (value : jsstring).

Definition render_arg (a : Arg) : list jsstring :=
  match a with
  | Positional s => [s]
  | ToFile value => [js "-toFile"; value]
  | TypeOf value => [js "-type"; value]
  end.

(** The argument list that spells a command line. *)
Definition render (l : list Arg) : list jsstring := flat_map render_arg l.

Definition is_flag (s : jsstring) : bool :=
  string_eqb s (js "-toFile") || string_eqb s (js "-type").

Definition positionals (l : list Arg) : list jsstring :=
  flat_map (fun a => match a with Positional s => [s] | _ => [] end) l.

Definition files (l : list Arg) : list jsstring :=
  flat_map (fun a => match a with ToFile v => [v] | _ => [] end) l.

Definition types (l : list Arg) : list jsstring :=
  flat_map (fun a => match a with TypeOf v => [v] | _ => [] end) l.

(** No positional argument is spelled like a flag. *)
Definition well_formed (l : list Arg) : Prop :=
  forall s, In (Positional s) l -> is_flag s = false.

(** The value a repeated flag ends up with. *)
Definition last_of (values : list jsstring) (default : option jsstring) : option jsstring :=
  last (map Some values) default.

(** The conversion that [main] runs for an input and a type. *)
Definition conversion (env : Env) (t : option jsstring) (i : jsstring) : Result jsstring :=
  if is_url t
  then fst (urlToMarkdown env (newConverter env None) i 0)
  else fst (htmlToMarkdown env (newConverter env None) i None 0).

Definition sample_line : list Arg :=
  [ TypeOf (js "html"); Positional (js "<h1>Hi</h1>"); Positional (js "ignored");
    ToFile (js "a.md"); ToFile (js "-type") ].

Definition exampleHost : Host := {|
  resolve := fun f => js "/work/" ++ f;
  writeFile := fun _ _ => None
|}.

End CliVocabulary.

Module Notions.
Import CommonMark Gfm.

(** A rule that cannot throw: its filter and its replacement return on
    every node. *)
Definition total_rule (r : Rule) : Prop :=
  (forall n, exists b, filterValue r n = Ok b) /\
  (forall content n, exists out, replacement r content n = Ok out).

Definition total_rules (rs : Rules) : Prop :=
  Forall total_rule (array rs) /\ Forall total_rule (_keep rs) /\
  Forall total_rule (_remove rs).


End Notions.
Export Notions.

(* ================================================================== *)
(** * Facts about strings *)
(* ================================================================== *)

Module JSFacts.

Lemma string_eqb_eq a b : string_eqb a b = true <-> a = b.
Proof.
  revert b; induction a as [|x a IH]; intros [|y b]; simpl; split;
    try congruence; try discriminate.
  - intros H. apply andb_true_iff in H as [H1 H2].
    apply N.eqb_eq in H1. apply IH in H2. congruence.
  - intros H. inversion H; subst. apply andb_true_iff; split.
    + apply N.eqb_refl.
    + now apply IH.
Qed.

Lemma string_eqb_refl a : string_eqb a a = true.
Proof. now apply string_eqb_eq. Qed.

End JSFacts.

(* ================================================================== *)
(** * Properties of the matcher on the patterns of tidyMarkdown *)
(* ================================================================== *)

Module RegexFacts.

(** Length of the longest prefix of [s] inside the class [p]. *)
Fixpoint run (p : N -> bool) (s : jsstring) : nat :=
  match s with
  | c :: tl => if p c then S (run p tl) else 0
  | [] => 0
  end.

(** The state reached after passing over the first [n] code units. *)
Fixpoint advance (n : nat) (pv : option N) (s : jsstring) : option N * jsstring :=
  match n, s with
  | S n', c :: tl => advance n' (Some c) tl
  | _, _ => (pv, s)
  end.

Lemma run_le p s : run p s <= length s.
Proof. induction s as [|c tl IH]; simpl; [lia|]. destruct (p c); simpl; lia. Qed.

Lemma advance_rest_length n pv s :
  n <= length s -> length (snd (advance n pv s)) = length s - n.
Proof.
  revert pv s; induction n as [|n IH]; intros pv [|c tl] H; simpl in *; try lia.
  apply IH. lia.
Qed.

(** A greedy quantifier over a character class, followed by nothing,
    takes the whole run. *)
Lemma rep_class p : forall s fuel mn pv cs,
  mn + length s < fuel ->
  rep (m (Chr p)) true fuel mn None accept (MState pv s cs) =
  if mn <=? run p s
  then Some (MState (fst (advance (run p s) pv s)) (snd (advance (run p s) pv s)) cs)
  else None.
Proof.
  induction s as [|c tl IH]; intros fuel mn pv cs Hf;
    (destruct fuel as [|fuel]; [lia|]); simpl.
  - destruct mn; reflexivity.
  - destruct (p c) eqn:Hp.
    + replace (length tl =? S (length tl)) with false
        by (symmetry; apply Nat.eqb_neq; lia).
      rewrite andb_false_r.
      rewrite IH by (simpl in Hf; lia).
      destruct mn as [|mn]; simpl.
      * reflexivity.
      * reflexivity.
    + destruct mn; reflexivity.
Qed.

Lemma consumed_advance n pv s cs cs' :
  n <= length s ->
  consumed (MState pv s cs)
           (MState (fst (advance n pv s)) (snd (advance n pv s)) cs') = firstn n s.
Proof.
  intros H. unfold consumed; simpl.
  rewrite advance_rest_length by assumption.
  f_equal. lia.
Qed.

Lemma m_Rep g mn mx r k st :
  m (Rep g mn mx r) k st = rep (m r) g (mn + length (rest st) + 1) mn mx k st.
Proof. reflexivity. Qed.

Lemma m_Chr p k st :
  m (Chr p) k st =
  match rest st with
  | c :: tl => if p c then k (MState (Some c) tl (caps st)) else None
  | [] => None
  end.
Proof. reflexivity. Qed.

Lemma m_Seq r1 r2 k st : m (Seq r1 r2) k st = m r1 (m r2 k) st.
Proof. reflexivity. Qed.

Lemma m_Bol ml k st :
  m (Bol ml) k st =
  match prev st with
  | None => k st
  | Some c => if ml && isLineTerminator c then k st else None
  end.
Proof. reflexivity. Qed.

(** One attempt of [/\n{3,}/] at a position. *)
Lemma exec_blank_lines pv s :
  exec_at blank_lines_re pv s =
  if 3 <=? run (N.eqb LF) s
  then Some (RMatch (firstn (run (N.eqb LF) s) s) [])
  else None.
Proof.
  unfold exec_at, blank_lines_re, chr.
  rewrite m_Rep. unfold rest at 1.
  rewrite rep_class by lia.
  destruct (3 <=? run (N.eqb LF) s); [|reflexivity].
  rewrite consumed_advance by apply run_le. reflexivity.
Qed.

Definition bol (pv : option N) : bool :=
  match pv with None => true | Some c => isLineTerminator c end.

Definition isIndent : N -> bool := one_of [SP; TAB].

(** One attempt of [/^[ \t]+/m] at a position. *)
Lemma exec_indent pv s :
  exec_at indent_re pv s =
  if bol pv && (1 <=? run isIndent s)
  then Some (RMatch (firstn (run isIndent s) s) [])
  else None.
Proof.
  unfold exec_at, indent_re, plus.
  rewrite m_Seq, m_Bol. unfold prev at 1.
  assert (E : m (Rep true 1 None (Chr (one_of [SP; TAB]))) accept (MState pv s []) =
              if 1 <=? run isIndent s
              then Some (MState (fst (advance (run isIndent s) pv s))
                                (snd (advance (run isIndent s) pv s)) [])
              else None).
  { rewrite m_Rep. unfold rest at 1. apply rep_class. lia. }
  destruct pv as [c|]; unfold bol.
  - destruct (isLineTerminator c) eqn:LT.
    + rewrite !andb_true_l, E.
      destruct (1 <=? run isIndent s) eqn:R; [|reflexivity].
      rewrite consumed_advance by apply run_le. reflexivity.
    + reflexivity.
  - rewrite andb_true_l, E.
    destruct (1 <=? run isIndent s) eqn:R; [|reflexivity].
    rewrite consumed_advance by apply run_le. reflexivity.
Qed.

(** The link pattern starts with an opening bracket. *)
Lemma exec_link_no_bracket pv s :
  match s with c :: _ => c <> 91%N | [] => True end ->
  exec_at link_re pv s = None.
Proof.
  intros H. unfold exec_at, link_re.
  match goal with
  | |- context [seqs (?a :: ?l)] => change (seqs (a :: l)) with (Seq a (seqs l))
  end.
  rewrite m_Seq. unfold chr at 1. rewrite m_Chr. unfold rest at 1.
  destruct s as [|c tl]; [reflexivity|].
  destruct (N.eqb_spec 91 c); [congruence|reflexivity].
Qed.

Lemma length_firstn_run p s : length (firstn (run p s) s) = run p s.
Proof. apply firstn_length_le, run_le. Qed.

End RegexFacts.
Import RegexFacts.

(* ================================================================== *)
(** * The passes of tidyMarkdown *)
(* ================================================================== *)

Module TidyFacts.

Definition LLL : jsstring := [LF; LF; LF].

Definition link_pass := replace_all link_re fix_link.
Definition squeeze_pass := replace_all blank_lines_re (fun _ => [LF; LF]).
Definition indent_pass := replace_all indent_re (fun _ => []).

Lemma tidyMarkdown_passes x :
  tidyMarkdown x = trim (indent_pass (squeeze_pass (link_pass x))).
Proof. reflexivity. Qed.

Lemma replace_go_0 r f g pv a s :
  replace_go r f g pv 0 a s =
  match (if a then exec_at r pv s else None) with
  | Some mt =>
      f mt ++
      match s with
      | [] => []
      | c :: tl =>
          match length (matched mt) with
          | 0 => c :: replace_go r f g (Some c) 0 g tl
          | S n => replace_go r f g (Some c) n g tl
          end
      end
  | None =>
      match s with
      | [] => []
      | c :: tl => c :: replace_go r f g (Some c) 0 a tl
      end
  end.
Proof. destruct s; reflexivity. Qed.

Lemma replace_go_S r f g pv n a c tl :
  replace_go r f g pv (S n) a (c :: tl) = replace_go r f g (Some c) n a tl.
Proof. reflexivity. Qed.

(** ** The link pass *)

Lemma link_go_no_bracket s : forall pv,
  ~ In 91%N s -> replace_go link_re fix_link true pv 0 true s = s.
Proof.
  induction s as [|c tl IH]; intros pv H; rewrite replace_go_0.
  - rewrite exec_link_no_bracket by exact I. reflexivity.
  - rewrite exec_link_no_bracket by (intros ->; apply H; now left).
    f_equal. apply IH. intros HI. apply H. now right.
Qed.

Lemma link_pass_no_bracket s : ~ In 91%N s -> link_pass s = s.
Proof. apply link_go_no_bracket. Qed.

(** ** The blank-line pass *)

Lemma startsWith_LLL s : startsWith LLL s = (3 <=? run (N.eqb LF) s).
Proof.
  unfold LLL.
  destruct s as [|a [|b [|c s]]]; cbn [startsWith run];
    repeat match goal with
           | |- context [(LF =? ?x)%N] => destruct (LF =? x)%N; cbn [andb]
           end; reflexivity.
Qed.

Lemma includes_cons p c tl :
  includes p (c :: tl) = startsWith p (c :: tl) || includes p tl.
Proof. reflexivity. Qed.

Lemma squeeze_go_fixed s : forall pv,
  includes LLL s = false ->
  replace_go blank_lines_re (fun _ => [LF; LF]) true pv 0 true s = s.
Proof.
  induction s as [|c tl IH]; intros pv H; rewrite replace_go_0, exec_blank_lines.
  - reflexivity.
  - rewrite includes_cons in H. apply orb_false_iff in H as [H1 H2].
    rewrite startsWith_LLL in H1. rewrite H1.
    f_equal. now apply IH.
Qed.

Lemma squeeze_go_length s : forall pv skip,
  skip <= length s ->
  length (replace_go blank_lines_re (fun _ => [LF; LF]) true pv skip true s) + skip
  <= length s.
Proof.
  induction s as [|c tl IH]; intros pv skip Hs.
  - destruct skip; [|simpl in Hs; lia]. reflexivity.
  - destruct skip as [|n].
    + rewrite replace_go_0, exec_blank_lines.
      destruct (3 <=? run (N.eqb LF) (c :: tl)) eqn:R.
      * apply Nat.leb_le in R.
        cbn [matched]. rewrite length_firstn_run.
        pose proof (run_le (N.eqb LF) (c :: tl)) as Hr.
        destruct (run (N.eqb LF) (c :: tl)) as [|k] eqn:E; [lia|].
        simpl length in *.
        specialize (IH (Some c) k ltac:(lia)). lia.
      * simpl length. specialize (IH (Some c) 0 ltac:(lia)). lia.
    + rewrite replace_go_S. simpl length in *.
      specialize (IH (Some c) n ltac:(lia)). lia.
Qed.

Lemma squeeze_go_shrinks s : forall pv,
  includes LLL s = true ->
  length (replace_go blank_lines_re (fun _ => [LF; LF]) true pv 0 true s)
  < length s.
Proof.
  induction s as [|c tl IH]; intros pv H.
  - discriminate.
  - rewrite replace_go_0, exec_blank_lines.
    rewrite includes_cons, startsWith_LLL in H.
    destruct (3 <=? run (N.eqb LF) (c :: tl)) eqn:R.
    + apply Nat.leb_le in R.
      cbn [matched]. rewrite length_firstn_run.
      pose proof (run_le (N.eqb LF) (c :: tl)) as Hr.
      destruct (run (N.eqb LF) (c :: tl)) as [|k] eqn:E; [lia|].
      simpl length in *.
      pose proof (squeeze_go_length tl (Some c) k ltac:(lia)). lia.
    + simpl in H. simpl length. specialize (IH (Some c) H). lia.
Qed.

Lemma squeeze_go_In s : forall pv skip x,
  In x (replace_go blank_lines_re (fun _ => [LF; LF]) true pv skip true s) ->
  In x s.
Proof.
  induction s as [|c tl IH]; intros pv skip x H.
  - destruct skip; [|exact H].
    rewrite replace_go_0, exec_blank_lines in H. exact H.
  - destruct skip as [|n].
    + rewrite replace_go_0, exec_blank_lines in H.
      destruct (3 <=? run (N.eqb LF) (c :: tl)) eqn:R.
      * assert (Hc : c = LF).
        { cbn [run] in R. destruct (LF =? c)%N eqn:Q.
          - apply N.eqb_eq in Q. now symmetry.
          - discriminate R. }
        cbn [matched] in H. rewrite length_firstn_run in H.
        destruct (run (N.eqb LF) (c :: tl)) as [|k]; [discriminate|].
        apply in_app_or in H as [H|H].
        -- left. simpl in H. intuition congruence.
        -- right. eapply IH; eassumption.
      * destruct H as [H|H]; [now left|right; eapply IH; eassumption].
    + rewrite replace_go_S in H. right. eapply IH; eassumption.
Qed.

(** ** The indentation pass *)

(** What [/^[ \t]+/gm -> ''] computes: [b] says whether the position is at
    the start of a line. *)
Fixpoint strip (b : bool) (s : jsstring) : jsstring :=
  match s with
  | [] => []
  | c :: tl =>
      if b && isIndent c then strip true tl
      else c :: strip (isLineTerminator c) tl
  end.

(** No line of [s] starts with a space or a tab. *)
Fixpoint indent_free (b : bool) (s : jsstring) : bool :=
  match s with
  | [] => true
  | c :: tl => negb (b && isIndent c) && indent_free (isLineTerminator c) tl
  end.

Lemma isIndent_not_terminator c : isIndent c = true -> isLineTerminator c = false.
Proof.
  unfold isIndent, one_of, existsb. intros H.
  apply orb_true_iff in H as [H|H]; [|apply orb_true_iff in H as [H|H]; [|discriminate]];
    apply N.eqb_eq in H; subst c; reflexivity.
Qed.

Lemma isIndent_isSpace c : isIndent c = true -> isSpace c = true.
Proof.
  unfold isIndent, one_of, existsb. intros H.
  apply orb_true_iff in H as [H|H]; [|apply orb_true_iff in H as [H|H]; [|discriminate]];
    apply N.eqb_eq in H; subst c; reflexivity.
Qed.

Lemma replace_go_advance r f s : forall pv n,
  n <= length s ->
  replace_go r f true pv n true s =
  replace_go r f true (fst (advance n pv s)) 0 true (snd (advance n pv s)).
Proof.
  induction s as [|c tl IH]; intros pv n H.
  - destruct n; [reflexivity|simpl in H; lia].
  - destruct n as [|n]; [reflexivity|].
    rewrite replace_go_S. simpl advance. apply IH. simpl in H. lia.
Qed.

Lemma advance_in_run s : forall n pv,
  n <= run isIndent s -> bol pv = false ->
  bol (fst (advance n pv s)) = false.
Proof.
  induction s as [|c tl IH]; intros n pv H Hb.
  - destruct n; exact Hb.
  - destruct n as [|n]; [exact Hb|].
    simpl advance. cbn [run] in H.
    destruct (isIndent c) eqn:Hc; [|lia].
    apply IH; [lia|]. simpl. now apply isIndent_not_terminator.
Qed.

Lemma advance_run_tail s : forall n pv,
  n = run isIndent s -> run isIndent (snd (advance n pv s)) = 0.
Proof.
  induction s as [|c tl IH]; intros n pv H.
  - subst n. reflexivity.
  - cbn [run] in H. destruct (isIndent c) eqn:Hc.
    + subst n. simpl advance. now apply IH.
    + subst n. simpl. now rewrite Hc.
Qed.

Lemma strip_advance s : forall n pv,
  n = run isIndent s -> strip true s = strip true (snd (advance n pv s)).
Proof.
  induction s as [|c tl IH]; intros n pv H.
  - subst n. reflexivity.
  - cbn [run] in H. destruct (isIndent c) eqn:Hc.
    + subst n. simpl advance. cbn [strip]. rewrite Hc. simpl andb. cbv iota.
      now apply IH.
    + subst n. reflexivity.
Qed.

Lemma indent_go_strip : forall n s pv,
  length s <= n ->
  replace_go indent_re (fun _ => []) true pv 0 true s = strip (bol pv) s.
Proof.
  induction n as [|n IH]; intros s pv Hn.
  - destruct s; [|simpl in Hn; lia].
    rewrite replace_go_0, exec_indent. simpl. now rewrite andb_false_r.
  - destruct s as [|c tl].
    + rewrite replace_go_0, exec_indent. simpl. now rewrite andb_false_r.
    + simpl in Hn.
      rewrite replace_go_0, exec_indent.
      destruct (bol pv && (1 <=? run isIndent (c :: tl))) eqn:E.
      * apply andb_true_iff in E as [Eb Er]. apply Nat.leb_le in Er.
        cbn [matched]. rewrite length_firstn_run.
        pose proof (run_le isIndent (c :: tl)) as Hle.
        destruct (run isIndent (c :: tl)) as [|k] eqn:Ek; [lia|].
        simpl length in Hle. cbn [app].
        rewrite replace_go_advance by lia.
        assert (Hc : isIndent c = true).
        { cbn [run] in Ek. destruct (isIndent c); [reflexivity|discriminate]. }
        assert (Hk : k = run isIndent tl).
        { cbn [run] in Ek. rewrite Hc in Ek. congruence. }
        rewrite Eb. cbn [strip]. rewrite Hc. simpl andb. cbv iota.
        rewrite (strip_advance tl k (Some c) Hk).
        pose proof (advance_in_run tl k (Some c) ltac:(lia)
                      (isIndent_not_terminator c Hc)) as Hb.
        pose proof (advance_run_tail tl k (Some c) Hk) as Hr.
        pose proof (advance_rest_length k (Some c) tl ltac:(lia)) as Hl.
        destruct (advance k (Some c) tl) as [pv1 s1]. simpl fst in *; simpl snd in *.
        rewrite replace_go_0, exec_indent, Hb. simpl andb. cbv iota.
        destruct s1 as [|c1 tl1]; [reflexivity|].
        cbn [strip]. cbn [run] in Hr.
        destruct (isIndent c1) eqn:Hc1; [discriminate|].
        simpl andb. cbv iota. f_equal.
        apply IH. simpl in Hl. lia.
      * cbn [strip].
        assert (E' : bol pv && isIndent c = false).
        { cbn [run] in E. destruct (bol pv); [|reflexivity].
          destruct (isIndent c); [discriminate|reflexivity]. }
        rewrite E'. f_equal. apply IH. lia.
Qed.

Lemma indent_pass_strip s : indent_pass s = strip true s.
Proof. apply (indent_go_strip (length s)). lia. Qed.

Lemma strip_fixed s : forall b, indent_free b s = true -> strip b s = s.
Proof.
  induction s as [|c tl IH]; intros b H; [reflexivity|].
  cbn [indent_free] in H. apply andb_true_iff in H as [H1 H2].
  cbn [strip]. apply negb_true_iff in H1. rewrite H1. f_equal. now apply IH.
Qed.

Lemma strip_indent_free s : forall b, indent_free b (strip b s) = true.
Proof.
  induction s as [|c tl IH]; intros b; [reflexivity|].
  cbn [strip]. destruct (b && isIndent c) eqn:E.
  - apply andb_true_iff in E as [-> _]. apply IH.
  - cbn [indent_free]. rewrite E. simpl. apply IH.
Qed.

Lemma strip_length s : forall b, length (strip b s) <= length s.
Proof.
  induction s as [|c tl IH]; intros b; [reflexivity|].
  cbn [strip]. destruct (b && isIndent c); simpl.
  - specialize (IH true). lia.
  - specialize (IH (isLineTerminator c)). lia.
Qed.

Lemma strip_In s : forall b x, In x (strip b s) -> In x s.
Proof.
  induction s as [|c tl IH]; intros b x H; [exact H|].
  cbn [strip] in H. destruct (b && isIndent c).
  - right. eapply IH; eassumption.
  - destruct H as [H|H]; [now left|right; eapply IH; eassumption].
Qed.

Lemma indent_free_app_l a : forall b c, indent_free b (a ++ c) = true -> indent_free b a = true.
Proof.
  induction a as [|x a IH]; intros b c H; [reflexivity|].
  cbn [app indent_free] in *. apply andb_true_iff in H as [H1 H2].
  rewrite H1. simpl. eapply IH; eassumption.
Qed.

Lemma indent_free_app_r a : forall b x c,
  indent_free b (a ++ x :: c) = true -> isIndent x = false ->
  indent_free true (x :: c) = true.
Proof.
  induction a as [|y a IH]; intros b x c H Hx.
  - cbn [app indent_free] in *. apply andb_true_iff in H as [_ H].
    rewrite Hx. now rewrite andb_false_r.
  - cbn [app indent_free] in H. apply andb_true_iff in H as [_ H].
    eapply IH; eassumption.
Qed.

(** ** trim *)

Definition head_ok (s : jsstring) : Prop :=
  match s with c :: _ => isSpace c = false | [] => True end.

Lemma trimStart_split s :
  exists t, s = t ++ trimStart s /\ forallb isSpace t = true.
Proof.
  induction s as [|c tl [t [E F]]].
  - exists []. split; reflexivity.
  - cbn [trimStart]. destruct (isSpace c) eqn:Hc.
    + exists (c :: t). split; [simpl; congruence|]. simpl. now rewrite Hc.
    + exists []. split; reflexivity.
Qed.

Lemma trimStart_head s : head_ok (trimStart s).
Proof.
  induction s as [|c tl IH]; [exact I|].
  cbn [trimStart]. destruct (isSpace c) eqn:Hc; [exact IH|exact Hc].
Qed.

Lemma trimStart_fixed s : head_ok s -> trimStart s = s.
Proof. destruct s as [|c tl]; [reflexivity|]. simpl. now intros ->. Qed.

Lemma trimStart_snoc a : forall c,
  isSpace c = false -> exists a', trimStart (a ++ [c]) = a' ++ [c].
Proof.
  induction a as [|x a IH]; intros c Hc.
  - exists []. simpl. now rewrite Hc.
  - cbn [app trimStart]. destruct (isSpace x).
    + now apply IH.
    + now exists (x :: a).
Qed.

Lemma trimEnd_split s :
  exists t, s = trimEnd s ++ t /\ forallb isSpace t = true.
Proof.
  unfold trimEnd. destruct (trimStart_split (rev s)) as [t [E F]].
  exists (rev t). split.
  - transitivity (rev (rev s)); [symmetry; apply rev_involutive|].
    rewrite E at 1. apply rev_app_distr.
  - rewrite forallb_forall in *. intros x Hx. apply F. now apply in_rev.
Qed.

Lemma trimEnd_head s : head_ok s -> head_ok (trimEnd s).
Proof.
  destruct s as [|c tl]; [intros _; exact I|]. intros Hc. simpl in Hc.
  unfold trimEnd. cbn [rev].
  destruct (trimStart_snoc (rev tl) c Hc) as [a' ->].
  rewrite rev_app_distr. exact Hc.
Qed.

Lemma trimEnd_idem s : trimEnd (trimEnd s) = trimEnd s.
Proof.
  unfold trimEnd. rewrite rev_involutive.
  now rewrite (trimStart_fixed _ (trimStart_head (rev s))).
Qed.

Lemma trim_idem s : trim (trim s) = trim s.
Proof.
  unfold trim.
  rewrite (trimStart_fixed _ (trimEnd_head _ (trimStart_head s))).
  apply trimEnd_idem.
Qed.

Lemma trim_split s : exists a b, s = a ++ trim s ++ b.
Proof.
  unfold trim.
  destruct (trimStart_split s) as [a [Ea _]].
  destruct (trimEnd_split (trimStart s)) as [b [Eb _]].
  exists a, b. now rewrite <- Eb.
Qed.

Lemma trim_length s : length (trim s) <= length s.
Proof.
  destruct (trim_split s) as [a [b E]].
  rewrite E at 2. rewrite !length_app. lia.
Qed.

Lemma trim_In s x : In x (trim s) -> In x s.
Proof.
  destruct (trim_split s) as [a [b E]]. intros H.
  rewrite E. apply in_or_app. right. apply in_or_app. now left.
Qed.

Lemma trim_indent_free s : indent_free true s = true -> indent_free true (trim s) = true.
Proof.
  intros H. unfold trim.
  destruct (trimStart_split s) as [a [Ea _]].
  pose proof (trimStart_head s) as Hh.
  assert (H1 : indent_free true (trimStart s) = true).
  { destruct (trimStart s) as [|c u] eqn:Eu; [reflexivity|].
    rewrite Ea in H. eapply indent_free_app_r; [exact H|].
    simpl in Hh. destruct (isIndent c) eqn:Hc; [|reflexivity].
    apply isIndent_isSpace in Hc. congruence. }
  destruct (trimEnd_split (trimStart s)) as [b [Eb _]].
  rewrite Eb in H1. eapply indent_free_app_l; eassumption.
Qed.

End TidyFacts.

(* ================================================================== *)
(** * Claims about tidyMarkdown *)
(* ================================================================== *)

Module TidyClaims.
Import TidyFacts.

(** C3, counterexample: tidyMarkdown is not idempotent. On
    ["a\n \n \nb"] the first application empties the two blank lines only
    after the blank-line pass has run, leaving three consecutive line
    breaks that the second application squeezes; on ["[p  q [\n t ](u)"]
    the first application repairs the inner link, and only then does the
    outer bracket form a link whose text the second application
    normalises. *)
Lemma tidyMarkdown_not_idempotent :
  tidyMarkdown blank_line_input = js "a" ++ [LF; LF; LF] ++ js "b" /\
  tidyMarkdown (tidyMarkdown blank_line_input) = js "a" ++ [LF; LF] ++ js "b" /\
  tidyMarkdown (tidyMarkdown blank_line_input) <> tidyMarkdown blank_line_input /\
  tidyMarkdown nested_link_input = js "[p  q [t](u)" /\
  tidyMarkdown (tidyMarkdown nested_link_input) = js "[p q [t](u)" /\
  tidyMarkdown (tidyMarkdown nested_link_input) <> tidyMarkdown nested_link_input.
Proof.
  repeat split; try (vm_compute; reflexivity); vm_compute; discriminate.
Qed.

Lemma tidyMarkdown_no_bracket x :
  ~ In 91%N x -> tidyMarkdown x = trim (strip true (squeeze_pass x)).
Proof.
  intros H. rewrite tidyMarkdown_passes, link_pass_no_bracket by assumption.
  now rewrite indent_pass_strip.
Qed.

Lemma tidyMarkdown_keeps_no_bracket x :
  ~ In 91%N x -> ~ In 91%N (tidyMarkdown x).
Proof.
  intros H HI. rewrite tidyMarkdown_no_bracket in HI by assumption.
  apply trim_In, strip_In in HI. apply squeeze_go_In in HI. contradiction.
Qed.

Lemma tidyMarkdown_indent_free x :
  ~ In 91%N x -> indent_free true (tidyMarkdown x) = true.
Proof.
  intros H. rewrite tidyMarkdown_no_bracket by assumption.
  apply trim_indent_free, strip_indent_free.
Qed.

(** C3, amended: on an input without an opening bracket (so that the link
    pass has nothing to rewrite), applying tidyMarkdown a second time
    changes nothing exactly when the first result holds no run of three
    line breaks. *)
Theorem tidyMarkdown_idempotent_iff (x : jsstring) :
  ~ In 91%N x ->
  (tidyMarkdown (tidyMarkdown x) = tidyMarkdown x <->
   includes [LF; LF; LF] (tidyMarkdown x) = false).
Proof.
  intros H.
  pose proof (tidyMarkdown_keeps_no_bracket x H) as Hy.
  pose proof (tidyMarkdown_indent_free x H) as Hf.
  rewrite (tidyMarkdown_no_bracket (tidyMarkdown x) Hy).
  split.
  - intros E.
    destruct (includes [LF; LF; LF] (tidyMarkdown x)) eqn:I3; [|reflexivity].
    exfalso.
    pose proof (squeeze_go_shrinks (tidyMarkdown x) None I3) as L1.
    pose proof (strip_length (squeeze_pass (tidyMarkdown x)) true) as L2.
    pose proof (trim_length (strip true (squeeze_pass (tidyMarkdown x)))) as L3.
    unfold squeeze_pass, replace_all in *.
    rewrite E in L3. lia.
  - intros I3.
    unfold squeeze_pass, replace_all.
    rewrite (squeeze_go_fixed (tidyMarkdown x) None I3).
    rewrite (strip_fixed (tidyMarkdown x) true Hf).
    rewrite (tidyMarkdown_no_bracket x H). apply trim_idem.
Qed.

(** The amended statement at ["a\n\nb  c"]. *)
Lemma tidyMarkdown_idempotent_iff_witness :
  tidyMarkdown (tidyMarkdown (js "a" ++ [LF; LF] ++ js "b  c")) =
  tidyMarkdown (js "a" ++ [LF; LF] ++ js "b  c").
Proof.
  refine (proj2 (tidyMarkdown_idempotent_iff (js "a" ++ [LF; LF] ++ js "b  c") _) _).
  - vm_compute. intuition discriminate.
  - vm_compute. reflexivity.
Defined.

End TidyClaims.


(* ================================================================== *)
(** * Claims about the configuration of the rule engine *)
(* ================================================================== *)

Module ConfigClaims.
Import CommonMark Gfm Examples.

(** C1: the image-retention mode has no effect. [configureTurndownService]
    never reads [retainImages], so every mode configures the same engine,
    and with ['none'] an ordinary image still renders as a full image
    reference: [<article><img src='a.png' alt='x'></article>] gives
    ["![x](a.png)"]. *)
Theorem retainImages_is_ignored :
  (forall env ri ri' g d rules k,
     newConverter env
       (Some {| retainImages := ri; noGfm := g; imgDataUrlToObjectUrl := d;
                customRules := rules; customKeep := k |}) =
     newConverter env
       (Some {| retainImages := ri'; noGfm := g; imgDataUrlToObjectUrl := d;
                customRules := rules; customKeep := k |})) /\
  convert (options (Some RetainNone) None None) image_html =
    Ok (head_only ++ js "![x](a.png)") /\
  convert (options (Some RetainAlt) None None) image_html =
    Ok (head_only ++ js "![x](a.png)").
Proof.
  split; [reflexivity|]. split; vm_compute; reflexivity.
Qed.

(** C2: with [noGfm: 'table'] no GFM extension is enabled. The outer test
    [!options?.noGfm] is false for the string ['table'], so the branch that
    would install strikethrough and task lists is never reached and the
    engine is configured exactly as with [noGfm: true]:
    [<article><del>gone</del></article>] renders as ["gone"], while with
    [noGfm: false] it renders as ["~gone~"]. *)
Theorem noGfm_table_enables_nothing :
  (forall env ri d rules k,
     newConverter env
       (Some {| retainImages := ri; noGfm := Some NoGfmTable;
                imgDataUrlToObjectUrl := d; customRules := rules; customKeep := k |}) =
     newConverter env
       (Some {| retainImages := ri; noGfm := Some (NoGfmBool true);
                imgDataUrlToObjectUrl := d; customRules := rules; customKeep := k |})) /\
  convert (options None (Some NoGfmTable) None) del_html = Ok (head_only ++ js "gone") /\
  convert (options None (Some (NoGfmBool true)) None) del_html = Ok (head_only ++ js "gone") /\
  convert (options None (Some (NoGfmBool false)) None) del_html = Ok (head_only ++ js "~gone~").
Proof.
  split; [reflexivity|]. repeat split; vm_compute; reflexivity.
Qed.

End ConfigClaims.

(* ================================================================== *)
(** * Claims about urlToMarkdown *)
(* ================================================================== *)

Module FetchClaims.
Import Examples.

(** C9, counterexample: a fetch that fails with a value that is not an
    [Error] (here the string ["boom"]) is raised again as it is; the
    failure carries no ["Failed to fetch URL:"] context. *)
Lemma non_error_failure_is_not_wrapped :
  axios_get exampleEnv odd_url = Rejected (NonError (js "boom")) /\
  fst (urlToMarkdown exampleEnv (newConverter exampleEnv None) odd_url 0) =
    Throw (NonError (js "boom")) /\
  (forall message,
     fst (urlToMarkdown exampleEnv (newConverter exampleEnv None) odd_url 0) <>
     Throw (wrapped message)).
Proof.
  repeat split; try reflexivity. intros message H. vm_compute in H. discriminate.
Qed.

(** C9, amended: when the fetch fails with an [Error] instance, the
    operation raises a new [Error] whose message is ["Failed to fetch
    URL: "] followed by the message of the original failure; and whatever
    the fetch fails with, the operation raises (it returns no output). *)
Theorem fetch_error_is_wrapped env svc url w e :
  axios_get env url = Rejected e ->
  (forall name message,
     e = ErrorObj name message ->
     fst (urlToMarkdown env svc url w) = Throw (wrapped message)) /\
  (exists t, fst (urlToMarkdown env svc url w) = Throw t).
Proof.
  intros H. unfold urlToMarkdown. rewrite H. split.
  - intros name message ->. reflexivity.
  - destruct e; eexists; reflexivity.
Qed.

Lemma fetch_error_is_wrapped_witness :
  fst (urlToMarkdown exampleEnv (newConverter exampleEnv None) failing_url 0) =
  Throw (wrapped (js "Network Error")).
Proof.
  exact (proj1 (fetch_error_is_wrapped exampleEnv (newConverter exampleEnv None)
                  failing_url 0 (ErrorObj (js "AxiosError") (js "Network Error"))
                  eq_refl)
               (js "AxiosError") (js "Network Error") eq_refl).
Defined.

(** C10: a value that is not an [Error], thrown by the fetch or by the
    conversion of the fetched page, is raised again unchanged. *)
Theorem non_error_is_rethrown env svc url w v :
  (axios_get env url = Rejected (NonError v) ->
   fst (urlToMarkdown env svc url w) = Throw (NonError v)) /\
  (forall data,
     axios_get env url = Resolved data ->
     fst (htmlToMarkdown env svc data (Some url) w) = Throw (NonError v) ->
     fst (urlToMarkdown env svc url w) = Throw (NonError v)).
Proof.
  unfold urlToMarkdown. split.
  - intros ->. reflexivity.
  - intros data -> H.
    destruct (htmlToMarkdown env svc data (Some url) w) as [[out|t] w'];
      simpl in *; [discriminate|]. now inversion H.
Qed.

Lemma non_error_is_rethrown_witness :
  fst (urlToMarkdown exampleEnv (newConverter exampleEnv None) odd_url 0) =
  Throw (NonError (js "boom")).
Proof.
  exact (proj1 (non_error_is_rethrown exampleEnv (newConverter exampleEnv None)
                  odd_url 0 (js "boom")) eq_refl).
Defined.

End FetchClaims.

(* ================================================================== *)
(** * Claims about the output format *)
(* ================================================================== *)

Module FormatClaims.
Import Examples.

Lemma header_fields title url publishedTime :
  header title url publishedTime =
  js "Title: " ++ title ++ field "URL Source: " url ++
  field "Published Time: " publishedTime ++ [LF; LF] ++ js "Markdown Content:".
Proof.
  unfold header, field.
  destruct url as [[|c u]|]; destruct publishedTime as [[|c' t]|];
    vm_compute; reflexivity.
Qed.

Lemma convertDocument_format env svc document url out :
  convertDocument env svc document url = Ok out ->
  exists body,
    out = header (titleOf document) url (extractPublishedTime env document) ++ nl ++ body.
Proof.
  unfold convertDocument.
  destruct (extractMainContent (cleanupDocument document)) as [d' [main|]];
    [|discriminate].
  destruct (element_of (attachRows d' main) main) as [mc|]; [|discriminate].
  destruct (turndown (rootNode env) svc (innerHTML mc)) as [markdown|e];
    unfold bind; [|discriminate].
  intros H. inversion H. now exists markdown.
Qed.


End FormatClaims.

(* ================================================================== *)
(** * Claims about the precedence of rules *)
(* ================================================================== *)

Module RuleClaims.
Import CommonMark Gfm Examples.

Lemma array_keep f rs : array (keep f rs) = array rs.
Proof. reflexivity. Qed.

Lemma array_addCustomRules l : forall rs,
  array (addCustomRules l rs) = rev (map keyed l) ++ array rs.
Proof.
  unfold addCustomRules.
  induction l as [|kv l IH]; intros rs; [reflexivity|].
  cbn [fold_left map rev]. rewrite IH. rewrite <- app_assoc. reflexivity.
Qed.

(** The rule table of a configured converter, front first. *)
Lemma array_newConverter env ri g d rules k :
  array (newConverter env (optionsOf ri g d rules k)) =
  lateRules g ++
  rev (map keyed (match rules with Some l => l | None => [] end)) ++
  earlyRules env d ++ builtin env.
Proof.
  unfold newConverter, configureTurndownService, optionsOf, opt, lateRules, earlyRules.
  assert (K : forall rs : Rules,
             array (match k with
                    | Some f => if filter_truthy f then keep f rs else rs
                    | None => rs
                    end) = array rs).
  { intros rs. destruct k as [f|]; [destruct (filter_truthy f)|]; reflexivity. }
  cbn [noGfm imgDataUrlToObjectUrl customRules customKeep].
  destruct g as [[[|]|]|]; destruct (flag_truthy d); destruct rules as [l|];
    cbn [noGfm_truthy noGfm_is_table negb gfm taskListItems tables strikethrough
         highlightedCodeBlock add keep array app gfmRules map rev];
    rewrite ?array_addCustomRules; cbn [add array app]; rewrite ?K;
    reflexivity.
Qed.

Lemma array_newConverter_default env :
  array (newConverter env None) =
  lateRules None ++ earlyRules env None ++ builtin env.
Proof. reflexivity. Qed.

Lemma findRule_app a b n :
  findRule (a ++ b) n =
  (r <- findRule a n ;;
   match r with
   | Some x => Ok (Some x)
   | None => findRule b n
   end).
Proof.
  induction a as [|x a IH]; [reflexivity|].
  cbn [app findRule]. destruct (filterValue x n) as [[|]|e]; cbn [bind];
    [reflexivity|exact IH|reflexivity].
Qed.


Lemma filterValue_keyed kv n : filterValue (keyed kv) n = filterValue (snd kv) n.
Proof. reflexivity. Qed.





End RuleClaims.

(* ================================================================== *)
(** * Facts about documents *)
(* ================================================================== *)

Module DomFacts.

(** Induction over a node and, through [Forall], over its children. *)
Lemma Node_ind' (P : Node -> Prop) :
  (forall d, P (Text d)) ->
  (forall i l a r kids, Forall P kids -> P (Element i l a r kids)) ->
  forall n, P n.
Proof.
  intros HT HE. fix IH 1. intros [d|i l a r kids]; [apply HT|apply HE].
  induction kids as [|k kids IHk]; constructor; [apply IH|exact IHk].
Qed.

Lemma map_flat_map_comm {A B C} (f : B -> C) (g : A -> list B) l :
  map f (flat_map g l) = flat_map (fun x => map f (g x)) l.
Proof.
  induction l as [|x l IH]; [reflexivity|].
  cbn [flat_map]. now rewrite map_app, IH.
Qed.

Definition prune_list (x : nat) (kids : list Node) : list Node :=
  flat_map (fun k => match prune x k with Some k' => [k'] | None => [] end) kids.

Lemma prune_Element x i l a r kids :
  prune x (Element i l a r kids) =
  if i =? x then None else Some (Element i l a r (prune_list x kids)).
Proof. reflexivity. Qed.

(** The identity, name and attributes of an element. *)
Definition head_of (n : Node) : option (nat * jsstring * Attrs) :=
  match n with
  | Element i l a _ _ => Some (i, l, a)
  | Text _ => None
  end.

Definition heads (n : Node) : list (option (nat * jsstring * Attrs)) :=
  map head_of (elements n).

Lemma matches_head sel n n' : head_of n = head_of n' -> matches sel n = matches sel n'.
Proof.
  destruct n as [d|i l a r k], n' as [d'|i' l' a' r' k']; simpl; intros H;
    try discriminate; [reflexivity|].
  inversion H; subst. reflexivity.
Qed.

Lemma node_id_head n n' : head_of n = head_of n' -> node_id n = node_id n'.
Proof.
  destruct n as [d|i l a r k], n' as [d'|i' l' a' r' k']; simpl; intros H;
    try discriminate; [reflexivity|].
  inversion H; subst. reflexivity.
Qed.

Lemma ids_of_elements n : ids_of (elements n) = ids n.
Proof.
  induction n as [d|i l a r kids IH] using Node_ind'; [reflexivity|].
  cbn [elements ids ids_of flat_map node_id app]. f_equal.
  induction IH as [|k kids Hk _ IHk]; [reflexivity|].
  cbn [flat_map]. unfold ids_of in *. rewrite flat_map_app, Hk, IHk. reflexivity.
Qed.

Lemma ids_of_In x l : In x (ids_of l) <-> exists n, In n l /\ node_id n = Some x.
Proof.
  unfold ids_of. rewrite in_flat_map. split.
  - intros [n [Hn Hx]]. exists n. split; [exact Hn|].
    destruct (node_id n); simpl in Hx; [|contradiction].
    destruct Hx as [->|[]]. reflexivity.
  - intros [n [Hn Hx]]. exists n. split; [exact Hn|]. rewrite Hx. now left.
Qed.

Lemma ids_In x n : In x (ids n) <-> exists e, In e (elements n) /\ node_id e = Some x.
Proof. rewrite <- ids_of_elements. apply ids_of_In. Qed.

Lemma elements_are_elements e n : In e (elements n) -> exists x, node_id e = Some x.
Proof.
  induction n as [d|i l a r kids IH] using Node_ind'; [intros []|].
  cbn [elements]. intros [<-|H]; [now exists i|].
  apply in_flat_map in H as [k [Hk He]].
  rewrite Forall_forall in IH. exact (IH k Hk He).
Qed.

(** What [prune] leaves: heads of the original, and never [x]. *)
Lemma prune_heads x n : forall n',
  prune x n = Some n' -> incl (heads n') (heads n) /\ ~ In x (ids n').
Proof.
  induction n as [d|i l a r kids IH] using Node_ind'; intros n' H.
  - inversion H; subst. split; [apply incl_refl|intros []].
  - rewrite prune_Element in H. destruct (Nat.eqb_spec i x) as [E|NE]; [discriminate|].
    inversion H; subst n'; clear H.
    assert (L : incl (flat_map heads (prune_list x kids)) (flat_map heads kids) /\
                ~ In x (flat_map ids (prune_list x kids))).
    { induction IH as [|k kids Hk _ IHk]; [split; [apply incl_refl|intros []]|].
      unfold prune_list in *. cbn [flat_map].
      destruct IHk as [I1 I2].
      destruct (prune x k) as [k'|] eqn:Pk.
      - destruct (Hk k' eq_refl) as [H1 H2]. cbn [app flat_map]. split.
        + apply incl_app; [apply incl_appl; exact H1|apply incl_appr; exact I1].
        + rewrite in_app_iff. tauto.
      - cbn [app]. split; [apply incl_appr; exact I1|exact I2]. }
    destruct L as [L1 L2]. split.
    + unfold heads in *. cbn [elements map head_of].
      intros h [<-|Hh]; [now left|right].
      rewrite map_flat_map_comm in *. apply L1 in Hh.
      exact Hh.
    + cbn [ids]. intros [E|Hin]; [congruence|contradiction].
Qed.

Definition doc_heads (d : Document) : list (option (nat * jsstring * Attrs)) :=
  match documentElement d with Some r => heads r | None => [] end.

Lemma heads_ids x n : In x (ids n) <-> exists l a, In (Some (x, l, a)) (heads n).
Proof.
  rewrite ids_In. unfold heads. split.
  - intros [e [He Hx]]. destruct e as [d|i l a r k]; [discriminate|].
    simpl in Hx. inversion Hx; subst. exists l, a.
    apply in_map_iff. exists (Element x l a r k). now split.
  - intros [l [a H]]. apply in_map_iff in H as [e [He Hin]].
    exists e. split; [exact Hin|].
    destruct e as [d|i l' a' r k]; [discriminate|]. simpl in *. now inversion He.
Qed.

Lemma remove_heads x d :
  incl (doc_heads (remove x d)) (doc_heads d) /\ ~ In x (doc_ids (remove x d)).
Proof.
  unfold doc_heads, doc_ids, remove. cbn [documentElement].
  destruct (documentElement d) as [r|]; [|split; [apply incl_refl|intros []]].
  destruct (prune x r) as [r'|] eqn:P.
  - exact (prune_heads x r r' P).
  - split; [intros h []|intros []].
Qed.

Lemma doc_ids_heads x d :
  In x (doc_ids d) <-> exists l a, In (Some (x, l, a)) (doc_heads d).
Proof.
  unfold doc_ids, doc_heads. destruct (documentElement d) as [r|].
  - apply heads_ids.
  - split; [intros []|intros [l [a []]]].
Qed.

Lemma incl_heads_ids d d' :
  incl (doc_heads d') (doc_heads d) -> incl (doc_ids d') (doc_ids d).
Proof.
  intros H x Hx. apply doc_ids_heads in Hx as [l [a Hh]].
  apply doc_ids_heads. exists l, a. now apply H.
Qed.

Lemma removeEach_heads els : forall d,
  incl (doc_heads (removeEach els d)) (doc_heads d) /\
  (forall x, In x els -> ~ In x (doc_ids (removeEach els d))).
Proof.
  unfold removeEach.
  induction els as [|el els IH]; intros d; cbn [fold_left].
  - split; [apply incl_refl|intros x []].
  - destruct (IH (remove el d)) as [I1 I2].
    destruct (remove_heads el d) as [R1 R2]. split.
    + eapply incl_tran; eassumption.
    + intros x [<-|Hx]; [|now apply I2].
      intros Hin. apply R2. eapply incl_heads_ids; eassumption.
Qed.

(** ** Sets of identities *)

Lemma set_has_In s x : set_has s x = true <-> In x s.
Proof.
  unfold set_has. rewrite existsb_exists. split.
  - intros [y [Hy E]]. apply Nat.eqb_eq in E. now subst.
  - intros H. exists x. split; [exact H|apply Nat.eqb_refl].
Qed.

Lemma set_add_In s x y : In y (set_add s x) <-> In y s \/ y = x.
Proof.
  unfold set_add. destruct (set_has s x) eqn:E.
  - apply set_has_In in E. split; [tauto|]. intros [H| ->]; assumption.
  - rewrite in_app_iff. simpl. intuition.
Qed.

Lemma fold_set_add_In l : forall s y,
  In y (fold_left set_add l s) <-> In y s \/ In y l.
Proof.
  induction l as [|x l IH]; intros s y; cbn [fold_left].
  - simpl. tauto.
  - rewrite IH, set_add_In. simpl. intuition.
Qed.

(** ** The preserved set *)

Definition chain (d : Document) (el : nat) : list nat :=
  match documentElement d with
  | Some r => ancestors el r
  | None => []
  end.

Definition mark (d : Document) (set : list nat) (el : nat) : list nat :=
  fold_left set_add (chain d el) (set_add set el).

Lemma contentElements_unfold d :
  contentElements d =
  fold_left (fun set sel => fold_left (mark d) (ids_of (querySelectorAll sel d)) set)
            contentSelectors [].
Proof. reflexivity. Qed.

Lemma root_in_chain i l a rw kids el :
  In el (ids (Element i l a rw kids)) -> el <> i ->
  In i (ancestors el (Element i l a rw kids)).
Proof.
  intros Hin Hne. unfold ancestors. rewrite <- in_rev.
  assert (B : below el (Element i l a rw kids) = true).
  { unfold below. cbn [children]. apply existsb_exists. exists el.
    split; [|apply Nat.eqb_refl].
    cbn [ids] in Hin. destruct Hin as [E|H]; [congruence|exact H]. }
  apply ids_of_In. exists (Element i l a rw kids). split; [|reflexivity].
  apply filter_In. split; [|exact B].
  change (elements (Element i l a rw kids))
    with (Element i l a rw kids :: flat_map elements kids). now left.
Qed.

Lemma querySelectorAll_ids sel d el :
  In el (ids_of (querySelectorAll sel d)) -> In el (doc_ids d).
Proof.
  unfold querySelectorAll, doc_ids. destruct (documentElement d) as [r|]; [|intros []].
  intros H. apply ids_of_In in H as [n [Hn Hx]].
  apply filter_In in Hn as [Hn _]. apply ids_In. now exists n.
Qed.

(** Either nothing is preserved, or the root element is. *)
Lemma contentElements_root d i l a rw kids :
  documentElement d = Some (Element i l a rw kids) ->
  contentElements d = [] \/ In i (contentElements d).
Proof.
  intros Hd. rewrite contentElements_unfold.
  assert (Step : forall set el, In el (doc_ids d) -> In i (mark d set el)).
  { intros set el Hel. unfold mark. apply fold_set_add_In.
    destruct (Nat.eq_dec el i) as [->|Hne].
    - left. apply set_add_In. now right.
    - right. unfold chain. rewrite Hd. apply root_in_chain; [|exact Hne].
      unfold doc_ids in Hel. now rewrite Hd in Hel. }
  assert (Mono : forall set el, In i set -> In i (mark d set el)).
  { intros set el H. unfold mark. apply fold_set_add_In. left.
    apply set_add_In. now left. }
  assert (Inner : forall els set,
             (forall el, In el els -> In el (doc_ids d)) ->
             (set = [] \/ In i set) ->
             (fold_left (mark d) els set = [] \/ In i (fold_left (mark d) els set))).
  { induction els as [|el els IH]; intros set Hels Inv; cbn [fold_left]; [exact Inv|].
    apply IH; [intros e He; apply Hels; now right|].
    right. apply Step. apply Hels. now left. }
  generalize contentSelectors as sels. intros sels.
  assert (Outer : forall set,
             (set = [] \/ In i set) ->
             (fold_left (fun set sel =>
                           fold_left (mark d) (ids_of (querySelectorAll sel d)) set)
                        sels set = [] \/
              In i (fold_left (fun set sel =>
                                 fold_left (mark d) (ids_of (querySelectorAll sel d)) set)
                              sels set))).
  { induction sels as [|sel sels IH]; intros set Inv; cbn [fold_left]; [exact Inv|].
    apply IH. apply Inner; [|exact Inv].
    intros el. apply querySelectorAll_ids. }
  apply Outer. now left.
Qed.

(** ** cleanupDocument *)

(** One step of the removal loop. *)
Definition sweep_step (ce : list nat) (d : Document) (el : nat) : Document :=
  if negb (set_has ce el) && negb (existsb (fun content => contains d content el) ce)
  then remove el d
  else d.

Lemma cleanupDocument_unfold d :
  cleanupDocument d =
  fold_left (fun d' sel =>
               fold_left (sweep_step (contentElements d))
                         (ids_of (querySelectorAll sel d')) d')
            selectorsToRemove d.
Proof. reflexivity. Qed.

Lemma doc_heads_elements d : doc_heads d = map head_of (doc_elements d).
Proof. unfold doc_heads, doc_elements, heads. now destruct (documentElement d). Qed.

Lemma doc_ids_elements d : doc_ids d = ids_of (doc_elements d).
Proof.
  unfold doc_ids, doc_elements. destruct (documentElement d); [|reflexivity].
  symmetry. apply ids_of_elements.
Qed.

Lemma doc_elements_are_elements d g :
  In g (doc_elements d) -> exists x, node_id g = Some x.
Proof.
  unfold doc_elements. destruct (documentElement d) as [r|]; [|intros []].
  apply elements_are_elements.
Qed.

Lemma querySelectorAll_filter sel d :
  querySelectorAll sel d = List.filter (matches sel) (doc_elements d).
Proof. unfold querySelectorAll, doc_elements. now destruct (documentElement d). Qed.

(** The root contains every element of the document. *)
Lemma root_contains d i l a rw kids el :
  documentElement d = Some (Element i l a rw kids) ->
  In el (doc_ids d) -> contains d i el = true.
Proof.
  intros Hd Hel. unfold contains, subtree. rewrite Hd.
  change (elements (Element i l a rw kids))
    with (Element i l a rw kids :: flat_map elements kids).
  cbn [find has_id]. rewrite Nat.eqb_refl.
  apply existsb_exists. exists el. split; [|apply Nat.eqb_refl].
  unfold doc_ids in Hel. now rewrite Hd in Hel.
Qed.

(** If the preserved set is not empty, the cleanup pass removes nothing. *)
Lemma cleanupDocument_preserved d :
  contentElements d <> [] -> cleanupDocument d = d.
Proof.
  intros Hne. rewrite cleanupDocument_unfold.
  destruct (documentElement d) as [[t|i l a rw kids]|] eqn:Hd.
  - (* a document whose root is not an element has no element at all *)
    exfalso. apply Hne. rewrite contentElements_unfold.
    assert (Q : forall sel, ids_of (querySelectorAll sel d) = []).
    { intros sel. unfold querySelectorAll. now rewrite Hd. }
    induction contentSelectors as [|sel sels IH]; [reflexivity|].
    cbn [fold_left]. rewrite Q. exact IH.
  - destruct (contentElements_root d i l a rw kids Hd) as [E|Hi]; [contradiction|].
    assert (Step : forall el, In el (doc_ids d) ->
                              sweep_step (contentElements d) d el = d).
    { intros el Hel. unfold sweep_step.
      assert (X : existsb (fun content => contains d content el) (contentElements d) = true).
      { apply existsb_exists. exists i. split; [exact Hi|].
        eapply root_contains; eassumption. }
      rewrite X. now rewrite andb_false_r. }
    assert (Inner : forall els, (forall el, In el els -> In el (doc_ids d)) ->
                                fold_left (sweep_step (contentElements d)) els d = d).
    { induction els as [|el els IH]; intros Hels; [reflexivity|].
      cbn [fold_left]. rewrite Step by (apply Hels; now left).
      apply IH. intros e He. apply Hels. now right. }
    induction selectorsToRemove as [|sel sels IH]; [reflexivity|].
    cbn [fold_left]. rewrite Inner; [exact IH|].
    intros el. apply querySelectorAll_ids.
  - exfalso. apply Hne. rewrite contentElements_unfold.
    assert (Q : forall sel, ids_of (querySelectorAll sel d) = []).
    { intros sel. unfold querySelectorAll. now rewrite Hd. }
    induction contentSelectors as [|sel sels IH]; [reflexivity|].
    cbn [fold_left]. rewrite Q. exact IH.
Qed.

(** With an empty preserved set every match is removed. *)
Definition sweep_all (sels : list Selector) (d : Document) : Document :=
  fold_left (fun d' sel => removeEach (ids_of (querySelectorAll sel d')) d') sels d.

Lemma cleanupDocument_unpreserved d :
  contentElements d = [] -> cleanupDocument d = sweep_all selectorsToRemove d.
Proof.
  intros E. rewrite cleanupDocument_unfold, E. unfold sweep_all, removeEach.
  assert (Inner : forall els d', fold_left (sweep_step []) els d' =
                                 fold_left (fun d el => remove el d) els d').
  { induction els as [|el els IH]; intros d'; [reflexivity|].
    cbn [fold_left]. change (sweep_step [] d' el) with (remove el d'). apply IH. }
  clear E. generalize d. induction selectorsToRemove as [|sel sels IH]; intros d'.
  - reflexivity.
  - cbn [fold_left]. rewrite Inner. apply IH.
Qed.

Lemma sweep_all_heads sels : forall d,
  incl (doc_heads (sweep_all sels d)) (doc_heads d) /\
  (forall sel g, In sel sels -> In g (doc_elements (sweep_all sels d)) ->
                 matches sel g = false).
Proof.
  unfold sweep_all.
  induction sels as [|sel sels IH]; intros d; cbn [fold_left].
  - split; [apply incl_refl|intros sel g []].
  - set (d1 := removeEach (ids_of (querySelectorAll sel d)) d).
    destruct (IH d1) as [I1 I2].
    destruct (removeEach_heads (ids_of (querySelectorAll sel d)) d) as [R1 R2].
    fold d1 in R1, R2. split; [eapply incl_tran; eassumption|].
    intros sel' g [<-|Hsel] Hg; [|now apply (I2 sel' g)].
    destruct (matches sel g) eqn:M; [exfalso|reflexivity].
    (* g comes from an element of d with the same head, which was removed *)
    assert (Hh : In (head_of g) (doc_heads d)).
    { apply R1, I1. rewrite doc_heads_elements. now apply in_map. }
    rewrite doc_heads_elements in Hh. apply in_map_iff in Hh as [g0 [Hg0 Hin0]].
    assert (M0 : matches sel g0 = true) by (rewrite (matches_head sel g0 g Hg0); exact M).
    destruct (doc_elements_are_elements _ _ Hg) as [x Hgx].
    assert (Hx : In x (ids_of (querySelectorAll sel d))).
    { apply ids_of_In. exists g0. split.
      - rewrite querySelectorAll_filter. apply filter_In. now split.
      - now rewrite (node_id_head g0 _ Hg0). }
    apply (R2 x Hx).
    eapply incl_heads_ids; [exact I1|].
    rewrite doc_ids_elements. apply ids_of_In.
    exists g. now split.
Qed.



End DomFacts.

(* ================================================================== *)
(** * Claims about the cleanup pass *)
(* ================================================================== *)

Module CleanupClaims.
Import DomFacts Examples.

Lemma fold_mark_mono d els : forall set x,
  In x set -> In x (fold_left (mark d) els set).
Proof.
  induction els as [|el els IH]; intros set x H; cbn [fold_left]; [exact H|].
  apply IH. unfold mark. apply fold_set_add_In. left. apply set_add_In. now left.
Qed.

Lemma fold_mark_In d els : forall set x,
  In x els -> In x (fold_left (mark d) els set).
Proof.
  induction els as [|el els IH]; intros set x H; [contradiction|].
  cbn [fold_left]. destruct H as [->|H]; [|now apply IH].
  apply fold_mark_mono. unfold mark. apply fold_set_add_In. left.
  apply set_add_In. now right.
Qed.

(** A match of a content selector is in the preserved set. *)
Lemma contentElements_match d sel x :
  In sel contentSelectors -> In x (ids_of (querySelectorAll sel d)) ->
  In x (contentElements d).
Proof.
  rewrite contentElements_unfold. generalize (@nil nat) as set.
  induction contentSelectors as [|s sels IH]; intros set Hsel Hx; [contradiction|].
  cbn [fold_left]. destruct Hsel as [->|Hsel].
  - assert (Mono : forall sels set,
               In x set ->
               In x (fold_left (fun set sel =>
                                  fold_left (mark d) (ids_of (querySelectorAll sel d)) set)
                               sels set)).
    { clear. induction sels as [|s sels IH]; intros set H; cbn [fold_left]; [exact H|].
      apply IH. now apply fold_mark_mono. }
    apply Mono. now apply fold_mark_In.
  - now apply IH.
Qed.




End CleanupClaims.

(* ================================================================== *)
(** * Facts about the table loop *)
(* ================================================================== *)

Module TableFacts.
Import DomFacts.

Lemma defineRows_Element x v i l a r kids :
  defineRows x v (Element i l a r kids) =
  Element i l a (if i =? x then Some v else r) (map (defineRows x v) kids).
Proof. reflexivity. Qed.



Lemma defineRows_elements x v n :
  elements (defineRows x v n) = map (defineRows x v) (elements n).
Proof.
  induction n as [d|i l a r kids IH] using Node_ind'; [reflexivity|].
  rewrite defineRows_Element.
  change (elements (Element i l a r kids))
    with (Element i l a r kids :: flat_map elements kids).
  cbn [elements map]. rewrite <- defineRows_Element. f_equal.
  induction IH as [|k kids Hk _ IHk]; [reflexivity|].
  cbn [map flat_map]. rewrite map_app, Hk, IHk. reflexivity.
Qed.







Lemma find_map_comm {A} (f : A -> A) (p : A -> bool) l :
  (forall a, p (f a) = p a) ->
  find p (map f l) = option_map f (find p l).
Proof.
  intros H. induction l as [|a l IH]; [reflexivity|].
  cbn [map find]. rewrite H. destruct (p a); [reflexivity|exact IH].
Qed.

Lemma has_id_defineRows x v y n : has_id y (defineRows x v n) = has_id y n.
Proof. destruct n; reflexivity. Qed.

Lemma defineRows_subtree x v y n :
  subtree y (defineRows x v n) = option_map (defineRows x v) (subtree y n).
Proof.
  unfold subtree. rewrite defineRows_elements.
  apply find_map_comm. intros a. apply has_id_defineRows.
Qed.

Lemma defineRowsIn_element_of x v y d :
  element_of (defineRowsIn x v d) y = option_map (defineRows x v) (element_of d y).
Proof.
  unfold element_of, defineRowsIn. cbn [documentElement].
  destruct (documentElement d) as [r|]; [|reflexivity].
  cbn [option_map]. apply defineRows_subtree.
Qed.


(** One step of the table loop. *)
Definition attach_step (d : Document) (table : nat) : Document :=
  match element_of d table with
  | Some t => defineRowsIn table (ids_of (querySelectorAll_in (tagSel "tr") t)) d
  | None => d
  end.

Lemma attachRows_unfold d main :
  attachRows d main =
  match element_of d main with
  | Some m => fold_left attach_step (ids_of (querySelectorAll_in (tagSel "table") m)) d
  | None => d
  end.
Proof. reflexivity. Qed.








Lemma children_elements m t :
  In t (flat_map elements (children m)) -> In t (elements m).
Proof.
  destruct m as [d|i l a rw kids]; [intros []|]. intros H. now right.
Qed.

End TableFacts.

(* ================================================================== *)
(** * Claims about tables *)
(* ================================================================== *)

Module TableClaims.
Import DomFacts TableFacts CommonMark Gfm Examples RuleClaims.


Lemma table_not_blank a kids : isBlank (MElem (js "table") a kids) = false.
Proof. reflexivity. Qed.



End TableClaims.

(* ================================================================== *)
(** * Independence from the identities of the objects *)
(* ================================================================== *)

Module ShiftFacts.
Import DomFacts TableFacts.



Local Abbreviation up k := (fun x : nat => x + k).

Lemma Markup_ind' (P : Markup -> Prop) :
  (forall d, P (MText d)) ->
  (forall n a kids, Forall P kids -> P (MElem n a kids)) ->
  forall t, P t.
Proof.
  intros HT HE. fix IH 1. intros [d|n a kids]; [apply HT|apply HE].
  induction kids as [|k kids IHk]; constructor; [apply IH|exact IHk].
Qed.




(** ** Reading a shifted document *)


























(** ** Sets *)







(** ** Mutation *)







(** ** The steps of the conversion *)















End ShiftFacts.

(* ================================================================== *)
(** * Claims about determinism *)
(* ================================================================== *)

Module DeterminismClaims.
Import ShiftFacts Examples.




End DeterminismClaims.

(* ================================================================== *)
(** * Further properties: what the converter does on three kinds of page *)
(* ================================================================== *)

Module Robustness.
Import DomFacts CleanupClaims RuleClaims TableClaims CommonMark Gfm Examples.

(** As soon as one content selector matches an element of the document,
    the cleanup pass removes nothing: the preserved set then holds the
    root element, which contains every element. For
    [<nav>Menu</nav><article>Real content</article><footer>Legal</footer>]
    the nav and the footer are still in the document after the pass. *)
Theorem cleanupDocument_keeps_all_beside_content d sel e :
  In sel contentSelectors -> In e (querySelectorAll sel d) ->
  cleanupDocument d = d.
Proof.
  intros Hsel He. apply cleanupDocument_preserved.
  assert (Hx : exists x, node_id e = Some x).
  { apply (doc_elements_are_elements d). rewrite querySelectorAll_filter in He.
    apply filter_In in He. tauto. }
  destruct Hx as [x Hx].
  assert (Hin : In x (contentElements d)).
  { apply (contentElements_match d sel x Hsel). apply ids_of_In. exists e.
    split; assumption. }
  intros E. rewrite E in Hin. exact Hin.
Qed.

(** The property at the page with a nav, an article and a footer. *)
Lemma cleanupDocument_keeps_all_beside_content_witness :
  In (tagSel "article") contentSelectors /\
  cleanupDocument chrome_document = chrome_document.
Proof.
  split; [vm_compute; tauto|].
  refine (cleanupDocument_keeps_all_beside_content chrome_document (tagSel "article")
            (Element 4 (js "article") [] None [Text (js "Real content")]) _ _).
  - vm_compute. tauto.
  - vm_compute. tauto.
Defined.

(** Where the host defines no global [HTMLElement] (as under Node.js), a
    converter built with [imgDataUrlToObjectUrl] raises a [ReferenceError]
    on every element that is not blank and that no later-registered rule
    matches: the filter of the data-URL rule reads [HTMLElement] before it
    looks at the element. *)
Theorem dataUrlRule_needs_HTMLElement env ri g rules k n :
  HTMLElement env = None ->
  isBlank (self n) = false ->
  findRule (beforeDataUrl g rules) n = Ok None ->
  forNode (newConverter env (optionsOf ri g (Some true) rules k)) n =
  Throw HTMLElement_undefined.
Proof.
  intros HN Hb Hpre. unfold forNode. rewrite Hb, array_newConverter.
  rewrite app_assoc. fold (beforeDataUrl g rules).
  rewrite findRule_app, Hpre. cbn [bind].
  unfold earlyRules. cbn [flag_truthy app findRule].
  unfold filterValue. cbn [dataUrlRule filter]. unfold dataUrlFilter.
  rewrite HN. reflexivity.
Qed.

(** The property at an ordinary image, with the default rules. *)
Lemma dataUrlRule_needs_HTMLElement_witness :
  forNode (newConverter exampleEnv (optionsOf None None (Some true) None None))
          plain_image = Throw HTMLElement_undefined /\
  fst (htmlToMarkdown exampleEnv
         (newConverter exampleEnv (optionsOf None None (Some true) None None))
         image_html None 0) = Throw HTMLElement_undefined.
Proof.
  split; [|vm_compute; reflexivity].
  refine (dataUrlRule_needs_HTMLElement exampleEnv None None None None plain_image _ _ _).
  - reflexivity.
  - reflexivity.
  - reflexivity.
Defined.

(** With the GFM table rules enabled, a table without any row makes the
    conversion fail: the table rule inspects the first row of the table,
    and there is none. The [rows] property that [htmlToMarkdown] defines
    on the tables of the document does not change this. *)
Theorem rowless_table_raises env ri g d rules k n a kids :
  self n = MElem (js "table") a kids ->
  noGfm_truthy g = false ->
  rows0 n = None ->
  forNode (newConverter env (optionsOf ri g d rules k)) n = Throw undefined_parentNode.
Proof.
  intros Hn Hg Hr. unfold forNode. rewrite Hn, table_not_blank, array_newConverter.
  unfold lateRules. rewrite Hg. unfold gfmRules. cbn [app findRule].
  assert (Ht : filterValue taskListItemsRule n = Ok false).
  { unfold filterValue. cbn [taskListItemsRule rule filter]. rewrite Hn. reflexivity. }
  assert (Hs : filterValue tableSection n = Ok false).
  { unfold filterValue. cbn [tableSection rule filter]. rewrite Hn. reflexivity. }
  assert (Hf : filterValue table n = Throw undefined_parentNode).
  { unfold filterValue. cbn [table rule filter]. rewrite Hn.
    change (name_is (js "table") (MElem (js "table") a kids)) with true.
    cbn iota. unfold firstRowIsHeading. rewrite Hr. reflexivity. }
  rewrite Ht. cbn [bind]. rewrite Hs. cbn [bind]. rewrite Hf. reflexivity.
Qed.

(** The property at [<table></table>], and the conversion of that page. *)
Lemma rowless_table_raises_witness :
  forNode (newConverter exampleEnv None) (top (el "table" [])) =
    Throw undefined_parentNode /\
  convert None empty_table_html = Throw undefined_parentNode.
Proof.
  split; [|vm_compute; reflexivity].
  exact (rowless_table_raises exampleEnv None None None None None
           (top (el "table" [])) [] [] eq_refl eq_refl eq_refl).
Defined.

End Robustness.

(* ================================================================== *)
(** * Further properties of the converter and of the command line *)
(* ================================================================== *)

Module TidyProps.
Import RegexFacts TidyFacts.

(** For every input, the result of [tidyMarkdown] neither starts nor ends
    with a white-space code unit, and none of its lines starts with a
    space or a tab. *)
Theorem tidyMarkdown_is_trimmed_and_unindented x :
  (forall c tl, tidyMarkdown x = c :: tl -> isSpace c = false) /\
  (forall front c, tidyMarkdown x = front ++ [c] -> isSpace c = false) /\
  indent_free true (tidyMarkdown x) = true.
Proof.
  rewrite tidyMarkdown_passes.
  set (y := indent_pass (squeeze_pass (link_pass x))).
  split; [|split].
  - intros c tl E.
    pose proof (trimEnd_head (trimStart y) (trimStart_head y)) as H.
    unfold trim in E. rewrite E in H. exact H.
  - intros front c E. unfold trim, trimEnd in E.
    pose proof (trimStart_head (rev (trimStart y))) as H.
    apply (f_equal (@rev N)) in E. rewrite rev_involutive, rev_app_distr in E.
    cbn [rev app] in E. rewrite E in H. exact H.
  - apply trim_indent_free. unfold y. rewrite indent_pass_strip.
    apply strip_indent_free.
Qed.

End TidyProps.

Module FetchProps.
Import Examples FormatClaims Samples.

Lemma field_some label c u : field label (Some (c :: u)) = [LF; LF] ++ js label ++ c :: u.
Proof. reflexivity. Qed.

Lemma htmlToMarkdown_Ok env svc html url w out :
  fst (htmlToMarkdown env svc html url w) = Ok out ->
  exists document body,
    out = header (titleOf document) url (extractPublishedTime env document) ++ nl ++ body.
Proof.
  unfold htmlToMarkdown.
  destruct (JSDOM env (cleanHTML html) url w) as [[document|e] w1]; cbn [fst bind].
  - intros C. apply convertDocument_format in C as [body C]. now exists document, body.
  - intros C. discriminate C.
Qed.

(** When the fetch succeeds and the page converts, [urlToMarkdown] returns
    the conversion of the fetched data with the address as source: the
    output starts with the title line, followed by a blank line and the
    line ["URL Source: "] with the address that was fetched. *)
Theorem urlToMarkdown_names_its_source env svc url w data out :
  axios_get env url = Resolved data ->
  url <> [] ->
  fst (urlToMarkdown env svc url w) = Ok out ->
  fst (htmlToMarkdown env svc data (Some url) w) = Ok out /\
  exists title rest,
    out = js "Title: " ++ title ++ [LF; LF] ++ js "URL Source: " ++ url ++ rest.
Proof.
  intros Hget Hurl Hout. unfold urlToMarkdown in Hout. rewrite Hget in Hout.
  assert (E : fst (htmlToMarkdown env svc data (Some url) w) = Ok out).
  { destruct (htmlToMarkdown env svc data (Some url) w) as [[md|e] w'];
      cbn [fst] in Hout |- *; [exact Hout|].
    destruct e; discriminate Hout. }
  split; [exact E|].
  destruct (htmlToMarkdown_Ok env svc data (Some url) w out E) as [document [body ->]].
  destruct url as [|c u]; [contradiction|].
  exists (titleOf document).
  exists (field "Published Time: " (extractPublishedTime env document) ++
          [LF; LF] ++ js "Markdown Content:" ++ nl ++ body).
  rewrite header_fields, field_some. rewrite <- !app_assoc. reflexivity.
Qed.

Lemma urlToMarkdown_names_its_source_witness :
  fst (htmlToMarkdown exampleEnv (newConverter exampleEnv None) title_html
         (Some good_url) 0) = Ok fetched_output /\
  exists title rest,
    fetched_output =
    js "Title: " ++ title ++ [LF; LF] ++ js "URL Source: " ++ good_url ++ rest.
Proof.
  refine (urlToMarkdown_names_its_source exampleEnv (newConverter exampleEnv None)
            good_url 0 title_html fetched_output eq_refl _ _).
  - discriminate.
  - vm_compute. reflexivity.
Defined.
(** An [Error] raised while the fetched page is converted is reported like
    a failed fetch: [urlToMarkdown] raises ["Failed to fetch URL: "]
    followed by the message of the conversion error, although the fetch
    succeeded. *)
Theorem conversion_error_is_reported_as_fetch_failure env svc url w data name message :
  axios_get env url = Resolved data ->
  fst (htmlToMarkdown env svc data (Some url) w) = Throw (ErrorObj name message) ->
  fst (urlToMarkdown env svc url w) = Throw (wrapped message).
Proof.
  intros Hget Hconv. unfold urlToMarkdown. rewrite Hget.
  destruct (htmlToMarkdown env svc data (Some url) w) as [[md|e] w'];
    cbn [fst] in Hconv |- *; [discriminate Hconv|].
  inversion Hconv; subst e. reflexivity.
Qed.

Lemma conversion_error_is_reported_as_fetch_failure_witness :
  fst (urlToMarkdown emptyTableEnv (newConverter emptyTableEnv None) good_url 0) =
  Throw (wrapped (js "Cannot read properties of undefined (reading 'parentNode')")).
Proof.
  refine (conversion_error_is_reported_as_fetch_failure emptyTableEnv
            (newConverter emptyTableEnv None) good_url 0 empty_table_html
            (js "TypeError") _ eq_refl _).
  vm_compute. reflexivity.
Defined.

End FetchProps.

Module CleanupProps.
Import DomFacts CleanupClaims TableFacts Examples.

(** [x] is the element with identity [a] or lies below it. *)
Definition inside (n : Node) (a x : nat) : Prop :=
  exists s, In s (elements n) /\ node_id s = Some a /\ In x (ids s).

Definition doc_inside (d : Document) (a x : nat) : Prop :=
  match documentElement d with Some r => inside r a x | None => False end.

Lemma prune_ids_incl y n n' : prune y n = Some n' -> incl (ids n') (ids n).
Proof.
  intros P x Hx. apply prune_heads in P as [P _].
  apply heads_ids in Hx as [l [a Hx]]. apply heads_ids. exists l, a. now apply P.
Qed.

Lemma in_prune_list y kids k' :
  In k' (prune_list y kids) <-> exists k, In k kids /\ prune y k = Some k'.
Proof.
  unfold prune_list. rewrite in_flat_map. split.
  - intros [k [Hk Hin]]. exists k. split; [exact Hk|].
    destruct (prune y k) as [k2|]; [|contradiction].
    destruct Hin as [->|[]]. reflexivity.
  - intros [k [Hk P]]. exists k. split; [exact Hk|]. rewrite P. now left.
Qed.

Lemma inside_child i l a r kids k b x :
  In k kids -> inside k b x -> inside (Element i l a r kids) b x.
Proof.
  intros Hk [s [Hs [Hid Hx]]]. exists s. split; [|now split].
  cbn [elements]. right. apply in_flat_map. now exists k.
Qed.

Lemma prune_inside y n : forall n',
  prune y n = Some n' -> forall a x, inside n' a x -> inside n a x.
Proof.
  induction n as [t|i l at_ r kids IH] using Node_ind'; intros n' P a x.
  - cbn [prune] in P. inversion P; subst n'. intros H. exact H.
  - rewrite prune_Element in P. destruct (i =? y); [discriminate P|].
    inversion P; subst n'. clear P.
    intros [s [Hs [Hid Hx]]]. cbn [elements] in Hs. destruct Hs as [<-|Hs].
    + cbn [node_id] in Hid.
      exists (Element i l at_ r kids). split; [cbn [elements]; now left|].
      split; [exact Hid|].
      cbn [ids] in Hx |- *. destruct Hx as [Hx|Hx]; [now left|right].
      apply in_flat_map in Hx as [k' [Hk' Hx]].
      apply in_prune_list in Hk' as [k [Hk Pk]].
      apply in_flat_map. exists k. split; [exact Hk|].
      exact (prune_ids_incl y k k' Pk x Hx).
    + apply in_flat_map in Hs as [k' [Hk' Hs]].
      apply in_prune_list in Hk' as [k [Hk Pk]].
      rewrite Forall_forall in IH.
      apply (inside_child i l at_ r kids k a x Hk).
      apply (IH k Hk k' Pk). exists s. now split.
Qed.



Lemma remove_inside y d a x : doc_inside (remove y d) a x -> doc_inside d a x.
Proof.
  unfold doc_inside, remove. cbn [documentElement].
  destruct (documentElement d) as [r|]; [|intros []].
  destruct (prune y r) as [r'|] eqn:P; [|intros []].
  now apply (prune_inside y r r' P).
Qed.

Lemma removeEach_inside els : forall d a x,
  doc_inside (removeEach els d) a x -> doc_inside d a x.
Proof.
  unfold removeEach. induction els as [|y els IH]; intros d a x H; [exact H|].
  cbn [fold_left] in H. apply IH in H. now apply remove_inside in H.
Qed.


(** Elements of a document whose heads all come from another document
    match a selector only if an element of that document does. *)
Lemma query_ids_incl sel d d' :
  incl (doc_heads d') (doc_heads d) ->
  incl (ids_of (querySelectorAll sel d')) (ids_of (querySelectorAll sel d)).
Proof.
  intros Hincl y Hy. apply ids_of_In in Hy as [g' [Hg' Hid]].
  rewrite querySelectorAll_filter in Hg'. apply filter_In in Hg' as [Hg' M].
  assert (Hh : In (head_of g') (doc_heads d)).
  { apply Hincl. rewrite doc_heads_elements. apply in_map. exact Hg'. }
  rewrite doc_heads_elements in Hh. apply in_map_iff in Hh as [g [Hh Hg]].
  apply ids_of_In. exists g. split.
  - rewrite querySelectorAll_filter. apply filter_In. split; [exact Hg|].
    now rewrite (matches_head sel g g' Hh).
  - now rewrite (node_id_head g g' Hh).
Qed.

Lemma sweep_all_inside sels : forall d a x,
  doc_inside (sweep_all sels d) a x -> doc_inside d a x.
Proof.
  unfold sweep_all. induction sels as [|sel sels IH]; intros d a x H; [exact H|].
  cbn [fold_left] in H. apply IH in H. now apply removeEach_inside in H.
Qed.



Lemma contentElements_nil d :
  contentElements d = [] <->
  (forall sel, In sel contentSelectors -> ids_of (querySelectorAll sel d) = []).
Proof.
  split.
  - intros E sel Hsel.
    destruct (ids_of (querySelectorAll sel d)) as [|x l] eqn:Q; [reflexivity|].
    exfalso. assert (Hx : In x (contentElements d)).
    { apply (contentElements_match d sel x Hsel). rewrite Q. now left. }
    rewrite E in Hx. exact Hx.
  - rewrite contentElements_unfold.
    assert (A : forall sels set,
               (forall sel, In sel sels -> ids_of (querySelectorAll sel d) = []) ->
               fold_left (fun set sel =>
                            fold_left (mark d) (ids_of (querySelectorAll sel d)) set)
                         sels set = set).
    { induction sels as [|s sels IH]; intros set H; [reflexivity|].
      cbn [fold_left]. rewrite (H s (or_introl eq_refl)). cbn [fold_left].
      apply IH. intros sel Hsel. apply H. now right. }
    apply A.
Qed.

Lemma sweep_all_fixed sels : forall d,
  (forall sel, In sel sels -> ids_of (querySelectorAll sel d) = []) ->
  sweep_all sels d = d.
Proof.
  unfold sweep_all. induction sels as [|s sels IH]; intros d H; [reflexivity|].
  cbn [fold_left]. rewrite (H s (or_introl eq_refl)).
  unfold removeEach at 2. cbn [fold_left]. apply IH. intros sel Hsel. apply H. now right.
Qed.

(** Running the cleanup pass a second time changes nothing. *)
Theorem cleanupDocument_idempotent d :
  cleanupDocument (cleanupDocument d) = cleanupDocument d.
Proof.
  destruct (contentElements d) as [|c ce] eqn:CE.
  - rewrite (cleanupDocument_unpreserved d CE).
    set (d' := sweep_all selectorsToRemove d).
    pose proof (sweep_all_heads selectorsToRemove d) as [Hh Hm]. fold d' in Hh, Hm.
    assert (CE' : contentElements d' = []).
    { apply contentElements_nil. intros sel Hsel.
      pose proof (query_ids_incl sel d d' Hh) as I.
      rewrite (proj1 (contentElements_nil d) CE sel Hsel) in I.
      destruct (ids_of (querySelectorAll sel d')) as [|x l]; [reflexivity|].
      destruct (I x (or_introl eq_refl)). }
    rewrite (cleanupDocument_unpreserved d' CE').
    apply sweep_all_fixed. intros sel Hsel.
    rewrite querySelectorAll_filter.
    assert (F : List.filter (matches sel) (doc_elements d') = []).
    { assert (H : forall g, In g (doc_elements d') -> matches sel g = false)
        by (intros g; apply (Hm sel g Hsel)).
      revert H. generalize (doc_elements d') as l. clear.
      induction l as [|g l IH]; intros H; [reflexivity|].
      cbn [List.filter]. rewrite (H g (or_introl eq_refl)).
      apply IH. intros g' Hg'. apply H. now right. }
    rewrite F. reflexivity.
  - assert (NE : contentElements d <> []) by (rewrite CE; discriminate).
    rewrite (cleanupDocument_preserved d NE). apply (cleanupDocument_preserved d NE).
Qed.



End CleanupProps.

Module ContentProps.
Import DomFacts CleanupClaims TableFacts CleanupProps Examples Samples.










End ContentProps.

Module MetadataProps.
Import ContentProps Examples Samples.

Lemma hd_error_In {A} (l : list A) x : hd_error l = Some x -> In x l.
Proof. destruct l as [|a l]; [discriminate|]. cbn. intros H. left. congruence. Qed.






End MetadataProps.

Module EngineProps.
Import CommonMark Gfm DomFacts CleanupClaims TableFacts RuleClaims ShiftFacts.

Lemma findRule_total l n :
  Forall total_rule l ->
  exists o, findRule l n = Ok o /\ (forall r, o = Some r -> total_rule r).
Proof.
  induction l as [|x l IH]; intros F.
  - exists None. split; [reflexivity|discriminate].
  - inversion F as [|? ? Hx Hl]; subst. cbn [findRule].
    destruct (proj1 Hx n) as [b Hb]. rewrite Hb. cbn [bind]. destruct b.
    + exists (Some x). split; [reflexivity|]. intros r E. inversion E; subst. exact Hx.
    + apply IH. exact Hl.
Qed.

Lemma blankRule_total : total_rule blankRule.
Proof. split; intros; eexists; reflexivity. Qed.

Lemma defaultRule_total : total_rule defaultRule.
Proof. split; intros; eexists; reflexivity. Qed.

Lemma forNode_total rs n :
  total_rules rs -> exists r, forNode rs n = Ok r /\ total_rule r.
Proof.
  intros [Ha [Hk Hr]]. unfold forNode.
  destruct (isBlank (self n)); [exists blankRule; split; [reflexivity|apply blankRule_total]|].
  destruct (findRule_total (array rs) n Ha) as [[r|] [E T]]; rewrite E; cbn [bind].
  { exists r. split; [reflexivity|now apply T]. }
  destruct (findRule_total (_keep rs) n Hk) as [[r|] [E2 T2]]; rewrite E2; cbn [bind].
  { exists r. split; [reflexivity|now apply T2]. }
  destruct (findRule_total (_remove rs) n Hr) as [[r|] [E3 T3]]; rewrite E3; cbn [bind].
  { exists r. split; [reflexivity|now apply T3]. }
  exists defaultRule. split; [reflexivity|apply defaultRule_total].
Qed.

Lemma replacementFor_total rs :
  total_rules rs ->
  forall x up l r, exists out, replacementFor rs up l r x = Ok out.
Proof.
  intros T. induction x as [d|n a kids IH] using Markup_ind'; intros up l r.
  - cbn [replacementFor]. eexists. reflexivity.
  - cbn [replacementFor].
    destruct (forNode_total rs {| self := MElem n a kids; left := l; right := r; above := up |} T)
      as [rule [E Tr]].
    rewrite E. cbn [bind].
    match goal with
    | |- context [?f [] kids []] =>
        match f with
        | (fix process (done todo : list Markup) (output : jsstring) {struct todo}
             : Result jsstring := _) => set (proc := f)
        end
    end.
    assert (P : forall todo done output,
               Forall (fun k => forall up l r, exists out,
                                  replacementFor rs up l r k = Ok out) todo ->
               exists o, proc done todo output = Ok o).
    { induction todo as [|k todo IHt]; intros done output F.
      - eexists. reflexivity.
      - inversion F as [|? ? Hk Ht]; subst.
        change (proc done (k :: todo) output)
          with (piece <- replacementFor rs
                           (frame_of {| self := MElem n a kids; left := l; right := r;
                                        above := up |} :: up) done todo k ;;
                proc (done ++ [k]) todo (join2 output piece)).
        destruct (Hk (frame_of {| self := MElem n a kids; left := l; right := r;
                                  above := up |} :: up) done todo) as [piece Ep].
        rewrite Ep. cbn [bind]. apply IHt. exact Ht. }
    destruct (P kids [] [] IH) as [content Ec]. rewrite Ec. cbn [bind].
    match goal with
    | |- context [replacement rule ?c ?nn] =>
        destruct (proj2 Tr c nn) as [out Eo]; rewrite Eo
    end.
    cbn [bind]. eexists. reflexivity.
Qed.

Lemma process_root_total rs :
  total_rules rs ->
  forall todo done output, exists out, process_root rs done todo output = Ok out.
Proof.
  intros T. induction todo as [|k todo IH]; intros done output.
  - eexists. reflexivity.
  - cbn [process_root].
    destruct (replacementFor_total rs T k [] done todo) as [piece E].
    rewrite E. cbn [bind]. apply IH.
Qed.

Lemma turndown_total root rs input :
  total_rules rs -> exists out, turndown root rs input = Ok out.
Proof.
  intros T. unfold turndown. destruct input as [|x input]; [eexists; reflexivity|].
  destruct (process_root_total rs T (root (x :: input)) [] []) as [out E].
  rewrite E. cbn [bind]. eexists. reflexivity.
Qed.

(** ** The rules of a converter without GFM *)

Lemma improvedParagraph_total : total_rule improvedParagraph.
Proof.
  split.
  - intros n. eexists. reflexivity.
  - intros content n. cbn [improvedParagraph rule replacement].
    destruct (negb (truthy (trim content))); eexists; reflexivity.
Qed.

Lemma keyed_total kv : total_rule (snd kv) -> total_rule (keyed kv).
Proof. intros [F R]. split; [intros n; rewrite filterValue_keyed; apply F|exact R]. Qed.

Lemma dataUrlRule_total env : HTMLElement env <> None -> total_rule (dataUrlRule env).
Proof.
  intros H. split.
  - intros n. unfold filterValue. cbn [dataUrlRule filter]. unfold dataUrlFilter.
    destruct (HTMLElement env) as [f|]; [|contradiction].
    destruct (negb (f (self n))); eexists; reflexivity.
  - intros content n. eexists. reflexivity.
Qed.

Lemma earlyRules_total env d :
  (flag_truthy d = true -> HTMLElement env <> None) ->
  Forall total_rule (earlyRules env d).
Proof.
  intros H. unfold earlyRules. apply Forall_app. split.
  - destruct (flag_truthy d); [|constructor].
    constructor; [|constructor]. apply dataUrlRule_total. now apply H.
  - repeat constructor; intros; eexists; reflexivity.
Qed.

Lemma keep_newConverter env ri g d rules k :
  noGfm_truthy g = true ->
  _keep (newConverter env (optionsOf ri g d rules k)) =
  match k with
  | Some f => if filter_truthy f then [keepRule f] else []
  | None => []
  end /\
  _remove (newConverter env (optionsOf ri g d rules k)) = [].
Proof.
  intros Hg.
  unfold newConverter, configureTurndownService, optionsOf, opt.
  cbn [noGfm imgDataUrlToObjectUrl customRules customKeep].
  rewrite Hg. cbn [negb].
  assert (A : forall l rs, _keep (addCustomRules l rs) = _keep rs /\
                           _remove (addCustomRules l rs) = _remove rs).
  { unfold addCustomRules. induction l as [|kv l IH]; intros rs; [split; reflexivity|].
    cbn [fold_left]. destruct (IH (addRule (fst kv) (snd kv) rs)) as [A1 A2].
    rewrite A1, A2. split; reflexivity. }
  destruct k as [f|]; [destruct (filter_truthy f)|]; destruct (flag_truthy d);
    destruct rules as [l|]; cbn [add keep _keep _remove];
    try (destruct (A l (add (dataUrlRule env) (add titleAsH1 (add truncateSvg (add removeIrrelevant
            (keep f {| array := builtin env; _keep := []; _remove := [] |})))))) as [-> ->]);
    try (destruct (A l (add titleAsH1 (add truncateSvg (add removeIrrelevant
            (keep f {| array := builtin env; _keep := []; _remove := [] |}))))) as [-> ->]);
    try (destruct (A l (add (dataUrlRule env) (add titleAsH1 (add truncateSvg (add removeIrrelevant
            {| array := builtin env; _keep := []; _remove := [] |}))))) as [-> ->]);
    try (destruct (A l (add titleAsH1 (add truncateSvg (add removeIrrelevant
            {| array := builtin env; _keep := []; _remove := [] |})))) as [-> ->]);
    split; reflexivity.
Qed.

Lemma newConverter_total env ri g d rules k :
  noGfm_truthy g = true ->
  (flag_truthy d = true -> HTMLElement env <> None) ->
  Forall total_rule (builtin env) ->
  (forall l kv, rules = Some l -> In kv l -> total_rule (snd kv)) ->
  (forall f, k = Some f -> total_rule (keepRule f)) ->
  total_rules (newConverter env (optionsOf ri g d rules k)).
Proof.
  intros Hg Hd Hb Hc Hk. unfold total_rules.
  destruct (keep_newConverter env ri g d rules k Hg) as [-> ->].
  rewrite array_newConverter. unfold lateRules. rewrite Hg. cbn [app].
  split; [|split].
  - constructor; [apply improvedParagraph_total|].
    apply Forall_app. split; [|apply Forall_app; split].
    + apply Forall_forall. intros r Hr. apply in_rev in Hr.
      apply in_map_iff in Hr as [kv [<- Hin]]. apply keyed_total.
      destruct rules as [l|]; [|destruct Hin]. now apply (Hc l kv).
    + now apply earlyRules_total.
    + exact Hb.
  - destruct k as [f|]; [|constructor]. destruct (filter_truthy f); [|constructor].
    constructor; [|constructor]. now apply Hk.
  - constructor.
Qed.

Lemma commonmarkRules_total : Forall total_rule commonmarkRules.
Proof.
  unfold commonmarkRules.
  repeat (constructor; [split; [intros n; eexists; reflexivity|]|]).
  - intros content n. eexists. reflexivity.
  - intros content n. eexists. reflexivity.
  - intros content n. cbn [heading rule replacement].
    match goal with |- context [if ?b then _ else _] => destruct b end;
      eexists; reflexivity.
  - intros content n. eexists. reflexivity.
  - intros content n. cbn [listRule rule replacement].
    match goal with |- context [if ?b then _ else _] => destruct b end;
      eexists; reflexivity.
  - intros content n. eexists. reflexivity.
  - intros content n. cbn [emphasis rule replacement].
    match goal with |- context [if ?b then _ else _] => destruct b end;
      eexists; reflexivity.
  - intros content n. cbn [strong rule replacement].
    match goal with |- context [if ?b then _ else _] => destruct b end;
      eexists; reflexivity.
  - intros content n. cbn [image rule replacement].
    match goal with |- context [if truthy ?b then Ok _ else Ok []] => destruct (truthy b) end;
      eexists; reflexivity.
  - constructor.
Qed.

End EngineProps.

Module ConvertProps.
Import CommonMark Gfm DomFacts CleanupClaims TableFacts RuleClaims CleanupProps
       ContentProps MetadataProps EngineProps Examples Samples.

Lemma fold_hostname {A} (f : Document -> A -> Document) l :
  (forall d x, hostname (f d x) = hostname d) ->
  forall d, hostname (fold_left f l d) = hostname d.
Proof.
  intros H. induction l as [|x l IH]; intros d; [reflexivity|].
  cbn [fold_left]. rewrite IH. apply H.
Qed.

Lemma cleanupDocument_hostname d : hostname (cleanupDocument d) = hostname d.
Proof.
  rewrite cleanupDocument_unfold. apply fold_hostname. intros d' sel.
  apply fold_hostname. intros d2 el. unfold sweep_step.
  destruct (negb _ && negb _); reflexivity.
Qed.

Lemma find_exists {A} (p : A -> bool) l e :
  In e l -> p e = true -> exists y, find p l = Some y.
Proof.
  induction l as [|a l IH]; intros He Hp; [destruct He|].
  cbn [find]. destruct (p a) eqn:Pa; [now exists a|].
  destruct He as [->|He]; [congruence|]. now apply IH.
Qed.

Lemma element_of_present d e x :
  In e (doc_elements d) -> node_id e = Some x -> exists t, element_of d x = Some t.
Proof.
  unfold doc_elements, element_of, subtree.
  destruct (documentElement d) as [r|]; [|intros []].
  intros He Hx. apply (find_exists _ _ e He).
  destruct e as [t|i l a rw kids]; [discriminate Hx|].
  cbn [node_id] in Hx. inversion Hx; subst. cbn [has_id]. apply Nat.eqb_refl.
Qed.

Lemma attachRows_present d main x :
  (exists t, element_of d x = Some t) ->
  exists t, element_of (attachRows d main) x = Some t.
Proof.
  rewrite attachRows_unfold. destruct (element_of d main) as [m|]; [|intros H; exact H].
  generalize (ids_of (querySelectorAll_in (tagSel "table") m)) as tables.
  intros tables. revert d. induction tables as [|y tables IH]; intros d H; [exact H|].
  cbn [fold_left]. apply IH. unfold attach_step.
  destruct (element_of d y) as [t|]; [|exact H].
  rewrite defineRowsIn_element_of. destruct H as [t' ->]. eexists. reflexivity.
Qed.

Lemma firstMatch_element d x :
  firstMatch d = Some x -> exists e, In e (doc_elements d) /\ node_id e = Some x.
Proof.
  unfold firstMatch. intros H. apply hd_error_In in H.
  apply in_flat_map in H as [sel [_ H]].
  destruct (querySelector sel d) as [e|] eqn:Q; [|destruct H].
  apply ids_of_In in H as [e' [[<-|[]] Hx]].
  exists e. split; [|exact Hx].
  unfold querySelector in Q. apply hd_error_In in Q.
  rewrite querySelectorAll_filter in Q. apply filter_In in Q. tauto.
Qed.

Lemma body_element d b :
  body d = Some b -> exists x, In b (doc_elements d) /\ node_id b = Some x.
Proof.
  unfold body, doc_elements. destruct (documentElement d) as [r|]; [|discriminate].
  destruct (tag_is (js "html") r); [|discriminate].
  intros F. apply find_some in F as [Hb Ht].
  assert (He : In b (elements r)).
  { apply children_elements. apply in_flat_map. exists b. split; [exact Hb|].
    destruct b as [t|i l a rw kids]; [discriminate Ht|]. cbn [elements]. now left. }
  destruct (elements_are_elements b r He) as [x Hx]. now exists x.
Qed.

Lemma extractMainContent_plain d :
  isWikipedia d = false ->
  extractMainContent d =
  (d, match firstMatch d with
      | Some el => Some el
      | None => match body d with Some b => node_id b | None => None end
      end).
Proof.
  intros W. unfold extractMainContent. rewrite W.
  destruct (firstMatch d); reflexivity.
Qed.

(** What [convertDocument] can do with rules that cannot throw, outside
    Wikipedia: it returns, unless there is no main content. *)
Lemma convertDocument_outcome env svc d url :
  total_rules svc -> isWikipedia d = false ->
  (forall x, snd (extractMainContent (cleanupDocument d)) = Some x ->
             exists out, convertDocument env svc d url = Ok out) /\
  (snd (extractMainContent (cleanupDocument d)) = None ->
   convertDocument env svc d url = Throw null_querySelectorAll).
Proof.
  intros T W.
  assert (W' : isWikipedia (cleanupDocument d) = false).
  { unfold isWikipedia in *. now rewrite cleanupDocument_hostname. }
  unfold convertDocument. rewrite (extractMainContent_plain _ W'). cbn [snd].
  set (dc := cleanupDocument d) in *.
  split.
  - intros x Hx. rewrite Hx.
    assert (P : exists t, element_of dc x = Some t).
    { destruct (firstMatch dc) as [el|] eqn:F.
      - inversion Hx; subst el.
        destruct (firstMatch_element dc x F) as [e [He Hid]].
        exact (element_of_present dc e x He Hid).
      - destruct (body dc) as [b|] eqn:B; [|discriminate Hx].
        destruct (body_element dc b B) as [y [Hb Hy]].
        rewrite Hy in Hx. inversion Hx; subst y.
        exact (element_of_present dc b x Hb Hy). }
    destruct (attachRows_present dc x x P) as [mc ->].
    destruct (turndown_total (rootNode env) svc (innerHTML mc) T) as [md ->].
    cbn [bind]. eexists. reflexivity.
  - intros Hn. rewrite Hn. reflexivity.
Qed.

Lemma JSDOM_no_url env html w :
  fst (JSDOM env html None w) =
  Ok {| documentElement := Some (fst (label w (parseHTML env html))); hostname := [] |}.
Proof.
  unfold JSDOM. destruct (label w (parseHTML env html)). reflexivity.
Qed.

Lemma htmlToMarkdown_no_url env svc html w :
  fst (htmlToMarkdown env svc html None w) =
  convertDocument env svc
    {| documentElement := Some (fst (label w (parseHTML env (cleanHTML html))));
       hostname := [] |} None.
Proof.
  unfold htmlToMarkdown.
  pose proof (JSDOM_no_url env (cleanHTML html) w) as J.
  destruct (JSDOM env (cleanHTML html) None w) as [dom w']. cbn [fst] in J |- *.
  rewrite J. reflexivity.
Qed.

Lemma content_match_gives_main d sel e :
  isWikipedia d = false ->
  In sel contentSelectors -> In e (querySelectorAll sel d) ->
  exists x, snd (extractMainContent (cleanupDocument d)) = Some x.
Proof.
  intros W Hsel He.
  assert (Hx : exists x, node_id e = Some x).
  { apply (doc_elements_are_elements d). rewrite querySelectorAll_filter in He.
    apply filter_In in He. tauto. }
  destruct Hx as [x Hx].
  assert (Hin : In x (contentElements d)).
  { apply (contentElements_match d sel x Hsel). apply ids_of_In. now exists e. }
  rewrite cleanupDocument_preserved by (intros E; rewrite E in Hin; exact Hin).
  rewrite (extractMainContent_plain _ W). cbn [snd].
  destruct (firstMatch d) as [el|] eqn:F; [now exists el|].
  exfalso. unfold firstMatch in F.
  assert (N : In sel contentSelectors ->
              flat_map (fun sel => match querySelector sel d with
                                   | Some el => ids_of [el]
                                   | None => []
                                   end) contentSelectors <> []).
  { generalize contentSelectors as sels.
    induction sels as [|s sels IH]; intros Hs; [destruct Hs|].
    cbn [flat_map]. destruct Hs as [->|Hs].
    - unfold querySelector. destruct (querySelectorAll sel d) as [|g l] eqn:Q;
        [destruct He|].
      cbn [hd_error].
      assert (Hg : In g (querySelectorAll sel d)) by (rewrite Q; now left).
      rewrite querySelectorAll_filter in Hg. apply filter_In in Hg as [Hg _].
      destruct (doc_elements_are_elements d g Hg) as [y Hy].
      unfold ids_of. cbn [flat_map]. rewrite Hy. discriminate.
    - intros E. apply app_eq_nil in E as [_ E]. now apply IH. }
  destruct (flat_map _ contentSelectors) as [|y l]; [now apply N|discriminate F].
Qed.

(** With GFM switched off and rules that cannot throw, [htmlToMarkdown]
    called without a url returns a result unless the document has no main
    content to offer, in which case it raises the [TypeError] of reading
    [querySelectorAll] of [null], and nothing else; it returns in
    particular whenever a content selector matches an element of the
    page. *)
Theorem htmlToMarkdown_returns_without_gfm env ri g d rules k html w :
  noGfm_truthy g = true ->
  (flag_truthy d = true -> HTMLElement env <> None) ->
  Forall total_rule (builtin env) ->
  (forall l kv, rules = Some l -> In kv l -> total_rule (snd kv)) ->
  (forall f, k = Some f -> total_rule (keepRule f)) ->
  let result :=
    fst (htmlToMarkdown env (newConverter env (optionsOf ri g d rules k)) html None w) in
  ((exists out, result = Ok out) \/ result = Throw null_querySelectorAll) /\
  (forall sel e,
     In sel contentSelectors ->
     In e (elements (fst (label w (parseHTML env (cleanHTML html))))) ->
     matches sel e = true ->
     exists out, result = Ok out).
Proof.
  intros Hg Hd Hb Hc Hk result. subst result.
  pose proof (newConverter_total env ri g d rules k Hg Hd Hb Hc Hk) as T.
  rewrite htmlToMarkdown_no_url.
  set (doc := {| documentElement := _; hostname := [] |}).
  assert (W : isWikipedia doc = false) by reflexivity.
  destruct (convertDocument_outcome env (newConverter env (optionsOf ri g d rules k))
              doc None T W) as [Hsome Hnone].
  split.
  - destruct (snd (extractMainContent (cleanupDocument doc))) as [x|] eqn:M.
    + left. now apply (Hsome x).
    + right. now apply Hnone.
  - intros sel e Hsel He M.
    destruct (content_match_gives_main doc sel e W Hsel) as [x Hx].
    + unfold querySelectorAll, doc. cbn [documentElement]. apply filter_In. now split.
    + now apply (Hsome x).
Qed.

Lemma htmlToMarkdown_returns_without_gfm_witness :
  exists out,
    fst (htmlToMarkdown exampleEnv (newConverter exampleEnv plainOptions)
           title_html None 0) = Ok out.
Proof.
  refine (proj2 (htmlToMarkdown_returns_without_gfm exampleEnv None
                   (Some (NoGfmBool true)) None None None title_html 0
                   eq_refl _ commonmarkRules_total _ _)
                (tagSel "article")
                (Element 4 (js "article") [] None
                   [Element 5 (js "h1") [] None [Text (js "Hi")];
                    Element 6 (js "p") [] None [Text (js "Hello world")]]) _ _ _).
  - discriminate.
  - discriminate.
  - discriminate.
  - vm_compute. tauto.
  - vm_compute. tauto.
  - reflexivity.
Defined.

End ConvertProps.

Module BodyProps.
Import CommonMark Gfm DomFacts CleanupClaims TableFacts RuleClaims CleanupProps
       ContentProps MetadataProps EngineProps ConvertProps Examples Samples.








End BodyProps.

Module RuleProps.
Import CommonMark Gfm RuleClaims EngineProps Examples Samples.



End RuleProps.

Module BaseRuleProps.
Import CommonMark Gfm RuleClaims EngineProps Examples Samples.




End BaseRuleProps.

Module CliProps.
Import Cli CliVocabulary Examples.

Lemma last_cons_default {A} (l : list A) a d : last (a :: l) d = last l a.
Proof.
  revert a d. induction l as [|b l IH]; intros a d; [reflexivity|].
  change (last (a :: b :: l) d) with (last (b :: l) d).
  rewrite (IH b d), (IH b a). reflexivity.
Qed.

Lemma not_flag s :
  is_flag s = false ->
  string_eqb s (js "-toFile") = false /\ string_eqb s (js "-type") = false.
Proof. unfold is_flag. intros H. apply orb_false_iff in H. exact H. Qed.

Lemma parseArgs_positional s rest v :
  is_flag s = false ->
  parseArgs (s :: rest) v =
  if negb (defined_truthy (input v))
  then parseArgs rest {| input := Some s; type := type v; outputFile := outputFile v |}
  else parseArgs rest v.
Proof.
  intros H. destruct (not_flag s H) as [H1 H2].
  cbn [parseArgs]. rewrite H1, H2. reflexivity.
Qed.

Lemma parseArgs_toFile value rest v :
  parseArgs (js "-toFile" :: value :: rest) v =
  parseArgs rest {| input := input v; type := type v; outputFile := Some value |}.
Proof. reflexivity. Qed.

Lemma parseArgs_type value rest v :
  parseArgs (js "-type" :: value :: rest) v =
  parseArgs rest {| input := input v; type := Some value; outputFile := outputFile v |}.
Proof. reflexivity. Qed.

(** The loop from any state, on a rendered command line followed by
    [tail]. *)
Lemma parseArgs_render_app l : forall v tail,
  well_formed l ->
  exists i,
    parseArgs (render l ++ tail) v =
    parseArgs tail {| input := i; type := last_of (types l) (type v);
                      outputFile := last_of (files l) (outputFile v) |} /\
    (if defined_truthy (input v) then i = input v
     else match find truthy (positionals l) with
          | Some s => i = Some s
          | None => defined_truthy i = false
          end).
Proof.
  induction l as [|a l IH]; intros v tail WF.
  - exists (input v). split; [destruct v; reflexivity|].
    destruct (defined_truthy (input v)); reflexivity.
  - assert (WF' : well_formed l) by (intros s Hs; apply WF; now right).
    destruct a as [s|value|value].
    + change (render (Positional s :: l) ++ tail) with (s :: (render l ++ tail)).
      rewrite parseArgs_positional by (apply WF; now left).
      change (types (Positional s :: l)) with (types l).
      change (files (Positional s :: l)) with (files l).
      change (positionals (Positional s :: l)) with (s :: positionals l).
      destruct (defined_truthy (input v)) eqn:D; cbn [negb].
      * destruct (IH v tail WF') as [i [E Hi]]. exists i. split; [exact E|].
        rewrite D in Hi. exact Hi.
      * destruct (IH {| input := Some s; type := type v; outputFile := outputFile v |}
                     tail WF') as [i [E Hi]].
        exists i. split; [exact E|]. cbn [input] in Hi. cbn [find].
        destruct s as [|c s]; cbn [defined_truthy truthy] in *.
        -- exact Hi.
        -- exact Hi.
    + change (render (ToFile value :: l) ++ tail)
        with (js "-toFile" :: value :: (render l ++ tail)).
      rewrite parseArgs_toFile.
      destruct (IH {| input := input v; type := type v; outputFile := Some value |}
                   tail WF') as [i [E Hi]].
      exists i. split.
      * rewrite E. unfold last_of. change (files (ToFile value :: l)) with (value :: files l).
        cbn [map]. rewrite last_cons_default. reflexivity.
      * exact Hi.
    + change (render (TypeOf value :: l) ++ tail)
        with (js "-type" :: value :: (render l ++ tail)).
      rewrite parseArgs_type.
      destruct (IH {| input := input v; type := Some value; outputFile := outputFile v |}
                   tail WF') as [i [E Hi]].
      exists i. split.
      * rewrite E. unfold last_of. change (types (TypeOf value :: l)) with (value :: types l).
        cbn [map]. rewrite last_cons_default. reflexivity.
      * exact Hi.
Qed.

(** The argument loop reads a command line as intended: the input is the
    first positional argument that is not empty, every later positional
    argument is ignored, and a flag given several times keeps its last
    value; a value is taken as it stands, even when it is spelled like a
    flag. Without [-type] the type is ["url"]. *)
Theorem parseArgs_render l :
  well_formed l ->
  let v := parseArgs (render l) initial in
  match find truthy (positionals l) with
  | Some s => input v = Some s
  | None => defined_truthy (input v) = false
  end /\
  type v = last_of (types l) (Some (js "url")) /\
  outputFile v = last_of (files l) None.
Proof.
  intros WF v. subst v.
  destruct (parseArgs_render_app l initial [] WF) as [i [E Hi]].
  rewrite app_nil_r in E. rewrite E. cbn [parseArgs input type outputFile initial] in *.
  split; [|split; reflexivity].
  destruct (find truthy (positionals l)); exact Hi.
Qed.

(** The command line [-type html <h1>Hi</h1> ignored -toFile a.md -toFile -type]:
    the second positional argument is ignored, and the file is the one
    named [-type]. *)
Lemma parseArgs_render_witness :
  input (parseArgs (render sample_line) initial) = Some (js "<h1>Hi</h1>") /\
  type (parseArgs (render sample_line) initial) = Some (js "html") /\
  outputFile (parseArgs (render sample_line) initial) = Some (js "-type").
Proof.
  refine (parseArgs_render sample_line _).
  intros s H. unfold sample_line in H.
  repeat (destruct H as [H|H]; [inversion H; reflexivity|]). destruct H.
Defined.

(** A flag at the very end of the command line has no value: the loop
    sets its variable to [undefined], dropping any value given before. *)
Theorem parseArgs_dangling_flag l :
  well_formed l ->
  type (parseArgs (render l ++ [js "-type"]) initial) = None /\
  outputFile (parseArgs (render l ++ [js "-type"]) initial) = last_of (files l) None /\
  outputFile (parseArgs (render l ++ [js "-toFile"]) initial) = None /\
  type (parseArgs (render l ++ [js "-toFile"]) initial) = last_of (types l) (Some (js "url")).
Proof.
  intros WF.
  destruct (parseArgs_render_app l initial [js "-type"] WF) as [i [E _]].
  destruct (parseArgs_render_app l initial [js "-toFile"] WF) as [i' [E' _]].
  rewrite E, E'. repeat split; reflexivity.
Qed.

Lemma parseArgs_dangling_flag_witness :
  type (parseArgs [js "http://up.test/"; js "-toFile"; js "a.md"; js "-type"] initial)
    = None /\
  outputFile (parseArgs [js "http://up.test/"; js "-toFile"; js "a.md"; js "-type"] initial)
    = Some (js "a.md") /\
  outputFile (parseArgs [js "http://up.test/"; js "-toFile"; js "a.md"; js "-toFile"] initial)
    = None /\
  type (parseArgs [js "http://up.test/"; js "-toFile"; js "a.md"; js "-toFile"] initial)
    = Some (js "url").
Proof.
  refine (parseArgs_dangling_flag [Positional good_url; ToFile (js "a.md")] _).
  intros s H.
  repeat (destruct H as [H|H]; [inversion H; reflexivity|]). destruct H.
Defined.

Lemma main_unfold env host node script args :
  main env host (node :: script :: args) =
  let v := parseArgs args initial in
  match input v with
  | Some (c :: i) =>
      match conversion env (type v) (c :: i) with
      | Ok markdown =>
          match outputFile v with
          | Some (o :: f) =>
              match writeFile host (resolve host (o :: f)) markdown with
              | None =>
                  [ WriteFile (resolve host (o :: f)) markdown;
                    ConsoleLog (js "Output saved to: " ++ resolve host (o :: f)) ]
              | Some error => report error
              end
          | _ => [ConsoleLog markdown]
          end
      | Throw error => report error
      end
  | _ => map ConsoleError usage ++ [Exit 1]
  end.
Proof. reflexivity. Qed.

(** Without a positional argument that is not empty, [main] prints the
    five usage lines to the error stream and exits with status 1; nothing
    is fetched, converted or written. *)
Theorem main_usage env host node script l :
  well_formed l ->
  find truthy (positionals l) = None ->
  main env host (node :: script :: render l) = map ConsoleError usage ++ [Exit 1].
Proof.
  intros WF Hnone. rewrite main_unfold. cbv zeta.
  destruct (parseArgs_render_app l initial [] WF) as [i [E Hi]].
  rewrite app_nil_r in E. rewrite E. cbn [parseArgs input initial defined_truthy] in *.
  rewrite Hnone in Hi. destruct i as [[|c i]|]; [reflexivity|discriminate Hi|reflexivity].
Qed.

(** [web-to-markdown -type html]: the value of the flag is no input. *)
Lemma main_usage_witness :
  main exampleEnv exampleHost [js "node"; js "cli.js"; js "-type"; js "html"] =
  map ConsoleError usage ++ [Exit 1].
Proof.
  refine (main_usage exampleEnv exampleHost (js "node") (js "cli.js")
            [TypeOf (js "html")] _ eq_refl).
  intros s H.
  repeat (destruct H as [H|H]; [inversion H|]). destruct H.
Defined.

(** With an input, [main] runs one conversion: a fetch of the input when
    the type is exactly ["url"] (the default), a conversion of the input
    as HTML for every other type. A failure of the conversion, or of
    writing the file, is reported on the error stream with status 1 and
    nothing else happens; a result goes to the standard output, or, with
    [-toFile], into the file, with one line that names it. *)
Theorem main_on_command_line env host node script l i :
  well_formed l ->
  find truthy (positionals l) = Some i ->
  let result := conversion env (last_of (types l) (Some (js "url"))) i in
  let target := last_of (files l) None in
  let trace := main env host (node :: script :: render l) in
  (forall error, result = Throw error -> trace = report error) /\
  (forall markdown,
     result = Ok markdown -> defined_truthy target = false ->
     trace = [ConsoleLog markdown]) /\
  (forall markdown file,
     result = Ok markdown -> target = Some file -> file <> [] ->
     match writeFile host (resolve host file) markdown with
     | None => trace = [ WriteFile (resolve host file) markdown;
                         ConsoleLog (js "Output saved to: " ++ resolve host file) ]
     | Some error => trace = report error
     end).
Proof.
  intros WF Hi result target trace. subst result target trace.
  rewrite main_unfold. cbv zeta.
  destruct (parseArgs_render_app l initial [] WF) as [i' [E Hi']].
  rewrite app_nil_r in E. rewrite E. cbn [parseArgs input type outputFile initial defined_truthy] in *.
  rewrite Hi in Hi'. subst i'.
  assert (Ht : truthy i = true) by (apply find_some in Hi; exact (proj2 Hi)).
  destruct i as [|c i]; [discriminate Ht|].
  split; [|split].
  - intros error R. rewrite R. reflexivity.
  - intros markdown R T. rewrite R.
    destruct (last_of (files l) None) as [[|o f]|]; [reflexivity|discriminate T|reflexivity].
  - intros markdown file R T NE. rewrite R, T.
    destruct file as [|o f]; [contradiction|].
    destruct (writeFile host (resolve host (o :: f)) markdown); reflexivity.
Qed.

(** A fetch that fails: one line on the error stream, status 1. *)
Lemma main_on_command_line_witness :
  main exampleEnv exampleHost [js "node"; js "cli.js"; failing_url] =
  [ConsoleError (js "Error: Failed to fetch URL: Network Error"); Exit 1].
Proof.
  refine (proj1 (main_on_command_line exampleEnv exampleHost (js "node") (js "cli.js")
                   [Positional failing_url] failing_url _ eq_refl)
                (wrapped (js "Network Error")) _).
  - intros s H.
    repeat (destruct H as [H|H]; [inversion H; reflexivity|]). destruct H.
  - vm_compute. reflexivity.
Defined.

(** Whatever the arguments, [main] does one of four things: it prints the
    usage and exits with 1; it prints one error line and exits with 1; it
    prints the result; or it writes the result to a file and prints the
    line that names the file. In particular the standard output is never
    written before a failure, and a file is only written with a complete
    result. *)
Theorem main_traces env host argv :
  main env host argv = map ConsoleError usage ++ [Exit 1] \/
  (exists message, main env host argv = [ConsoleError (js "Error: " ++ message); Exit 1]) \/
  (exists markdown, main env host argv = [ConsoleLog markdown]) \/
  (exists path markdown,
     main env host argv =
     [WriteFile path markdown; ConsoleLog (js "Output saved to: " ++ path)]).
Proof.
  unfold main.
  destruct (input (parseArgs (skipn 2 argv) initial)) as [[|c i]|]; [now left| |now left].
  set (result := if is_url _ then _ else _).
  destruct result as [markdown|error].
  - destruct (outputFile (parseArgs (skipn 2 argv) initial)) as [[|o f]|].
    + right. right. left. now exists markdown.
    + destruct (writeFile host (resolve host (o :: f)) markdown) as [error|].
      * right. left. unfold report. eexists. reflexivity.
      * right. right. right. eexists. eexists. reflexivity.
    + right. right. left. now exists markdown.
  - right. left. unfold report. eexists. reflexivity.
Qed.

End CliProps.

(* ================================================================== *)
(** * Further properties: the regular expressions of the converter *)
(* ================================================================== *)

Module MatcherFacts.
Import RegexFacts TidyFacts.

(** A greedy quantifier over a character class takes the whole run when
    what follows the quantifier matches there. *)
Lemma rep_class_then p k r : forall s fuel mn pv cs,
  mn + length s < fuel ->
  mn <= run p s ->
  k (MState (fst (advance (run p s) pv s)) (snd (advance (run p s) pv s)) cs) = Some r ->
  rep (m (Chr p)) true fuel mn None k (MState pv s cs) = Some r.
Proof.
  induction s as [|c tl IH]; intros fuel mn pv cs Hf Hmn Hk;
    (destruct fuel as [|fuel]; [lia|]); cbn [rep].
  - cbn [run] in Hmn. assert (mn = 0) by lia. subst mn.
    rewrite m_Chr. cbn [rest Nat.ltb Nat.leb orelse]. exact Hk.
  - rewrite m_Chr. cbn [rest caps]. cbn [run advance] in Hk, Hmn.
    destruct (p c) eqn:Hp.
    + cbn [advance] in Hk.
      replace (length tl =? length (c :: tl)) with false
        by (symmetry; apply Nat.eqb_neq; cbn [length]; lia).
      rewrite andb_false_r.
      cbn [option_map].
      rewrite (IH fuel (pred mn) (Some c) cs); [| cbn [length] in Hf; lia | lia | exact Hk].
      destruct (0 <? mn); reflexivity.
    + assert (mn = 0) by lia. subst mn. cbn [Nat.ltb Nat.leb orelse]. exact Hk.
Qed.

(** It fails when what follows matches at no point of the run. *)
Lemma rep_class_never p k : forall s fuel mn pv cs,
  mn + length s < fuel ->
  (forall j, j <= run p s ->
             k (MState (fst (advance j pv s)) (snd (advance j pv s)) cs) = None) ->
  rep (m (Chr p)) true fuel mn None k (MState pv s cs) = None.
Proof.
  induction s as [|c tl IH]; intros fuel mn pv cs Hf Hk;
    (destruct fuel as [|fuel]; [lia|]); cbn [rep].
  - rewrite m_Chr. cbn [rest orelse].
    pose proof (Hk 0 (Nat.le_0_l _)) as H0. cbn [advance fst snd] in H0.
    destruct (0 <? mn); [reflexivity|exact H0].
  - rewrite m_Chr. cbn [rest caps].
    pose proof (Hk 0 (Nat.le_0_l _)) as H0. cbn [advance fst snd] in H0.
    destruct (p c) eqn:Hp.
    + replace (length tl =? length (c :: tl)) with false
        by (symmetry; apply Nat.eqb_neq; cbn [length]; lia).
      rewrite andb_false_r.
      cbn [option_map].
      rewrite (IH fuel (pred mn) (Some c) cs); [| cbn [length] in Hf; lia |].
      * cbn [orelse]. destruct (0 <? mn); [reflexivity|exact H0].
      * intros j Hj. apply (Hk (S j)). cbn [run]. rewrite Hp. lia.
    + cbn [orelse]. destruct (0 <? mn); [reflexivity|exact H0].
Qed.

(** A replacement that finds no match anywhere leaves the string as it is. *)
Lemma replace_go_none r f g s : forall pv,
  (forall pv' front back, s = front ++ back -> exec_at r pv' back = None) ->
  replace_go r f g pv 0 true s = s.
Proof.
  induction s as [|c tl IH]; intros pv H; rewrite replace_go_0.
  - rewrite (H pv [] [] eq_refl). reflexivity.
  - rewrite (H pv [] (c :: tl) eq_refl). f_equal. apply IH.
    intros pv' front back E. apply (H pv' (c :: front) back). now rewrite E.
Qed.

Lemma last_shift {A} (l : list A) a d : last (a :: l) d = last l a.
Proof.
  revert a d. induction l as [|b l IH]; intros a d; [reflexivity|].
  change (last (a :: b :: l) d) with (last (b :: l) d).
  rewrite (IH b d), (IH b a). reflexivity.
Qed.

Lemma advance_app a : forall pv tl,
  advance (length a) pv (a ++ tl) = (last (map Some a) pv, tl).
Proof.
  induction a as [|c a IH]; intros pv tl; [destruct tl; reflexivity|].
  cbn [length app advance]. rewrite IH. cbn [map]. now rewrite last_shift.
Qed.

(** A replacement at a position where the pattern matches [found]. *)
Lemma replace_go_match r f pv found post mt :
  exec_at r pv (found ++ post) = Some mt -> matched mt = found -> found <> [] ->
  replace_go r f true pv 0 true (found ++ post) =
  f mt ++ replace_go r f true (last (map Some found) pv) 0 true post.
Proof.
  intros E Hm Hne. rewrite replace_go_0, E, Hm.
  destruct found as [|c found']; [contradiction|]. cbn [app length].
  rewrite replace_go_advance by (rewrite length_app; lia).
  rewrite advance_app. cbn [fst snd map]. now rewrite last_shift.
Qed.

(** A replacement passes over a stretch in which nothing matches. *)
Lemma replace_go_front r f g front : forall pv s,
  (forall pv' a b, front = a ++ b -> b <> [] -> exec_at r pv' (b ++ s) = None) ->
  replace_go r f g pv 0 true (front ++ s) =
  front ++ replace_go r f g (last (map Some front) pv) 0 true s.
Proof.
  induction front as [|c tl IH]; intros pv s H; [reflexivity|].
  cbn [app]. rewrite replace_go_0.
  pose proof (H pv [] (c :: tl) eq_refl ltac:(discriminate)) as E0.
  cbn [app] in E0. rewrite E0.
  f_equal. rewrite IH.
  - cbn [map]. rewrite last_shift. reflexivity.
  - intros pv' a b E Hb. apply (H pv' (c :: a) b); [now rewrite E|exact Hb].
Qed.

End MatcherFacts.

Module CleanHtmlFacts.
Import RegexFacts TidyFacts MatcherFacts.

(** The pattern begins with one code unit of the class [p]. *)
Inductive starts : regex -> (N -> bool) -> Prop :=
| starts_Chr p : starts (Chr p) p
| starts_Seq r1 r2 p : starts r1 p -> starts (Seq r1 r2) p.

Definition head_fails (p : N -> bool) (s : jsstring) : Prop :=
  match s with c :: _ => p c = false | [] => True end.

Lemma m_starts_fail r p :
  starts r p -> forall k st, head_fails p (rest st) -> m r k st = None.
Proof.
  induction 1 as [p|r1 r2 p _ IH]; intros k st H.
  - rewrite m_Chr. destruct (rest st) as [|c tl]; [reflexivity|].
    cbn [head_fails] in H. now rewrite H.
  - rewrite m_Seq. now apply IH.
Qed.

Lemma exec_starts_fail r p pv s :
  starts r p -> head_fails p s -> exec_at r pv s = None.
Proof.
  intros S H. unfold exec_at. now rewrite (m_starts_fail r p S).
Qed.

Definition lt_i : N -> bool := fun x => (upcase x =? upcase 60)%N.

Lemma lt_i_false c : c <> 60%N -> lt_i c = false.
Proof.
  intros H. unfold lt_i, upcase, isLower, in_range.
  change (if (97 <=? 60)%N && (60 <=? 122)%N then (60 - 32)%N else 60%N) with 60%N.
  destruct ((97 <=? c)%N && (c <=? 122)%N) eqn:E.
  - apply andb_true_iff in E as [E1 E2]. apply N.leb_le in E1.
    apply N.eqb_neq. lia.
  - now apply N.eqb_neq.
Qed.

Lemma starts_script : starts (element_re "script") lt_i.
Proof. unfold element_re. apply starts_Seq. apply starts_Seq. apply starts_Chr. Qed.

Lemma starts_style : starts (element_re "style") lt_i.
Proof. unfold element_re. apply starts_Seq. apply starts_Seq. apply starts_Chr. Qed.

Lemma starts_comment : starts comment_re (N.eqb 60).
Proof. unfold comment_re. apply starts_Seq. apply starts_Seq. apply starts_Chr. Qed.

Lemma starts_close_script : starts (lit true (js "</" ++ js "script" ++ js ">")) lt_i.
Proof. apply starts_Seq. apply starts_Chr. Qed.

Lemma head_fails_lt_i s : ~ In 60%N s -> head_fails lt_i s.
Proof.
  destruct s as [|c tl]; [intros _; exact I|]. intros H. cbn [head_fails].
  apply lt_i_false. intros E. apply H. now left.
Qed.

Lemma head_fails_lt s : ~ In 60%N s -> head_fails (N.eqb 60) s.
Proof.
  destruct s as [|c tl]; [intros _; exact I|]. intros H. cbn [head_fails].
  apply N.eqb_neq. intros E. apply H. now left.
Qed.

Lemma not_in_back (s front back : jsstring) x :
  ~ In x s -> s = front ++ back -> ~ In x back.
Proof. intros H E Hb. apply H. rewrite E. apply in_or_app. now right. Qed.

(** Without an opening angle bracket, none of the three patterns of
    [cleanHTML] matches anywhere. *)
Lemma replace_without_lt r p f s :
  starts r p -> (forall t, ~ In 60%N t -> head_fails p t) ->
  ~ In 60%N s -> replace_all r f s = s.
Proof.
  intros S Hp H. unfold replace_all. apply replace_go_none.
  intros pv' front back E. apply (exec_starts_fail r p pv' back S).
  apply Hp. exact (not_in_back s front back 60%N H E).
Qed.

End CleanHtmlFacts.

Module CleanHtmlProps.
Import RegexFacts TidyFacts MatcherFacts CleanHtmlFacts.

(** Markup without any opening angle bracket is only trimmed. *)
Theorem cleanHTML_without_tags html :
  ~ In 60%N html -> cleanHTML html = trim html.
Proof.
  intros H. unfold cleanHTML.
  rewrite (replace_without_lt (element_re "script") lt_i _ html starts_script
             head_fails_lt_i H).
  rewrite (replace_without_lt (element_re "style") lt_i _ html starts_style
             head_fails_lt_i H).
  rewrite (replace_without_lt comment_re (N.eqb 60) _ html starts_comment
             head_fails_lt H).
  reflexivity.
Qed.

(** ["  plain text "] is trimmed to ["plain text"]. *)
Lemma cleanHTML_without_tags_witness :
  cleanHTML (js "  plain text ") = js "plain text".
Proof.
  refine (eq_trans (cleanHTML_without_tags (js "  plain text ") _) _).
  - vm_compute. intuition discriminate.
  - vm_compute. reflexivity.
Defined.

End CleanHtmlProps.

Module ScriptFacts.
Import RegexFacts TidyFacts MatcherFacts CleanHtmlFacts.

Definition not_lt : N -> bool := fun c => negb (one_of [60%N] c).

Lemma not_lt_true c : c <> 60%N -> not_lt c = true.
Proof.
  intros H. unfold not_lt, one_of. cbn [existsb].
  replace (c =? 60)%N with false by (symmetry; now apply N.eqb_neq). reflexivity.
Qed.

Lemma run_not_lt a tl : ~ In 60%N a -> run not_lt (a ++ 60%N :: tl) = length a.
Proof.
  induction a as [|c a IH]; intros H; [reflexivity|].
  cbn [app run length]. rewrite not_lt_true by (intros E; apply H; now left).
  f_equal. apply IH. intros Hi. apply H. now right.
Qed.

Lemma run_not_lt_all a : ~ In 60%N a -> run not_lt a = length a.
Proof.
  induction a as [|c a IH]; intros H; [reflexivity|].
  cbn [run length]. rewrite not_lt_true by (intros E; apply H; now left).
  f_equal. apply IH. intros Hi. apply H. now right.
Qed.

Lemma advance_back n : forall pv s, exists front, s = front ++ snd (advance n pv s).
Proof.
  induction n as [|n IH]; intros pv s; [exists []; destruct s; reflexivity|].
  destruct s as [|c tl]; [exists []; reflexivity|].
  cbn [advance]. destruct (IH (Some c) tl) as [front E]. exists (c :: front).
  cbn [app]. now rewrite <- E.
Qed.

Lemma firstn_exact {A} (a b : list A) : firstn (length a) (a ++ b) = a.
Proof. induction a as [|x a IH]; [destruct b; reflexivity|]. cbn. now rewrite IH. Qed.

Definition open_script : jsstring := js "<script".
Definition close_script : jsstring := js "</script>".

(** The part of the pattern after ["<script"] and the word boundary. *)
Definition inner_script : regex :=
  star (seqs [ Look false (lit true (js "</" ++ js "script" ++ js ">"));
               chr 60; star (none_of [60]%N) ]).

Lemma element_re_script k st :
  m (element_re "script") k st =
  m (lit true (js "<" ++ js "script"))
    (m WordB (m (star (none_of [60]%N))
                (m inner_script (m (lit true (js "</" ++ js "script" ++ js ">")) k)))) st.
Proof. reflexivity. Qed.

Lemma m_open_script k pv tl cs :
  m (lit true (js "<" ++ js "script")) k (MState pv (open_script ++ tl) cs) =
  k (MState (Some 116%N) tl cs).
Proof. vm_compute. reflexivity. Qed.

Lemma m_close_script k pv tl cs :
  m (lit true (js "</" ++ js "script" ++ js ">")) k (MState pv (close_script ++ tl) cs) =
  k (MState (Some 62%N) tl cs).
Proof. vm_compute. reflexivity. Qed.

Lemma m_Look_false r k st :
  m (Look false r) k st =
  match m r accept st with Some _ => None | None => k st end.
Proof. cbn [m]. destruct (m r accept st); reflexivity. Qed.

Lemma m_WordB k st :
  m WordB k st = if xorb (word_before st) (word_after st) then k st else None.
Proof. reflexivity. Qed.

Lemma m_seqs_cons r rs k st : m (seqs (r :: rs)) k st = m r (m (seqs rs) k) st.
Proof. destruct rs; reflexivity. Qed.

Definition inner_step : regex :=
  seqs [ Look false (lit true (js "</" ++ js "script" ++ js ">"));
         chr 60; star (none_of [60]%N) ].

Lemma inner_script_unfold : inner_script = Rep true 0 None inner_step.
Proof. reflexivity. Qed.

Lemma m_step_at_close kk pv tl cs :
  m inner_step kk (MState pv (close_script ++ tl) cs) = None.
Proof.
  unfold inner_step. rewrite m_seqs_cons, m_Look_false, m_close_script. reflexivity.
Qed.

Lemma m_step_no_lt kk pv s cs :
  ~ In 60%N s -> m inner_step kk (MState pv s cs) = None.
Proof.
  intros H. unfold inner_step. rewrite m_seqs_cons, m_Look_false.
  rewrite (m_starts_fail _ lt_i starts_close_script accept)
    by (cbn [rest]; now apply head_fails_lt_i).
  rewrite m_seqs_cons. unfold chr. rewrite m_Chr. cbn [rest].
  destruct s as [|c tl]; [reflexivity|].
  replace (60 =? c)%N with false; [reflexivity|].
  symmetry. apply N.eqb_neq. intros E. apply H. now left.
Qed.

Lemma rep_no_iteration r k st fuel :
  (forall kk, m r kk st = None) ->
  rep (m r) true (S fuel) 0 None k st = k st.
Proof. intros H. cbn [rep]. rewrite H. reflexivity. Qed.

(** At the closing tag the inner loop makes no iteration. *)
Lemma m_inner_at_close k pv tl cs :
  m inner_script k (MState pv (close_script ++ tl) cs) =
  k (MState pv (close_script ++ tl) cs).
Proof.
  rewrite inner_script_unfold, m_Rep. cbn [rest]. rewrite Nat.add_0_l, Nat.add_1_r.
  apply rep_no_iteration. intros kk. apply m_step_at_close.
Qed.

(** Where no closing tag starts, the inner loop and the closing tag both
    fail. *)
Lemma m_inner_no_lt k pv s cs :
  ~ In 60%N s ->
  m inner_script (m (lit true (js "</" ++ js "script" ++ js ">")) k) (MState pv s cs) = None.
Proof.
  intros H. rewrite inner_script_unfold, m_Rep. cbn [rest].
  rewrite Nat.add_0_l, Nat.add_1_r.
  rewrite rep_no_iteration by (intros kk; now apply m_step_no_lt).
  apply (m_starts_fail _ lt_i starts_close_script). cbn [rest].
  now apply head_fails_lt_i.
Qed.

(** One attempt at a complete script element whose text holds no opening
    angle bracket: the match is the whole element. *)
Lemma exec_script_element pv a post :
  ~ In 60%N a ->
  match a with c :: _ => isWord c = false | [] => False end ->
  exec_at (element_re "script") pv (open_script ++ a ++ close_script ++ post) =
  Some (RMatch (open_script ++ a ++ close_script) []).
Proof.
  intros Ha Hw. unfold exec_at. rewrite element_re_script, m_open_script.
  assert (WB : forall k,
            m WordB k (MState (Some 116%N) (a ++ close_script ++ post) []) =
            k (MState (Some 116%N) (a ++ close_script ++ post) [])).
  { intros k. destruct a as [|c a']; [destruct Hw|]. cbn [m app].
    unfold word_before, word_after. cbn [prev rest]. rewrite Hw. reflexivity. }
  rewrite WB. unfold star at 1. rewrite m_Rep. cbn [rest].
  assert (R : run not_lt (a ++ close_script ++ post) = length a).
  { change (close_script ++ post) with (60%N :: (js "/script>" ++ post)).
    now apply run_not_lt. }
  rewrite (rep_class_then not_lt _
             (MState (Some 62%N) post [])); [| lia | lia |].
  - unfold consumed. cbn [rest caps].
    replace (open_script ++ a ++ close_script ++ post)
      with ((open_script ++ a ++ close_script) ++ post)
      by (rewrite <- !app_assoc; reflexivity).
    rewrite length_app.
    replace (length (open_script ++ a ++ close_script) + length post - length post)
      with (length (open_script ++ a ++ close_script)) by lia.
    rewrite firstn_exact. reflexivity.
  - fold not_lt. rewrite R, advance_app. cbn [fst snd].
    rewrite m_inner_at_close, m_close_script. reflexivity.
Qed.

(** One attempt at ["<script"] that is never closed. *)
Lemma exec_script_open pv a :
  ~ In 60%N a -> exec_at (element_re "script") pv (open_script ++ a) = None.
Proof.
  intros Ha. unfold exec_at. rewrite element_re_script, m_open_script.
  rewrite m_WordB. destruct (xorb _ _); [|reflexivity].
  unfold star at 1. rewrite m_Rep. cbn [rest].
  rewrite (rep_class_never not_lt); [reflexivity|lia|].
  intros j _. destruct (advance_back j (Some 116%N) a) as [front E].
  apply m_inner_no_lt. exact (not_in_back a front _ 60%N Ha E).
Qed.

End ScriptFacts.

Module ScriptProps.
Import RegexFacts TidyFacts MatcherFacts CleanHtmlFacts ScriptFacts.

Lemma front_head_fails p front back s :
  (forall c, In c front -> p c = false) -> back <> [] ->
  (exists a, front = a ++ back) -> head_fails p (back ++ s).
Proof.
  intros H Hb [a E]. destruct back as [|c back']; [contradiction|].
  cbn [app head_fails]. apply H. rewrite E. apply in_or_app. right. now left.
Qed.

Lemma lt_i_on s : ~ In 60%N s -> forall c, In c s -> lt_i c = false.
Proof. intros H c Hc. apply lt_i_false. intros E. apply H. now rewrite <- E. Qed.

Lemma eq_lt_on s : ~ In 60%N s -> forall c, In c s -> (60 =? c)%N = false.
Proof. intros H c Hc. apply N.eqb_neq. intros E. apply H. now rewrite E. Qed.

(** A complete script element is removed with everything in it. Stated
    for an element whose text (attributes, the closing bracket of the
    opening tag, the code) holds no further opening angle bracket, in a
    text without any. *)
Theorem cleanHTML_removes_script front a back :
  ~ In 60%N front -> ~ In 60%N a -> ~ In 60%N back ->
  match a with c :: _ => isWord c = false | [] => False end ->
  cleanHTML (front ++ js "<script" ++ a ++ js "</script>" ++ back) =
  trim (front ++ back).
Proof.
  intros Hf Ha Hb Hw. unfold cleanHTML.
  assert (S1 : replace_all (element_re "script") (fun _ => [])
                 (front ++ js "<script" ++ a ++ js "</script>" ++ back) = front ++ back).
  { unfold replace_all. rewrite replace_go_front.
    - f_equal.
      change (js "<script" ++ a ++ js "</script>" ++ back)
        with (open_script ++ a ++ close_script ++ back).
      replace (open_script ++ a ++ close_script ++ back)
        with ((open_script ++ a ++ close_script) ++ back)
        by (rewrite <- !app_assoc; reflexivity).
      rewrite (replace_go_match _ _ _ (open_script ++ a ++ close_script) back
                 (RMatch (open_script ++ a ++ close_script) [])).
      + cbn [app]. apply replace_go_none. intros pv' x y E.
        apply (exec_starts_fail _ lt_i pv' y starts_script).
        apply head_fails_lt_i. exact (not_in_back back x y 60%N Hb E).
      + rewrite <- !app_assoc. now apply exec_script_element.
      + reflexivity.
      + discriminate.
    - intros pv' x y E Hy.
      apply (exec_starts_fail _ lt_i pv' _ starts_script).
      apply (front_head_fails lt_i front y); [now apply lt_i_on|exact Hy|now exists x]. }
  rewrite S1.
  assert (Hfb : ~ In 60%N (front ++ back)).
  { intros H. apply in_app_or in H as [H|H]; [now apply Hf|now apply Hb]. }
  rewrite (replace_without_lt (element_re "style") lt_i _ _ starts_style
             head_fails_lt_i Hfb).
  rewrite (replace_without_lt comment_re (N.eqb 60) _ _ starts_comment
             head_fails_lt Hfb).
  reflexivity.
Qed.

(** ["a<script>x()</script>b"] is cleaned to ["ab"]. *)
Lemma cleanHTML_removes_script_witness :
  cleanHTML (js "a<script>x()</script>b") = js "ab".
Proof.
  refine (eq_trans (cleanHTML_removes_script (js "a") (js ">x()") (js "b") _ _ _ _) _).
  - vm_compute. intuition discriminate.
  - vm_compute. intuition discriminate.
  - vm_compute. intuition discriminate.
  - reflexivity.
  - vm_compute. reflexivity.
Defined.

Lemma unique_lt front : forall t x y,
  ~ In 60%N front -> ~ In 60%N t ->
  front ++ 60%N :: t = x ++ 60%N :: y -> y = t.
Proof.
  induction front as [|p front IH]; intros t x y Hf Ht E.
  - destruct x as [|c x]; cbn [app] in E.
    + now inversion E.
    + inversion E. exfalso. apply Ht. subst t. apply in_or_app. right. now left.
  - destruct x as [|c x]; cbn [app] in E.
    + inversion E. exfalso. apply Hf. now left.
    + inversion E. apply (IH t x y); [|exact Ht|assumption].
      intros H. apply Hf. now right.
Qed.

(** In a text whose only opening angle bracket starts [tail], a pattern
    that begins with that bracket and does not match [tail] matches
    nowhere. *)
Lemma replace_single_lt r p f front tail :
  starts r p -> (forall t, ~ In 60%N t -> head_fails p t) ->
  (forall c, p c = false \/ c = 60%N) ->
  ~ In 60%N front -> ~ In 60%N tail ->
  (forall pv, exec_at r pv (60%N :: tail) = None) ->
  replace_all r f (front ++ 60%N :: tail) = front ++ 60%N :: tail.
Proof.
  intros S Hp Hc Hf Ht Hx. unfold replace_all. apply replace_go_none.
  intros pv' x y E. destruct y as [|c y].
  - apply (exec_starts_fail r p pv' [] S). exact I.
  - destruct (Hc c) as [Hpc| ->].
    + apply (exec_starts_fail r p pv' (c :: y) S). exact Hpc.
    + rewrite (unique_lt front tail x y Hf Ht E). apply Hx.
Qed.

Lemma lt_i_cases c : lt_i c = false \/ c = 60%N.
Proof.
  destruct (N.eq_dec c 60) as [E|E]; [now right|left; now apply lt_i_false].
Qed.

Lemma eq_lt_cases c : (60 =? c)%N = false \/ c = 60%N.
Proof.
  destruct (N.eq_dec c 60) as [E|E]; [now right|left].
  apply N.eqb_neq. intros H. now apply E.
Qed.

(** A script element that is never closed is left in place. *)
Theorem cleanHTML_keeps_unclosed_script front a :
  ~ In 60%N front -> ~ In 60%N a ->
  cleanHTML (front ++ js "<script" ++ a) = trim (front ++ js "<script" ++ a).
Proof.
  intros Hf Ha. unfold cleanHTML.
  change (js "<script" ++ a) with (60%N :: (js "script" ++ a)).
  assert (Ht : ~ In 60%N (js "script" ++ a)).
  { intros H. apply in_app_or in H as [H|H]; [|now apply Ha].
    vm_compute in H. intuition discriminate. }
  rewrite (replace_single_lt (element_re "script") lt_i _ front (js "script" ++ a)
             starts_script head_fails_lt_i lt_i_cases Hf Ht).
  - rewrite (replace_single_lt (element_re "style") lt_i _ front (js "script" ++ a)
               starts_style head_fails_lt_i lt_i_cases Hf Ht).
    + rewrite (replace_single_lt comment_re (N.eqb 60) _ front (js "script" ++ a)
                 starts_comment head_fails_lt eq_lt_cases Hf Ht).
      * reflexivity.
      * intros pv. vm_compute. reflexivity.
    + intros pv. vm_compute. reflexivity.
  - intros pv. apply (exec_script_open pv a Ha).
Qed.

(** ["a<script>x"] is returned as it is. *)
Lemma cleanHTML_keeps_unclosed_script_witness :
  cleanHTML (js "a<script>x") = js "a<script>x".
Proof.
  refine (eq_trans (cleanHTML_keeps_unclosed_script (js "a") (js ">x") _ _) _).
  - vm_compute. intuition discriminate.
  - vm_compute. intuition discriminate.
  - vm_compute. reflexivity.
Defined.

End ScriptProps.

Module CommentProps.
Import RegexFacts TidyFacts MatcherFacts CleanHtmlFacts ScriptFacts ScriptProps.

(** A lazy quantifier over any code unit stops at the first point where
    what follows it matches. *)
Lemma rep_lazy_any k r : forall c tl fuel pv cs,
  length (c ++ tl) < fuel ->
  (forall a b, c = a ++ b -> b <> [] ->
               k (MState (last (map Some a) pv) (b ++ tl) cs) = None) ->
  k (MState (last (map Some c) pv) tl cs) = Some r ->
  rep (m any) false fuel 0 None k (MState pv (c ++ tl) cs) = Some r.
Proof.
  induction c as [|x c IH]; intros tl fuel pv cs Hf Hnone Hk;
    (destruct fuel as [|fuel]; [lia|]); cbn [rep].
  - cbn [app map last] in *. cbn [Nat.ltb Nat.leb]. rewrite Hk. reflexivity.
  - pose proof (Hnone [] (x :: c) eq_refl ltac:(discriminate)) as H0.
    cbn [map last app] in H0. cbn [app Nat.ltb Nat.leb]. rewrite H0. cbn [orelse].
    unfold any at 1. rewrite m_Chr. cbn [rest caps].
    replace (length (c ++ tl) =? length (x :: c ++ tl)) with false
      by (symmetry; apply Nat.eqb_neq; cbn [length]; lia).
    rewrite andb_false_r. cbn [option_map Nat.pred].
    apply IH.
    + cbn [app length] in Hf. lia.
    + intros a b E Hb. pose proof (Hnone (x :: a) b) as H1.
      cbn [map] in H1. rewrite last_shift in H1. apply H1; [now rewrite E|exact Hb].
    + cbn [map] in Hk. now rewrite last_shift in Hk.
Qed.

Definition close_comment : jsstring := js "-->".
Definition open_comment : jsstring := js "<!--".

Lemma m_close_comment k pv s cs :
  m (lit false (js "-->")) k (MState pv s cs) =
  if startsWith close_comment s then k (MState (Some 62%N) (skipn 3 s) cs) else None.
Proof.
  destruct s as [|x [|y [|z s]]].
  - reflexivity.
  - change (m (lit false (js "-->")) k (MState pv [x] cs))
      with (if (45 =? x)%N then @None mstate else None).
    change (startsWith close_comment [x]) with ((45 =? x)%N && false).
    destruct (45 =? x)%N; reflexivity.
  - change (m (lit false (js "-->")) k (MState pv [x; y] cs))
      with (if (45 =? x)%N then if (45 =? y)%N then @None mstate else None else None).
    change (startsWith close_comment [x; y]) with ((45 =? x)%N && ((45 =? y)%N && false)).
    destruct (45 =? x)%N; destruct (45 =? y)%N; reflexivity.
  - change (m (lit false (js "-->")) k (MState pv (x :: y :: z :: s) cs))
      with (if (45 =? x)%N
            then if (45 =? y)%N
                 then if (62 =? z)%N then k (MState (Some z) s cs) else None
                 else None
            else None).
    change (startsWith close_comment (x :: y :: z :: s))
      with ((45 =? x)%N && ((45 =? y)%N && ((62 =? z)%N && true))).
    cbn [skipn].
    destruct (45 =? x)%N; [|reflexivity]. destruct (45 =? y)%N; [|reflexivity].
    destruct (62 =? z)%N eqn:Z; [|reflexivity].
    apply N.eqb_eq in Z. subst z. reflexivity.
Qed.

Lemma m_open_comment k pv tl cs :
  m (lit false (js "<!--")) k (MState pv (open_comment ++ tl) cs) =
  k (MState (Some 45%N) tl cs).
Proof. vm_compute. reflexivity. Qed.

Lemma startsWith_front3 b t u :
  b <> [] -> startsWith close_comment (b ++ js "--" ++ t) =
             startsWith close_comment (b ++ js "--" ++ u).
Proof.
  intros Hb. destruct b as [|x [|y [|z b]]]; [contradiction| | |];
    change (js "--") with [45%N; 45%N]; unfold close_comment;
    change (js "-->") with [45%N; 45%N; 62%N]; cbn [app startsWith]; reflexivity.
Qed.

Lemma includes_back p a b : includes p (a ++ b) = false -> includes p b = false.
Proof.
  induction a as [|x a IH]; intros H; [exact H|].
  cbn [app] in H. rewrite includes_cons in H. apply orb_false_iff in H as [_ H].
  now apply IH.
Qed.

Lemma includes_head p s : includes p s = false -> startsWith p s = false.
Proof.
  destruct s as [|c tl]; cbn [includes]; intros H; apply orb_false_iff in H; tauto.
Qed.

(** One attempt at a comment: the match ends at the first ["-->"]. *)
Lemma exec_comment pv c post :
  includes close_comment (c ++ js "--") = false ->
  exec_at comment_re pv (open_comment ++ c ++ close_comment ++ post) =
  Some (RMatch (open_comment ++ c ++ close_comment) []).
Proof.
  intros H. unfold exec_at, comment_re.
  rewrite m_seqs_cons, m_open_comment, m_seqs_cons.
  unfold lazy_star. rewrite m_Rep. cbn [rest].
  rewrite (rep_lazy_any _ (MState (Some 62%N) post [])); [| lia | |].
  - unfold consumed. cbn [rest caps].
    replace (open_comment ++ c ++ close_comment ++ post)
      with ((open_comment ++ c ++ close_comment) ++ post)
      by (rewrite <- !app_assoc; reflexivity).
    rewrite length_app.
    replace (length (open_comment ++ c ++ close_comment) + length post - length post)
      with (length (open_comment ++ c ++ close_comment)) by lia.
    rewrite firstn_exact. reflexivity.
  - intros a b E Hb. change (seqs [lit false (js "-->")]) with (lit false (js "-->")).
    rewrite m_close_comment.
    change (close_comment ++ post) with (js "--" ++ (62%N :: post)).
    rewrite (startsWith_front3 b _ []) by exact Hb. rewrite app_nil_r.
    rewrite E, <- app_assoc in H. apply includes_back in H.
    now rewrite (includes_head _ _ H).
  - change (seqs [lit false (js "-->")]) with (lit false (js "-->")).
    rewrite m_close_comment. reflexivity.
Qed.

(** A comment is removed up to its first ["-->"]. Stated for a comment
    whose text holds no opening angle bracket, in a text without any. *)
Theorem cleanHTML_removes_comment front c back :
  ~ In 60%N front -> ~ In 60%N c -> ~ In 60%N back ->
  includes (js "-->") (c ++ js "--") = false ->
  cleanHTML (front ++ js "<!--" ++ c ++ js "-->" ++ back) = trim (front ++ back).
Proof.
  intros Hf Hc Hb Hi. unfold cleanHTML.
  change (js "<!--" ++ c ++ js "-->" ++ back)
    with (60%N :: (js "!--" ++ c ++ js "-->" ++ back)).
  assert (Ht : ~ In 60%N (js "!--" ++ c ++ js "-->" ++ back)).
  { intros H. apply in_app_or in H as [H|H]; [vm_compute in H; intuition discriminate|].
    apply in_app_or in H as [H|H]; [now apply Hc|].
    apply in_app_or in H as [H|H]; [vm_compute in H; intuition discriminate|].
    now apply Hb. }
  rewrite (replace_single_lt (element_re "script") lt_i _ front _
             starts_script head_fails_lt_i lt_i_cases Hf Ht)
    by (intros pv; vm_compute; reflexivity).
  rewrite (replace_single_lt (element_re "style") lt_i _ front _
             starts_style head_fails_lt_i lt_i_cases Hf Ht)
    by (intros pv; vm_compute; reflexivity).
  assert (S3 : replace_all comment_re (fun _ => [])
                 (front ++ 60%N :: js "!--" ++ c ++ js "-->" ++ back) = front ++ back).
  { unfold replace_all. rewrite replace_go_front.
    - f_equal.
      change (60%N :: js "!--" ++ c ++ js "-->" ++ back)
        with (open_comment ++ c ++ close_comment ++ back).
      replace (open_comment ++ c ++ close_comment ++ back)
        with ((open_comment ++ c ++ close_comment) ++ back)
        by (rewrite <- !app_assoc; reflexivity).
      rewrite (replace_go_match _ _ _ (open_comment ++ c ++ close_comment) back
                 (RMatch (open_comment ++ c ++ close_comment) [])).
      + cbn [app]. apply replace_go_none. intros pv' x y E.
        apply (exec_starts_fail _ (N.eqb 60) pv' y starts_comment).
        apply head_fails_lt. exact (not_in_back back x y 60%N Hb E).
      + rewrite <- !app_assoc. now apply exec_comment.
      + reflexivity.
      + discriminate.
    - intros pv' x y E Hy.
      apply (exec_starts_fail _ (N.eqb 60) pv' _ starts_comment).
      apply (front_head_fails (N.eqb 60) front y); [now apply eq_lt_on|exact Hy|now exists x]. }
  rewrite S3. reflexivity.
Qed.

(** ["a<!-- note -->b"] is cleaned to ["ab"]. *)
Lemma cleanHTML_removes_comment_witness :
  cleanHTML (js "a<!-- note -->b") = js "ab".
Proof.
  refine (eq_trans (cleanHTML_removes_comment (js "a") (js " note ") (js "b") _ _ _ _) _).
  - vm_compute. intuition discriminate.
  - vm_compute. intuition discriminate.
  - vm_compute. intuition discriminate.
  - reflexivity.
  - vm_compute. reflexivity.
Defined.

End CommentProps.

Module SpaceFacts.
Import RegexFacts TidyFacts MatcherFacts.

(** What [/\s+/g -> ' '] computes; [in_run] says whether the previous code
    unit was white space. *)
Fixpoint collapse (in_run : bool) (s : jsstring) : jsstring :=
  match s with
  | [] => []
  | c :: tl =>
      if isSpace c
      then if in_run then collapse true tl else SP :: collapse true tl
      else c :: collapse false tl
  end.

Lemma exec_spaces pv s :
  exec_at spaces_re pv s =
  if 1 <=? run isSpace s
  then Some (RMatch (firstn (run isSpace s) s) [])
  else None.
Proof.
  unfold exec_at, spaces_re, plus, ws. rewrite m_Rep. cbn [rest].
  rewrite rep_class by lia.
  destruct (1 <=? run isSpace s); [|reflexivity].
  rewrite consumed_advance by apply run_le. reflexivity.
Qed.

Lemma advance_past_run p s : forall n pv,
  n = run p s -> run p (snd (advance n pv s)) = 0.
Proof.
  induction s as [|c tl IH]; intros n pv E; cbn [run] in E.
  - subst n. reflexivity.
  - destruct (p c) eqn:Hc.
    + subst n. cbn [advance]. now apply IH.
    + subst n. cbn [advance snd run]. now rewrite Hc.
Qed.

Lemma collapse_advance s : forall n pv,
  n = run isSpace s -> collapse true s = collapse true (snd (advance n pv s)).
Proof.
  induction s as [|c tl IH]; intros n pv E; cbn [run] in E.
  - subst n. reflexivity.
  - destruct (isSpace c) eqn:Hc.
    + subst n. cbn [advance collapse]. rewrite Hc. now apply IH.
    + subst n. reflexivity.
Qed.

Lemma collapse_no_run s b : run isSpace s = 0 -> collapse b s = collapse false s.
Proof.
  destruct s as [|c tl]; [reflexivity|]. cbn [run collapse].
  destruct (isSpace c); [discriminate|reflexivity].
Qed.

Lemma spaces_go_collapse : forall n s pv,
  length s <= n ->
  replace_go spaces_re (fun _ => [SP]) true pv 0 true s = collapse false s.
Proof.
  induction n as [|n IH]; intros s pv Hn.
  - destruct s; [|cbn [length] in Hn; lia].
    rewrite replace_go_0, exec_spaces. reflexivity.
  - destruct s as [|c tl].
    + rewrite replace_go_0, exec_spaces. reflexivity.
    + cbn [length] in Hn. rewrite replace_go_0, exec_spaces.
      destruct (1 <=? run isSpace (c :: tl)) eqn:E.
      * apply Nat.leb_le in E. cbn [matched]. rewrite length_firstn_run.
        pose proof (run_le isSpace (c :: tl)) as Hle.
        destruct (run isSpace (c :: tl)) as [|k] eqn:Ek; [lia|].
        cbn [length] in Hle. cbn [run] in Ek.
        destruct (isSpace c) eqn:Hc; [|discriminate Ek].
        assert (Hk : k = run isSpace tl) by congruence.
        rewrite replace_go_advance by lia.
        cbn [collapse]. rewrite Hc. cbn [app]. f_equal.
        rewrite (collapse_advance tl k (Some c) Hk).
        pose proof (advance_past_run isSpace tl k (Some c) Hk) as Hr.
        pose proof (advance_rest_length k (Some c) tl ltac:(lia)) as Hl.
        rewrite (collapse_no_run _ true Hr).
        apply IH. lia.
      * cbn [collapse]. cbn [run] in E.
        destruct (isSpace c); [discriminate E|]. f_equal. apply IH. lia.
Qed.

Lemma collapse_eq s : replace_all spaces_re (fun _ => [SP]) s = collapse false s.
Proof. apply (spaces_go_collapse (length s)). lia. Qed.

Lemma collapse_only_spaces s : forall b c,
  In c (collapse b s) -> isSpace c = true -> c = SP.
Proof.
  induction s as [|x s IH]; intros b c H Hc; [destruct H|].
  cbn [collapse] in H. destruct (isSpace x) eqn:Hx.
  - destruct b; [now apply (IH true)|].
    destruct H as [<-|H]; [reflexivity|now apply (IH true)].
  - destruct H as [<-|H]; [congruence|now apply (IH false)].
Qed.

Lemma collapse_true_head s :
  match collapse true s with c :: _ => isSpace c = false | [] => True end.
Proof.
  induction s as [|x s IH]; [exact I|]. cbn [collapse].
  destruct (isSpace x) eqn:Hx; [exact IH|exact Hx].
Qed.

Lemma collapse_single s : forall b, includes [SP; SP] (collapse b s) = false.
Proof.
  induction s as [|x s IH]; intros b; [reflexivity|].
  cbn [collapse]. destruct (isSpace x) eqn:Hx.
  - destruct b; [apply IH|].
    rewrite includes_cons, IH, orb_false_r.
    pose proof (collapse_true_head s) as H.
    destruct (collapse true s) as [|y t]; [reflexivity|].
    cbn [startsWith]. rewrite N.eqb_refl. cbn [andb].
    destruct (N.eqb_spec SP y) as [<-|]; [discriminate H|reflexivity].
  - rewrite includes_cons, IH, orb_false_r. cbn [startsWith].
    destruct (N.eqb_spec SP x) as [<-|]; [discriminate Hx|reflexivity].
Qed.

Lemma collapse_snoc s : forall b z,
  isSpace z = false -> collapse b (s ++ [z]) = collapse b s ++ [z].
Proof.
  induction s as [|x s IH]; intros b z Hz; cbn [app collapse].
  - now rewrite Hz.
  - destruct (isSpace x); [destruct b|]; cbn [app]; now rewrite IH.
Qed.

Lemma collapse_idem s : forall b, collapse b (collapse b s) = collapse b s.
Proof.
  induction s as [|x s IH]; intros b; [reflexivity|].
  cbn [collapse]. destruct (isSpace x) eqn:Hx.
  - destruct b; [apply IH|]. cbn [collapse].
    change (isSpace SP) with true. cbv iota. now rewrite IH.
  - cbn [collapse]. rewrite Hx. now rewrite IH.
Qed.

Lemma collapse_head s : head_ok s -> head_ok (collapse false s).
Proof.
  destruct s as [|x s]; [intros _; exact I|]. cbn [head_ok collapse].
  intros H. now rewrite H.
Qed.

Definition last_ok (s : jsstring) : Prop := head_ok (rev s).

Lemma last_ok_snoc front c : last_ok (front ++ [c]) -> isSpace c = false.
Proof. unfold last_ok. rewrite rev_app_distr. cbn. tauto. Qed.

Lemma trim_last_ok s : last_ok (trim s).
Proof.
  unfold last_ok, trim, trimEnd. rewrite rev_involutive. apply trimStart_head.
Qed.

Lemma trim_head_ok s : head_ok (trim s).
Proof. apply trimEnd_head, trimStart_head. Qed.

Lemma last_ok_cases s : last_ok s -> s = [] \/ exists front z, s = front ++ [z] /\ isSpace z = false.
Proof.
  unfold last_ok. intros H. destruct (rev s) as [|z r] eqn:E.
  - left. apply (f_equal (@rev N)) in E. now rewrite rev_involutive in E.
  - right. exists (rev r), z. split; [|exact H].
    apply (f_equal (@rev N)) in E. now rewrite rev_involutive in E.
Qed.

Lemma collapse_last s : last_ok s -> last_ok (collapse false s).
Proof.
  intros H. destruct (last_ok_cases s H) as [->|[front [z [-> Hz]]]]; [exact I|].
  rewrite collapse_snoc by exact Hz. unfold last_ok. rewrite rev_app_distr. exact Hz.
Qed.

Lemma trimEnd_fixed s : last_ok s -> trimEnd s = s.
Proof.
  unfold last_ok, trimEnd. intros H. rewrite (trimStart_fixed _ H). apply rev_involutive.
Qed.

Lemma trim_fixed s : head_ok s -> last_ok s -> trim s = s.
Proof.
  intros H L. unfold trim. rewrite (trimStart_fixed s H). now apply trimEnd_fixed.
Qed.

End SpaceFacts.

Module AttributeProps.
Import RegexFacts TidyFacts MatcherFacts SpaceFacts.

Lemma cleanAttribute_collapse attr :
  cleanAttribute attr =
  match attr with
  | Some (c :: s) => collapse false (trim (c :: s))
  | _ => []
  end.
Proof.
  unfold cleanAttribute. destruct attr as [[|c s]|]; try reflexivity.
  apply collapse_eq.
Qed.

Lemma cleanAttribute_shape attr :
  exists t, cleanAttribute attr = collapse false t /\ head_ok t /\ last_ok t.
Proof.
  rewrite cleanAttribute_collapse. destruct attr as [[|c s]|].
  - exists []. repeat split.
  - exists (trim (c :: s)). split; [reflexivity|].
    split; [apply trim_head_ok|apply trim_last_ok].
  - exists []. repeat split.
Qed.

(** The converter's [cleanAttribute] puts an attribute value into a normal
    form: the only white space left in it are single spaces between its
    parts (no line break, no tab, no two spaces in a row, none at either
    end), and a value already in that form is returned as it is. A
    missing or empty value gives the empty string. *)
Theorem cleanAttribute_normal_form attr :
  (forall c, In c (cleanAttribute attr) -> isSpace c = true -> c = SP) /\
  includes [SP; SP] (cleanAttribute attr) = false /\
  (forall c tl, cleanAttribute attr = c :: tl -> isSpace c = false) /\
  (forall front c, cleanAttribute attr = front ++ [c] -> isSpace c = false) /\
  cleanAttribute (Some (cleanAttribute attr)) = cleanAttribute attr /\
  cleanAttribute None = [] /\ cleanAttribute (Some []) = [].
Proof.
  destruct (cleanAttribute_shape attr) as [t [E [Hh Hl]]]. rewrite !E.
  split; [|split; [|split; [|split; [|split]]]].
  - intros c. apply collapse_only_spaces.
  - apply collapse_single.
  - intros c tl E'. pose proof (collapse_head t Hh) as H. rewrite E' in H. exact H.
  - intros front c E'. pose proof (collapse_last t Hl) as H. rewrite E' in H.
    now apply last_ok_snoc in H.
  - rewrite cleanAttribute_collapse.
    destruct (collapse false t) as [|c s] eqn:E'; [reflexivity|].
    rewrite <- E'.
    rewrite (trim_fixed _ (collapse_head t Hh) (collapse_last t Hl)).
    apply collapse_idem.
  - split; reflexivity.
Qed.

End AttributeProps.

Module ParagraphProps.
Import CommonMark RegexFacts TidyFacts MatcherFacts SpaceFacts.

Definition isLF : N -> bool := N.eqb LF.

(** The blank-line replacement leaves at most two line breaks in a row. *)
Lemma squeeze_go_runs : forall n s pv,
  length s <= n ->
  run isLF (replace_go blank_lines_re (fun _ => [LF; LF]) true pv 0 true s)
    = Nat.min (run isLF s) 2 /\
  includes LLL (replace_go blank_lines_re (fun _ => [LF; LF]) true pv 0 true s) = false.
Proof.
  induction n as [|n IH]; intros s pv Hn.
  - destruct s; [|cbn [length] in Hn; lia].
    rewrite replace_go_0, exec_blank_lines. split; reflexivity.
  - destruct s as [|c tl].
    + rewrite replace_go_0, exec_blank_lines. split; reflexivity.
    + cbn [length] in Hn. rewrite replace_go_0, exec_blank_lines.
      fold isLF.
      destruct (3 <=? run isLF (c :: tl)) eqn:E.
      * apply Nat.leb_le in E. cbn [matched]. rewrite length_firstn_run.
        pose proof (run_le isLF (c :: tl)) as Hle.
        destruct (run isLF (c :: tl)) as [|k] eqn:Ek; [lia|].
        cbn [length] in Hle. cbn [run] in Ek.
        destruct (isLF c) eqn:Hc; [|discriminate Ek].
        assert (Hk : k = run isLF tl) by congruence.
        rewrite replace_go_advance by lia.
        pose proof (advance_past_run isLF tl k (Some c) Hk) as Hr.
        pose proof (advance_rest_length k (Some c) tl ltac:(lia)) as Hl.
        destruct (IH (snd (advance k (Some c) tl)) (fst (advance k (Some c) tl))
                     ltac:(lia)) as [R I].
        rewrite Hr in R. cbn [Nat.min] in R.
        set (G := replace_go _ _ _ _ _ _ _) in *.
        replace (Nat.min (S k) 2) with 2 by lia.
        cbn [app]. split.
        -- cbn [run]. change (isLF LF) with true. cbv iota. now rewrite R.
        -- rewrite includes_cons, startsWith_LLL. fold isLF.
           cbn [run]. change (isLF LF) with true. cbv iota. rewrite R.
           cbn [Nat.leb orb].
           rewrite includes_cons, startsWith_LLL. fold isLF.
           cbn [run]. change (isLF LF) with true. cbv iota. rewrite R.
           cbn [Nat.leb orb]. exact I.
      * apply Nat.leb_gt in E.
        destruct (IH tl (Some c) ltac:(lia)) as [R I].
        set (G := replace_go _ _ _ _ _ _ _) in *.
        cbn [run] in E |- *. destruct (isLF c) eqn:Hc.
        -- rewrite R. split; [lia|].
           rewrite includes_cons, startsWith_LLL. fold isLF. cbn [run]. rewrite Hc, R, I.
           rewrite orb_false_r. apply Nat.leb_gt. lia.
        -- split; [reflexivity|].
           rewrite includes_cons, startsWith_LLL. fold isLF. cbn [run]. rewrite Hc, I.
           reflexivity.
Qed.

Lemma squeeze_no_LLL s : includes LLL (squeeze_pass s) = false.
Proof.
  unfold squeeze_pass, replace_all.
  exact (proj2 (squeeze_go_runs (length s) s None (Nat.le_refl _))).
Qed.

(** The converter's paragraph rule: a paragraph whose content is only
    white space gives nothing; any other paragraph gives its trimmed
    content, in which no more than two line breaks follow each other,
    then one blank line. Nothing is added to the content but that blank
    line. *)
Theorem improvedParagraph_output content n :
  (trim content = [] -> replacement improvedParagraph content n = Ok []) /\
  (trim content <> [] ->
   exists body,
     replacement improvedParagraph content n = Ok (body ++ [LF; LF]) /\
     body <> [] /\
     includes [LF; LF; LF] body = false /\
     length body <= length content /\
     (forall c, In c body -> In c content)).
Proof.
  cbn [improvedParagraph rule replacement]. split.
  - intros E. rewrite E. reflexivity.
  - intros NE. destruct (trim content) as [|c t] eqn:E; [contradiction|].
    cbn [truthy negb]. rewrite <- E.
    exists (squeeze_pass (trim content)). split; [reflexivity|].
    split; [|split; [|split]].
    + rewrite E. unfold squeeze_pass, replace_all. rewrite replace_go_0, exec_blank_lines.
      destruct (3 <=? run (N.eqb LF) (c :: t)); discriminate.
    + apply squeeze_no_LLL.
    + pose proof (squeeze_go_length (trim content) None 0 (Nat.le_0_l _)) as L.
      pose proof (trim_length content). unfold squeeze_pass, replace_all. lia.
    + intros x Hx. apply trim_In. unfold squeeze_pass, replace_all in Hx.
      exact (squeeze_go_In _ None 0 x Hx).
Qed.

End ParagraphProps.

Module LinkFacts.
Import RegexFacts TidyFacts MatcherFacts SpaceFacts.

Lemma m_chr_ok c k pv tl cs :
  m (chr c) k (MState pv (c :: tl) cs) = k (MState (Some c) tl cs).
Proof. unfold chr. rewrite m_Chr. cbn [rest caps]. now rewrite N.eqb_refl. Qed.

Lemma m_chr_fail c k pv s cs :
  match s with x :: _ => x <> c | [] => True end ->
  m (chr c) k (MState pv s cs) = None.
Proof.
  intros H. unfold chr. rewrite m_Chr. cbn [rest]. destruct s as [|x tl]; [reflexivity|].
  replace (c =? x)%N with false; [reflexivity|].
  symmetry. apply N.eqb_neq. intros E. now apply H.
Qed.

Lemma m_Grp i r k st :
  m (Grp i r) k st =
  m r (fun st' => k (MState (prev st') (rest st') ((i, consumed st st') :: caps st'))) st.
Proof. reflexivity. Qed.

Lemma m_seqs_step r rs k st : m (seqs (r :: rs)) k st = m r (m (seqs rs) k) st.
Proof. destruct rs; reflexivity. Qed.

Lemma run_stop p w x tl :
  forallb p w = true -> p x = false -> run p (w ++ x :: tl) = length w.
Proof.
  induction w as [|c w IH]; intros Hw Hx; cbn [app run length].
  - now rewrite Hx.
  - cbn [forallb] in Hw. apply andb_true_iff in Hw as [Hc Hw]. rewrite Hc.
    f_equal. now apply IH.
Qed.

Lemma run_end p w : forallb p w = true -> run p w = length w.
Proof.
  induction w as [|c w IH]; intros Hw; [reflexivity|]. cbn [run length].
  cbn [forallb] in Hw. apply andb_true_iff in Hw as [Hc Hw]. rewrite Hc.
  f_equal. now apply IH.
Qed.

Lemma consumed_app a b pv pv' cs cs' :
  consumed (MState pv (a ++ b) cs) (MState pv' b cs') = a.
Proof.
  unfold consumed. cbn [rest]. rewrite length_app.
  replace (length a + length b - length b) with (length a) by lia.
  induction a as [|x a IH]; [destruct b; reflexivity|]. cbn. now rewrite IH.
Qed.

(** A lazy quantifier over a class stops at the first point where what
    follows it matches. *)
Lemma rep_lazy_class p k r : forall c tl fuel pv cs,
  length (c ++ tl) < fuel ->
  forallb p c = true ->
  (forall a b, c = a ++ b -> b <> [] ->
               k (MState (last (map Some a) pv) (b ++ tl) cs) = None) ->
  k (MState (last (map Some c) pv) tl cs) = Some r ->
  rep (m (Chr p)) false fuel 0 None k (MState pv (c ++ tl) cs) = Some r.
Proof.
  induction c as [|x c IH]; intros tl fuel pv cs Hf Hp Hnone Hk;
    (destruct fuel as [|fuel]; [lia|]); cbn [rep].
  - cbn [app map last] in *. cbn [Nat.ltb Nat.leb]. rewrite Hk. reflexivity.
  - pose proof (Hnone [] (x :: c) eq_refl ltac:(discriminate)) as H0.
    cbn [map last app] in H0. cbn [app Nat.ltb Nat.leb]. rewrite H0. cbn [orelse].
    rewrite m_Chr. cbn [rest caps].
    cbn [forallb] in Hp. apply andb_true_iff in Hp as [Hx Hp]. rewrite Hx.
    replace (length (c ++ tl) =? length (x :: c ++ tl)) with false
      by (symmetry; apply Nat.eqb_neq; cbn [length]; lia).
    rewrite andb_false_r. cbn [option_map Nat.pred].
    apply IH.
    + cbn [app length] in Hf. lia.
    + exact Hp.
    + intros a b E Hb. pose proof (Hnone (x :: a) b) as H1.
      cbn [map] in H1. rewrite last_shift in H1. apply H1; [now rewrite E|exact Hb].
    + cbn [map] in Hk. now rewrite last_shift in Hk.
Qed.

(** The same with one iteration required. *)
Lemma rep_lazy_class1 p k r x c tl fuel pv cs :
  S (length (c ++ tl)) < fuel ->
  forallb p (x :: c) = true ->
  (forall a b, c = a ++ b -> b <> [] ->
               k (MState (last (map Some a) (Some x)) (b ++ tl) cs) = None) ->
  k (MState (last (map Some c) (Some x)) tl cs) = Some r ->
  rep (m (Chr p)) false fuel 1 None k (MState pv ((x :: c) ++ tl) cs) = Some r.
Proof.
  intros Hf Hp Hnone Hk. destruct fuel as [|fuel]; [lia|]. cbn [rep].
  cbn [Nat.ltb Nat.leb app]. rewrite m_Chr. cbn [rest caps].
  cbn [forallb] in Hp. apply andb_true_iff in Hp as [Hx Hp]. rewrite Hx.
  cbn [Nat.eqb andb option_map Nat.pred].
  apply rep_lazy_class; [lia|exact Hp|exact Hnone|exact Hk].
Qed.

Definition unspaced (s : jsstring) : jsstring :=
  List.filter (fun c => negb (isSpace c)) s.

Lemma unspaced_advance s : forall n pv,
  n = run isSpace s -> unspaced s = unspaced (snd (advance n pv s)).
Proof.
  induction s as [|c tl IH]; intros n pv E; cbn [run] in E.
  - subst n. reflexivity.
  - destruct (isSpace c) eqn:Hc.
    + subst n. cbn [advance]. unfold unspaced at 1. cbn [List.filter]. rewrite Hc.
      cbn [negb]. now apply IH.
    + subst n. reflexivity.
Qed.

(** What [/\s+/g -> ''] computes. *)
Lemma spaces_go_delete : forall n s pv,
  length s <= n ->
  replace_go spaces_re (fun _ => []) true pv 0 true s = unspaced s.
Proof.
  induction n as [|n IH]; intros s pv Hn.
  - destruct s; [|cbn [length] in Hn; lia].
    rewrite replace_go_0, exec_spaces. reflexivity.
  - destruct s as [|c tl].
    + rewrite replace_go_0, exec_spaces. reflexivity.
    + cbn [length] in Hn. rewrite replace_go_0, exec_spaces.
      destruct (1 <=? run isSpace (c :: tl)) eqn:E.
      * apply Nat.leb_le in E. cbn [matched]. rewrite length_firstn_run.
        pose proof (run_le isSpace (c :: tl)) as Hle.
        destruct (run isSpace (c :: tl)) as [|k] eqn:Ek; [lia|].
        cbn [length] in Hle. cbn [run] in Ek.
        destruct (isSpace c) eqn:Hc; [|discriminate Ek].
        assert (Hk : k = run isSpace tl) by congruence.
        rewrite replace_go_advance by lia.
        unfold unspaced at 1. cbn [List.filter]. rewrite Hc. cbn [negb app].
        fold (unspaced tl). rewrite (unspaced_advance tl k (Some c) Hk).
        pose proof (advance_rest_length k (Some c) tl ltac:(lia)) as Hl.
        apply IH. lia.
      * cbn [run] in E. unfold unspaced. cbn [List.filter].
        destruct (isSpace c); [discriminate E|]. cbn [negb]. f_equal. apply IH. lia.
Qed.

Lemma unspaced_eq s : replace_all spaces_re (fun _ => []) s = unspaced s.
Proof. apply (spaces_go_delete (length s)). lia. Qed.

Lemma unspaced_app a b : unspaced (a ++ b) = unspaced a ++ unspaced b.
Proof. apply filter_app. Qed.

Lemma unspaced_spaces w : forallb isSpace w = true -> unspaced w = [].
Proof.
  induction w as [|c w IH]; intros H; [reflexivity|].
  cbn [forallb] in H. apply andb_true_iff in H as [Hc H].
  unfold unspaced. cbn [List.filter]. rewrite Hc. now apply IH.
Qed.

Lemma unspaced_solid u :
  forallb (fun c => negb (isSpace c)) u = true -> unspaced u = u.
Proof.
  induction u as [|c u IH]; intros H; [reflexivity|].
  cbn [forallb] in H. apply andb_true_iff in H as [Hc H].
  unfold unspaced. cbn [List.filter]. rewrite Hc. f_equal. now apply IH.
Qed.

End LinkFacts.

Module LinkMatchFacts.
Import RegexFacts TidyFacts MatcherFacts SpaceFacts LinkFacts.

Definition text_class : N -> bool := fun c => negb (one_of [93; 10]%N c).
Definition url_class : N -> bool := fun c => negb (one_of [41]%N c).

Lemma text_class_ok t : ~ In 93%N t -> ~ In LF t -> forallb text_class t = true.
Proof.
  induction t as [|c t IH]; intros H1 H2; [reflexivity|].
  cbn [forallb]. rewrite IH; [|intros H; apply H1; now right|intros H; apply H2; now right].
  rewrite andb_true_r. unfold text_class, one_of. cbn [existsb].
  replace (c =? 93)%N with false
    by (symmetry; apply N.eqb_neq; intros E; apply H1; left; now rewrite E).
  replace (c =? 10)%N with false
    by (symmetry; apply N.eqb_neq; intros E; apply H2; left; now rewrite E).
  reflexivity.
Qed.

Lemma url_class_ok u : ~ In 41%N u -> forallb url_class u = true.
Proof.
  induction u as [|c u IH]; intros H1; [reflexivity|].
  cbn [forallb]. rewrite IH; [|intros H; apply H1; now right].
  rewrite andb_true_r. unfold url_class, one_of. cbn [existsb].
  replace (c =? 41)%N with false
    by (symmetry; apply N.eqb_neq; intros E; apply H1; left; now rewrite E).
  reflexivity.
Qed.

Lemma spaces_not x w : forallb isSpace w = true -> isSpace x = false -> ~ In x w.
Proof.
  intros Hw Hx H. rewrite forallb_forall in Hw. rewrite (Hw x H) in Hx. discriminate.
Qed.

Lemma run_le_front p front z tl :
  p z = false -> run p (front ++ z :: tl) <= length front.
Proof.
  intros Hz. induction front as [|c front IH]; cbn [app run length].
  - rewrite Hz. lia.
  - destruct (p c); lia.
Qed.

Lemma advance_in_front b : forall j pv tl,
  j < length b -> exists c rest, snd (advance j pv (b ++ tl)) = c :: rest /\ In c b.
Proof.
  induction b as [|x b IH]; intros j pv tl Hj; [cbn [length] in Hj; lia|].
  destruct j as [|j].
  - exists x, (b ++ tl). split; [reflexivity|now left].
  - cbn [app advance]. cbn [length] in Hj.
    destruct (IH j (Some x) tl ltac:(lia)) as [c [rest [E Hc]]].
    exists c, rest. split; [exact E|now right].
Qed.

Lemma last_ok_back a b : last_ok (a ++ b) -> b <> [] -> last_ok b.
Proof.
  unfold last_ok. rewrite rev_app_distr. intros H Hb.
  destruct (rev b) as [|z r] eqn:E.
  - exfalso. apply Hb. apply (f_equal (@rev N)) in E. now rewrite rev_involutive in E.
  - exact H.
Qed.

(** After a proper part of the link text, white space and a closing
    bracket cannot follow. *)
Lemma text_goes_on k b tl pv cs :
  b <> [] -> last_ok b -> ~ In 93%N b ->
  m (star ws) (m (seqs (chr 93 :: k)) accept) (MState pv (b ++ tl) cs) = None.
Proof.
  intros Hb Hl H93. unfold star, ws. rewrite m_Rep. cbn [rest].
  apply (rep_class_never isSpace); [lia|].
  intros j Hj.
  destruct (last_ok_cases b Hl) as [->|[front [z [-> Hz]]]]; [contradiction|].
  assert (Hlen : j < length (front ++ [z])).
  { rewrite <- app_assoc in Hj. cbn [app] in Hj.
    pose proof (run_le_front isSpace front z tl Hz). rewrite length_app. cbn [length]. lia. }
  destruct (advance_in_front (front ++ [z]) j pv tl Hlen) as [c [rest [E Hc]]].
  rewrite E, m_seqs_step. apply m_chr_fail. intros ->. now apply H93.
Qed.

Lemma solid_head u :
  u <> [] -> forallb (fun c => negb (isSpace c)) u = true ->
  exists y u', u = y :: u' /\ isSpace y = false.
Proof.
  destruct u as [|y u']; [contradiction|]. intros _ H. exists y, u'.
  split; [reflexivity|]. cbn [forallb] in H. apply andb_true_iff in H as [Hy _].
  now apply negb_true_iff in Hy.
Qed.

Lemma head_ok_cons t :
  t <> [] -> head_ok t -> exists x t', t = x :: t' /\ isSpace x = false.
Proof.
  destruct t as [|x t']; [contradiction|]. intros _ H. now exists x, t'.
Qed.

Lemma isLineTerminator_isSpace c : isLineTerminator c = true -> isSpace c = true.
Proof.
  unfold isLineTerminator, one_of. cbn [existsb]. intros H.
  repeat (apply orb_true_iff in H as [H|H];
          [apply N.eqb_eq in H; subst c; reflexivity|]).
  discriminate.
Qed.

(** A string that holds no line terminator. *)
Definition one_line (s : jsstring) : Prop :=
  forall c, In c s -> isLineTerminator c = false.

Lemma one_line_app a b : one_line a -> one_line b -> one_line (a ++ b).
Proof.
  intros Ha Hb c Hc. apply in_app_or in Hc as [Hc|Hc]; [now apply Ha|now apply Hb].
Qed.

Lemma one_line_cons c s : isLineTerminator c = false -> one_line s -> one_line (c :: s).
Proof. intros Hc Hs x [<-|Hx]; [exact Hc|now apply Hs]. Qed.

Lemma one_line_tail c s : one_line (c :: s) -> one_line s.
Proof. intros H x Hx. apply H. now right. Qed.

Lemma one_line_collapse s b : one_line (collapse b s).
Proof.
  intros c Hc. destruct (isLineTerminator c) eqn:E; [|reflexivity].
  pose proof (collapse_only_spaces s b c Hc (isLineTerminator_isSpace c E)) as ->.
  discriminate.
Qed.

Lemma unspaced_In s c : In c (unspaced s) -> isSpace c = false.
Proof.
  unfold unspaced. intros H. apply filter_In in H as [_ H].
  now apply negb_true_iff in H.
Qed.

Lemma one_line_unspaced s : one_line (unspaced s).
Proof.
  intros c Hc. apply unspaced_In in Hc.
  destruct (isLineTerminator c) eqn:E; [|reflexivity].
  apply isLineTerminator_isSpace in E. rewrite E in Hc. discriminate.
Qed.

Lemma one_line_squeezed s : one_line s -> includes LLL s = false.
Proof.
  induction s as [|c tl IH]; intros H; [reflexivity|].
  rewrite includes_cons. rewrite IH by (eapply one_line_tail; exact H).
  rewrite orb_false_r. unfold LLL. cbn [startsWith].
  replace (LF =? c)%N with false; [reflexivity|].
  symmetry. apply N.eqb_neq. intros <-.
  specialize (H LF (or_introl eq_refl)). discriminate.
Qed.

Lemma one_line_indent_free s : one_line s -> indent_free false s = true.
Proof.
  induction s as [|c tl IH]; intros H; [reflexivity|].
  cbn [indent_free andb negb]. rewrite (H c (or_introl eq_refl)).
  apply IH. eapply one_line_tail; exact H.
Qed.

Lemma solid_head_ok s : (forall c, In c s -> isSpace c = false) -> head_ok s.
Proof. destruct s as [|c tl]; [intros _; exact I|]. intros H. apply H. now left. Qed.

Lemma solid_last_ok s : (forall c, In c s -> isSpace c = false) -> last_ok s.
Proof.
  intros H. apply solid_head_ok. intros c Hc. apply H. now apply in_rev.
Qed.

Lemma trim_parts s :
  exists a b, s = a ++ trim s ++ b /\ forallb isSpace a = true /\ forallb isSpace b = true.
Proof.
  unfold trim.
  destruct (trimStart_split s) as [a [Ea Fa]].
  destruct (trimEnd_split (trimStart s)) as [b [Eb Fb]].
  exists a, b. split; [now rewrite <- Eb|now split].
Qed.

Lemma trimStart_unspaced s : unspaced (trimStart s) = unspaced s.
Proof.
  destruct (trimStart_split s) as [a [Ea Fa]].
  rewrite Ea at 2. rewrite unspaced_app, (unspaced_spaces a Fa). reflexivity.
Qed.

Section Link.

Variables (w1 w2 w3 w4 w5 t u : jsstring).
Hypothesis Hw1 : forallb isSpace w1 = true.
Hypothesis Hw2 : forallb isSpace w2 = true.
Hypothesis Hw3 : forallb isSpace w3 = true.
Hypothesis Hw4 : forallb isSpace w4 = true.
Hypothesis Hw5 : forallb isSpace w5 = true.
Hypothesis Ht : t <> [].
Hypothesis Hth : head_ok t.
Hypothesis Htl : last_ok t.
Hypothesis Ht93 : ~ In 93%N t.
Hypothesis HtLF : ~ In LF t.
Hypothesis Hu : u <> [].
Hypothesis Huh : head_ok u.
Hypothesis Hu41 : ~ In 41%N u.

Definition broken_link : jsstring :=
  91%N :: w1 ++ t ++ w2 ++ 93%N :: w3 ++ 40%N :: w4 ++ u ++ w5 ++ [41%N].

Definition link_end : mstate := MState (Some 41%N) [] [(2, u ++ w5); (1, t)].

Lemma url_tail cs pv :
  m (seqs [star ws; chr 41]) accept (MState pv [41%N] cs) = Some (MState (Some 41%N) [] cs).
Proof.
  rewrite m_seqs_step. unfold star, ws. rewrite m_Rep. cbn [rest].
  apply (rep_class_then isSpace); [cbn [length]; lia|lia|].
  change (run isSpace [41%N]) with 0. cbn [advance fst snd].
  change (seqs [chr 41]) with (chr 41). rewrite m_chr_ok. reflexivity.
Qed.

Lemma url_part pv cs :
  m (seqs [Grp 2 (plus (none_of [41]%N)); star ws; chr 41]) accept
    (MState pv (u ++ w5 ++ [41%N]) cs) =
  Some (MState (Some 41%N) [] ((2, u ++ w5) :: cs)).
Proof.
  rewrite m_seqs_step, m_Grp. unfold plus, none_of. rewrite m_Rep. cbn [rest].
  assert (Hc : forallb url_class (u ++ w5) = true).
  { rewrite forallb_app. rewrite (url_class_ok u Hu41).
    rewrite (url_class_ok w5); [reflexivity|].
    apply (spaces_not 41%N w5 Hw5). reflexivity. }
  assert (R : run url_class (u ++ w5 ++ [41%N]) = length (u ++ w5)).
  { rewrite app_assoc. apply run_stop; [exact Hc|reflexivity]. }
  apply (rep_class_then url_class).
  - lia.
  - fold url_class. rewrite R. destruct u; [contradiction|]. cbn [app length]. lia.
  - fold url_class. rewrite R. rewrite (app_assoc u w5), advance_app.
    cbv beta. cbn [fst snd prev rest caps].
    rewrite (consumed_app (u ++ w5) [41%N]). apply url_tail.
Qed.

Lemma after_text pv cs :
  m (seqs [star ws; chr 93; star ws; chr 40; star ws; Grp 2 (plus (none_of [41]%N));
           star ws; chr 41]) accept
    (MState pv (w2 ++ 93%N :: w3 ++ 40%N :: w4 ++ u ++ w5 ++ [41%N]) cs) =
  Some (MState (Some 41%N) [] ((2, u ++ w5) :: cs)).
Proof.
  rewrite m_seqs_step. unfold star at 1. unfold ws at 1. rewrite m_Rep. cbn [rest].
  apply (rep_class_then isSpace); [lia|lia|].
  rewrite (run_stop isSpace w2 93%N _ Hw2 eq_refl), advance_app. cbn [fst snd].
  rewrite m_seqs_step, m_chr_ok.
  rewrite m_seqs_step. unfold star at 1. unfold ws at 1. rewrite m_Rep. cbn [rest].
  apply (rep_class_then isSpace); [lia|lia|].
  rewrite (run_stop isSpace w3 40%N _ Hw3 eq_refl), advance_app. cbn [fst snd].
  rewrite m_seqs_step, m_chr_ok.
  rewrite m_seqs_step. unfold star at 1. unfold ws at 1. rewrite m_Rep. cbn [rest].
  apply (rep_class_then isSpace); [lia|lia|].
  assert (R : run isSpace (w4 ++ u ++ w5 ++ [41%N]) = length w4).
  { destruct (head_ok_cons u Hu Huh) as [y [u' [Eu Hy]]]. rewrite Eu. cbn [app].
    now apply run_stop. }
  rewrite R, advance_app. cbn [fst snd]. apply url_part.
Qed.

Lemma exec_broken_link pv :
  exec_at link_re pv broken_link = Some (RMatch broken_link [(2, u ++ w5); (1, t)]).
Proof.
  unfold exec_at.
  assert (M : m link_re accept (MState pv broken_link []) = Some link_end).
  { unfold link_re, broken_link. rewrite m_seqs_step, m_chr_ok.
    rewrite m_seqs_step. unfold star at 1. unfold ws at 1. rewrite m_Rep. cbn [rest].
    apply (rep_class_then isSpace); [lia|lia|].
    destruct (head_ok_cons t Ht Hth) as [x [t' [Et Hx]]].
    assert (R : run isSpace (w1 ++ t ++ w2 ++ 93%N :: w3 ++ 40%N :: w4 ++ u ++ w5 ++ [41%N])
                = length w1).
    { rewrite Et. cbn [app]. now apply run_stop. }
    rewrite R, advance_app. cbn [fst snd].
    rewrite m_seqs_step, m_Grp. unfold lazy_plus, none_of. rewrite m_Rep. cbn [rest].
    unfold link_end. rewrite Et.
    apply (rep_lazy_class1 text_class _ _ x t'
             (w2 ++ 93%N :: w3 ++ 40%N :: w4 ++ u ++ w5 ++ [41%N])).
    - cbn [app length]. lia.
    - rewrite <- Et. now apply text_class_ok.
    - intros a b E Hb. cbv beta. cbn [prev rest caps].
      rewrite m_seqs_step.
      apply text_goes_on; [exact Hb| |].
      + apply (last_ok_back (x :: a) b); [|exact Hb]. cbn [app].
        rewrite <- E, <- Et. exact Htl.
      + intros H. apply Ht93. rewrite Et. right. rewrite E. apply in_or_app. now right.
    - cbv beta. cbn [prev rest caps].
      rewrite (consumed_app (x :: t')
                 (w2 ++ 93%N :: w3 ++ 40%N :: w4 ++ u ++ w5 ++ [41%N])).
      apply after_text. }
  rewrite M. unfold link_end, consumed. cbn [rest caps length].
  rewrite Nat.sub_0_r, firstn_all. reflexivity.
Qed.

(** What the link pass writes for the broken link. *)
Definition repaired : jsstring :=
  91%N :: collapse false t ++ 93%N :: 40%N :: unspaced u ++ [41%N].

Lemma fix_link_broken :
  fix_link (RMatch broken_link [(2, u ++ w5); (1, t)]) = repaired.
Proof.
  unfold fix_link. cbn [groups group Nat.eqb].
  rewrite collapse_eq, unspaced_eq, unspaced_app, (unspaced_spaces w5 Hw5), app_nil_r.
  rewrite (trim_fixed (collapse false t) (collapse_head t Hth) (collapse_last t Htl)).
  rewrite (trim_fixed (unspaced u) (solid_head_ok _ (unspaced_In u))
             (solid_last_ok _ (unspaced_In u))).
  reflexivity.
Qed.

Lemma broken_link_cons : broken_link <> [].
Proof. unfold broken_link. discriminate. Qed.

Lemma link_pass_broken : link_pass broken_link = repaired.
Proof.
  unfold link_pass, replace_all.
  assert (E : exec_at link_re None (broken_link ++ []) =
              Some (RMatch broken_link [(2, u ++ w5); (1, t)])).
  { rewrite app_nil_r. apply exec_broken_link. }
  pose proof (replace_go_match link_re fix_link None broken_link [] _ E eq_refl
                broken_link_cons) as P.
  rewrite app_nil_r in P. rewrite P, fix_link_broken.
  rewrite (link_go_no_bracket [] _ (fun H => H)). apply app_nil_r.
Qed.

Lemma one_line_repaired : one_line repaired.
Proof.
  unfold repaired. apply one_line_cons; [reflexivity|].
  apply one_line_app; [apply one_line_collapse|].
  apply one_line_cons; [reflexivity|]. apply one_line_cons; [reflexivity|].
  apply one_line_app; [apply one_line_unspaced|].
  apply one_line_cons; [reflexivity|]. intros c [].
Qed.

Lemma tidy_broken_link : tidyMarkdown broken_link = repaired.
Proof.
  rewrite tidyMarkdown_passes, link_pass_broken.
  unfold squeeze_pass, replace_all.
  rewrite (squeeze_go_fixed repaired None (one_line_squeezed _ one_line_repaired)).
  rewrite indent_pass_strip.
  assert (F : indent_free true repaired = true).
  { pose proof (one_line_indent_free _ (one_line_tail _ _ one_line_repaired)) as F.
    unfold repaired. cbn [indent_free]. exact F. }
  rewrite (strip_fixed repaired true F).
  apply trim_fixed; [reflexivity|].
  assert (R : repaired =
              (91%N :: collapse false t ++ 93%N :: 40%N :: unspaced u) ++ [41%N]).
  { unfold repaired. cbn [app]. rewrite <- app_assoc. reflexivity. }
  rewrite R. unfold last_ok. rewrite rev_app_distr. reflexivity.
Qed.

End Link.

End LinkMatchFacts.

Module LinkProps.
Import RegexFacts TidyFacts MatcherFacts SpaceFacts LinkFacts LinkMatchFacts.

(** A Markdown link whose text or target is padded or broken up by
    white space comes out of [tidyMarkdown] repaired. For a text [x]
    without a closing bracket whose trimmed form is not empty and holds no
    line feed, white space [w] between the brackets and the parenthesis,
    and a target [v] without a closing parenthesis that is not only white
    space, the input [[x]w(v)] becomes the link whose text is the trimmed
    [x] with every run of white space replaced by one space and whose
    target is [v] with all white space deleted. *)
Theorem tidyMarkdown_repairs_link x w v :
  ~ In 93%N x -> ~ In LF (trim x) -> trim x <> [] ->
  forallb isSpace w = true ->
  ~ In 41%N v -> replace_all spaces_re (fun _ => []) v <> [] ->
  tidyMarkdown (js "[" ++ x ++ js "]" ++ w ++ js "(" ++ v ++ js ")") =
  js "[" ++ replace_all spaces_re (fun _ => [SP]) (trim x) ++ js "](" ++
  replace_all spaces_re (fun _ => []) v ++ js ")".
Proof.
  intros Hx HLF Hne Hw Hv Hvn.
  destruct (trim_parts x) as [w1 [w2 [Ex [F1 F2]]]].
  destruct (trimStart_split v) as [w4 [Ev F4]].
  rewrite collapse_eq. rewrite unspaced_eq in *.
  rewrite <- (trimStart_unspaced v) in *.
  pose proof (tidy_broken_link w1 w2 w w4 [] (trim x) (trimStart v)
                F1 F2 Hw F4 eq_refl Hne (trim_head_ok x) (trim_last_ok x)) as T.
  unfold broken_link, repaired in T. rewrite app_nil_l in T.
  rewrite Ex at 1. rewrite Ev at 1.
  change (js "[") with [91%N]. change (js "]") with [93%N].
  change (js "(") with [40%N]. change (js ")") with [41%N].
  change (js "](") with [93%N; 40%N].
  rewrite <- !app_assoc. cbn [app].
  apply T.
  - intros H. apply Hx. now apply trim_In.
  - exact HLF.
  - intros E. apply Hvn. rewrite E. reflexivity.
  - apply trimStart_head.
  - intros H. apply Hv. rewrite Ev. apply in_or_app. now right.
Qed.

(** The link ["[  read   more ] ( http://a.b/c d )"] becomes
    ["[read more](http://a.b/cd)"]. *)
Lemma tidyMarkdown_repairs_link_witness :
  tidyMarkdown (js "[  read   more ] ( http://a.b/c d )") = js "[read more](http://a.b/cd)".
Proof.
  refine (eq_trans _ (eq_trans
    (tidyMarkdown_repairs_link (js "  read   more ") (js " ") (js " http://a.b/c d ")
       _ _ _ _ _ _) _)).
  - reflexivity.
  - vm_compute. intuition discriminate.
  - vm_compute. intuition discriminate.
  - vm_compute. discriminate.
  - reflexivity.
  - vm_compute. intuition discriminate.
  - vm_compute. discriminate.
  - vm_compute. reflexivity.
Defined.

End LinkProps.
